(** * Cell extraction (libigl, [igl::copyleft::cgal::extract_cells])

    A shallow embedding of [include/igl/copyleft/cgal/extract_cells.cpp]:
    the face-level entry point, the patch-level [extract_cells] and
    [extract_cells_single_component] with its two lambdas [is_consistent]
    and [peel_cell_bd].

    Conventions of the embedding.
    - Indices of faces, half-edges, unique edges, vertices, patches and
      components are [nat]; containers are lists read with [!!].  A read or
      write outside a container is undefined behaviour in the source and is
      the failure [OutOfRange] here.
    - Cell ids live in an [int] matrix and in [size_t] variables.  They are
      [Z] here, and every conversion between the two C++ types is written
      out ([to_int], [to_size_t]).
    - Values that are only ever indices (edge and face numbers stored in
      Eigen [int] vectors) are taken to fit their C++ type; the one product
      that wraps around on purpose, the signed face index, is written out.
    - [assert] is compiled in: an assertion that does not hold aborts the
      call ([AssertionFailed]).  [throw] is [Thrown].
    - The [while] loop of the peel is a fixpoint on a fuel that the
      embedding computes itself; [extract_cells_fuelled] shows that it never
      runs out.  The peel also keeps a list of the steps it takes
      ([peel_visit]), a ghost that the source does not build and that the
      results do not depend on.
    - The geometric collaborators (cyclic ordering around an edge, connected
      components, outer facet, closest facet, edge map, manifold patches)
      are not part of this file of the library; they are the fields of the
      class [Collaborators]. *)

From Stdlib Require Import ZArith QArith Lia Lqa String.
From stdpp Require Import base list.

Close Scope Q_scope.
Open Scope nat_scope.

(** ** Failures and the error monad *)

Inductive failure : Type :=
| Thrown (msg : string)
| AssertionFailed (msg : string)
| OutOfRange
| DivisionByZero
| OutOfFuel.

Inductive result (A : Type) : Type :=
| Ok (a : A)
| Err (e : failure).

Arguments Ok {A} a.
Arguments Err {A} e.

#[global] Instance result_ret : MRet result := @Ok.
#[global] Instance result_bind : MBind result :=
  fun A B f m => match m with Ok a => f a | Err e => Err e end.

Definition at_index {A} (l : list A) (i : nat) : result A :=
  match l !! i with Some a => Ok a | None => Err OutOfRange end.

Definition assert (b : bool) (msg : string) : result unit :=
  if b then Ok tt else Err (AssertionFailed msg).

Fixpoint foldM {S A} (f : S -> A -> result S) (l : list A) (s : S) : result S :=
  match l with
  | [] => Ok s
  | a :: l' => s' ← f s a; foldM f l' s'
  end.

(** ** Machine integers *)

Definition INT_MAX : Z := 2 ^ 31 - 1.
Definition SIZE_MAX : Z := 2 ^ 64 - 1.

(** Conversion to a 32-bit [int] (two's complement) and to a 64-bit
    [size_t]. *)
Definition to_int (z : Z) : Z := ((z + 2 ^ 31) mod 2 ^ 32 - 2 ^ 31)%Z.
Definition to_size_t (z : Z) : Z := (z mod 2 ^ 64)%Z.

(** ** Data *)

Definition point : Type := Q * Q * Q.
Definition face : Type := nat * nat * nat.
Abbreviation cell_matrix := (list (Z * Z)).

(** [cells(p, side)], read and written; [side] is a C++ [short]. *)
Definition coeff (cells : cell_matrix) (p : nat) (side : Z) : result Z :=
  row ← at_index cells p;
  if (side =? 0)%Z then Ok row.1
  else if (side =? 1)%Z then Ok row.2
  else Err OutOfRange.

Definition set_coeff (cells : cell_matrix) (p : nat) (side : Z) (v : Z)
  : result cell_matrix :=
  row ← at_index cells p;
  if (side =? 0)%Z then Ok (<[p := (v, row.2)]> cells)
  else if (side =? 1)%Z then Ok (<[p := (row.1, v)]> cells)
  else Err OutOfRange.

(** [v[i].push_back(x)] *)
Definition push_back_at {A} (v : list (list A)) (i : nat) (x : A)
  : result (list (list A)) :=
  vi ← at_index v i; Ok (<[i := vi ++ [x]]> v).

(** [P.maxCoeff()]; Eigen rejects an empty vector. *)
Definition maxCoeff (P : list nat) : result nat :=
  match P with
  | [] => Err OutOfRange
  | p :: ps => Ok (foldl Nat.max p ps)
  end.

(** ** Collaborators *)

Class Collaborators : Type := {
  (** [order_facets_around_edge(V, F, s, d, signed_adj_faces, order)]:
      positions into [signed_adj_faces], in cyclic order. *)
  order_facets_around_edge :
    list point -> list face -> nat -> nat -> list Z -> list nat;
  (** [triangle_triangle_adjacency] followed by [facet_components]:
      the component of each face and the per-component counts. *)
  facet_components :
    list (nat * nat) -> list nat -> list (list nat) -> list nat * list nat;
  (** [outer_facet(V, F, I, f, flipped)] *)
  outer_facet : list point -> list face -> list nat -> nat * bool;
  (** [closest_facet(V, F, I, queries, uE2E, EMAP, facets, orientations)] *)
  closest_facet :
    list point -> list face -> list nat -> list point ->
    list (list nat) -> list nat -> list nat * list bool;
  (** [unique_edge_map(F, E, uE, EMAP, uE2E)] *)
  unique_edge_map :
    list face ->
    list (nat * nat) * list (nat * nat) * list nat * list (list nat);
  (** [extract_manifold_patches(F, EMAP, uE2E, P)] *)
  extract_manifold_patches :
    list face -> list nat -> list (list nat) -> list nat
}.

(** ** [extract_cells_single_component] *)

Section SingleComponent.
Context {coll : Collaborators}.
Variable V : list point.
Variable F : list face.
Variable P : list nat.
Variable uE : list (nat * nat).
Variable uE2E : list (list nat).
Variable EMAP : list nat.

Definition num_faces : nat := length F.

Definition edge_index_to_face_index (index : nat) : result nat :=
  if num_faces =? 0 then Err DivisionByZero else Ok (index mod num_faces).

Definition is_consistent (fid s d : nat) : result bool :=
  '(f0, f1, f2) ← at_index F fid;
  if (f0 =? s) && (f1 =? d) then Ok false
  else if (f1 =? s) && (f2 =? d) then Ok false
  else if (f2 =? s) && (f0 =? d) then Ok false
  else if (f0 =? d) && (f1 =? s) then Ok true
  else if (f1 =? d) && (f2 =? s) then Ok true
  else if (f2 =? d) && (f0 =? s) then Ok true
  else Err (Thrown "Invalid face!").

(** [(fid+1)*(cons ? 1:-1)]: a [size_t] product, stored in a
    [std::vector<int>]. *)
Definition signed_index (fid : nat) (cons : bool) : Z :=
  to_int (to_size_t (to_size_t (Z.of_nat fid + 1)
                     * to_size_t (if cons then 1 else -1))).

Definition signed_adj_face (s d ei : nat) : result Z :=
  fid ← edge_index_to_face_index ei;
  cons ← is_consistent fid s d;
  Ok (signed_index fid cons).

Record edge_cache : Type := {
  patch_edge_adj : list (list nat);
  orders : list (list nat);
  orientations : list (list bool)
}.

(** The signed indices handed to [order_facets_around_edge]. *)
Definition signed_adj_faces_of (s d : nat) (adj_faces : list nat)
  : result (list Z) :=
  mapM (signed_adj_face s d) adj_faces.

(** Body of the loop over unique edges. *)
Definition cache_edge (c : edge_cache) (i : nat) : result edge_cache :=
  '(s, d) ← at_index uE i;
  adj_faces ← at_index uE2E i;
  if 2 <? length adj_faces then
    signed_adj_faces ← signed_adj_faces_of s d adj_faces;
    let order := order_facets_around_edge V F s d signed_adj_faces in
    orientation ←
      mapM (fun k => t ← at_index signed_adj_faces k; Ok (0 <? t)%Z) order;
    order' ← mapM (fun index => at_index adj_faces index) order;
    pea ← foldM (fun pea ei =>
                   fid ← edge_index_to_face_index ei;
                   p ← at_index P fid;
                   push_back_at pea p ei)
                adj_faces (patch_edge_adj c);
    Ok {| patch_edge_adj := pea;
          orders := <[i := order']> (orders c);
          orientations := <[i := orientation]> (orientations c) |}
  else Ok c.

Definition build_edge_cache (num_patches : nat) : result edge_cache :=
  foldM cache_edge (seq 0 (length uE))
    {| patch_edge_adj := replicate num_patches [];
       orders := replicate (length uE) [];
       orientations := replicate (length uE) [] |}.

(** [const int INVALID = std::numeric_limits<int>::max()] *)
Definition INVALID : Z := INT_MAX.

(** The linear search for [ei] in [order]; [length order] if absent. *)
Fixpoint find_edge (ei : nat) (order : list nat) : nat :=
  match order with
  | [] => 0
  | e :: order' => if e =? ei then 0 else S (find_edge ei order')
  end.

(** One visit of the peel: a face-edge [ei] of the popped patch, what was
    read there and what was seen on the neighbour.  The list of visits is
    a ghost of the embedding: the source does not build it. *)
Record peel_visit : Type := {
  pv_cell : Z;
  pv_patch : nat;
  pv_side : Z;
  pv_edge : nat;
  pv_cons : bool;
  pv_next_cons : bool;
  pv_next_patch : nat;
  pv_next_side : Z;
  pv_seen : Z
}.

Record peel_state : Type := {
  queue : list (nat * Z);
  labels : cell_matrix;
  visits : list peel_visit
}.

Definition next_index (side : Z) (cons : bool) (curr_i edge_valance : nat)
  : nat :=
  if (side =? 0)%Z then
    (if cons then curr_i + 1 else curr_i + edge_valance - 1)
      mod edge_valance
  else
    (if cons then curr_i + edge_valance - 1 else curr_i + 1)
      mod edge_valance.

(** [(next_cons != cons) ? side : abs(side-1)] *)
Definition next_patch_side_of (side : Z) (cons next_cons : bool) : Z :=
  if negb (eqb next_cons cons) then side else Z.abs (side - 1).

(** What one face-edge [ei] of the popped patch leads to: the flag of
    its face, the flag of the cyclic neighbour, and the patch and side
    reached. *)
Definition peel_neighbor (c : edge_cache) (side : Z) (ei : nat)
  : result (bool * bool * nat * Z) :=
  uei ← at_index EMAP ei;
  order ← at_index (orders c) uei;
  orientation ← at_index (orientations c) uei;
  let edge_valance := length order in
  let curr_i := find_edge ei order in
  assert (curr_i <? edge_valance) "Failed to find edge.";;
  cons ← at_index orientation curr_i;
  let next := next_index side cons curr_i edge_valance in
  next_ei ← at_index order next;
  next_cons ← at_index orientation next;
  fid ← edge_index_to_face_index next_ei;
  next_patch_id ← at_index P fid;
  let next_patch_side := next_patch_side_of side cons next_cons in
  Ok (cons, next_cons, next_patch_id, next_patch_side).

(** Body of the loop over the face-edges of the popped patch. *)
Definition peel_edge (c : edge_cache) (cell_idx : Z) (patch_id : nat)
    (side : Z) (st : peel_state) (ei : nat) : result peel_state :=
  nb ← peel_neighbor c side ei;
  let cons := nb.1.1.1 in
  let next_cons := nb.1.1.2 in
  let next_patch_id := nb.1.2 in
  let next_patch_side := nb.2 in
  seen ← coeff (labels st) next_patch_id next_patch_side;
  let visit :=
    {| pv_cell := cell_idx; pv_patch := patch_id; pv_side := side;
       pv_edge := ei; pv_cons := cons; pv_next_cons := next_cons;
       pv_next_patch := next_patch_id; pv_next_side := next_patch_side;
       pv_seen := seen |} in
  if (seen =? INVALID)%Z then
    cells' ← set_coeff (labels st) next_patch_id next_patch_side
               (to_int cell_idx);
    Ok {| queue := queue st ++ [(next_patch_id, next_patch_side)];
          labels := cells';
          visits := visits st ++ [visit] |}
  else
    assert (to_size_t seen =? cell_idx)%Z
           "Encountered cell assignment inconsistency";;
    Ok {| queue := queue st; labels := labels st;
          visits := visits st ++ [visit] |}.

(** The [while (!Q.empty())] loop.  Every entry is queued when its label
    leaves [INVALID], so the loop runs at most once per entry of the
    matrix; [fuel] bounds the iterations. *)
Fixpoint peel_loop (fuel : nat) (c : edge_cache) (cell_idx : Z)
    (st : peel_state) : result peel_state :=
  match queue st with
  | [] => Ok st
  | (patch_id, side) :: Q' =>
      match fuel with
      | 0 => Err OutOfFuel
      | S fuel' =>
          adj_edges ← at_index (patch_edge_adj c) patch_id;
          st' ← foldM (peel_edge c cell_idx patch_id side) adj_edges
                  {| queue := Q'; labels := labels st;
                     visits := visits st |};
          peel_loop fuel' c cell_idx st'
      end
  end.

Definition peel_cell_bd (c : edge_cache) (seed_patch_id : nat)
    (seed_patch_side : Z) (cell_idx : Z)
    (cells : cell_matrix) (vs : list peel_visit)
  : result (cell_matrix * list peel_visit) :=
  cells' ← set_coeff cells seed_patch_id seed_patch_side (to_int cell_idx);
  st ← peel_loop (S (2 * length cells)) c cell_idx
         {| queue := [(seed_patch_id, seed_patch_side)];
            labels := cells'; visits := vs |};
  Ok (labels st, visits st).

Record sweep_state : Type := {
  sw_cells : cell_matrix;
  sw_count : Z;
  sw_visits : list peel_visit
}.

Definition sweep_side (c : edge_cache) (i : nat) (side : Z)
    (s : sweep_state) : result sweep_state :=
  x ← coeff (sw_cells s) i side;
  if (x =? INVALID)%Z then
    '(cells', vs') ← peel_cell_bd c i side (sw_count s)
                       (sw_cells s) (sw_visits s);
    Ok {| sw_cells := cells'; sw_count := (sw_count s + 1)%Z;
          sw_visits := vs' |}
  else Ok s.

(** Body of the final loop over patches. *)
Definition sweep_patch (c : edge_cache) (s : sweep_state) (i : nat)
  : result sweep_state :=
  s1 ← sweep_side c i 0%Z s;
  sweep_side c i 1%Z s1.

Definition single_component_run : result sweep_state :=
  m ← maxCoeff P;
  let num_patches := m + 1 in
  c ← build_edge_cache num_patches;
  foldM (sweep_patch c) (seq 0 num_patches)
    {| sw_cells := replicate num_patches (INVALID, INVALID);
       sw_count := 0%Z; sw_visits := [] |}.

Definition extract_cells_single_component : result (cell_matrix * Z) :=
  s ← single_component_run;
  Ok (sw_cells s, sw_count s).

End SingleComponent.

(** ** [extract_cells], patch level *)

(** [a < b] on the exact rationals the library is instantiated with. *)
Definition Qltb (a b : Q) : bool :=
  match (a ?= b)%Q with Lt => true | _ => false end.

(** [std::min(a, b)] and [std::max(a, b)] *)
Definition Qmin_std (a b : Q) : Q := if Qltb b a then b else a.
Definition Qmax_std (a b : Q) : Q := if Qltb a b then b else a.

Definition point_min (a b : point) : point :=
  (Qmin_std a.1.1 b.1.1, Qmin_std a.1.2 b.1.2, Qmin_std a.2 b.2).
Definition point_max (a b : point) : point :=
  (Qmax_std a.1.1 b.1.1, Qmax_std a.1.2 b.1.2, Qmax_std a.2 b.2).

(** [v[c]] and [v[c] = x] for an index held in a [size_t] variable. *)
Definition at_cell {A} (l : list A) (c : Z) : result A :=
  at_index l (Z.to_nat c).
Definition set_at_cell {A} (l : list A) (c : Z) (x : A) : result (list A) :=
  _ ← at_cell l c; Ok (<[Z.to_nat c := x]> l).
Definition push_back_at_cell {A} (v : list (list A)) (c : Z) (x : A)
  : result (list (list A)) :=
  push_back_at v (Z.to_nat c) x.

Record nesting : Type := {
  nested_cells : list (list Z);
  ambient_cells : list (list Z);
  ambient_comps : list (list nat)
}.

Section ExtractCells.
Context {coll : Collaborators}.
Variable V : list point.
Variable F : list face.
Variable P : list nat.
Variable E : list (nat * nat).
Variable uE : list (nat * nat).
Variable uE2E : list (list nat).
Variable EMAP : list nat.

(** [components[C[i]].push_back(i)] over all faces *)
Definition group_faces (C : list nat) (num_components : nat)
  : result (list (list nat)) :=
  foldM (fun comps i => c ← at_index C i; push_back_at comps c i)
    (seq 0 (num_faces F)) (replicate num_components []).

(** Outer facet and outer cell of each component. *)
Definition find_outer (raw_cells : cell_matrix) (Is : list (list nat))
  : result (list (nat * Z)) :=
  mapM (fun I =>
          let '(f, flipped) := outer_facet V F I in
          p ← at_index P f;
          c ← coeff raw_cells p (if flipped then 1 else 0)%Z;
          Ok (f, c)) Is.

Definition get_triangle_center (fid : nat) : result point :=
  '(f0, f1, f2) ← at_index F fid;
  a ← at_index V f0;
  b ← at_index V f1;
  c ← at_index V f2;
  Ok (((a.1.1 + b.1.1 + c.1.1) / 3)%Q,
      ((a.1.2 + b.1.2 + c.1.2) / 3)%Q,
      ((a.2 + b.2 + c.2) / 3)%Q).

Definition colwise_maxCoeff : result point :=
  match V with
  | [] => Err OutOfRange
  | v :: vs => Ok (foldl point_max v vs)
  end.
Definition colwise_minCoeff : result point :=
  match V with
  | [] => Err OutOfRange
  | v :: vs => Ok (foldl point_min v vs)
  end.

(** One face added to the box of its component. *)
Definition grow_box (C : list nat) (b : list point * list point) (i : nat)
  : result (list point * list point) :=
  comp_id ← at_index C i;
  '(f0, f1, f2) ← at_index F i;
  foldM (fun b v =>
           p ← at_index V v;
           lo ← at_index b.1 comp_id;
           hi ← at_index b.2 comp_id;
           Ok (<[comp_id := point_min lo p]> b.1,
               <[comp_id := point_max hi p]> b.2))
        [f0; f1; f2] b.

Definition bounding_boxes (C : list nat) (num_components : nat)
  : result (list point * list point) :=
  hi ← colwise_maxCoeff;
  lo ← colwise_minCoeff;
  foldM (grow_box C) (seq 0 (num_faces F))
    (replicate num_components hi, replicate num_components lo).

Definition bbox_intersects (bbox_min bbox_max : list point) (ci cj : nat)
  : result bool :=
  max_i ← at_index bbox_max ci;
  min_i ← at_index bbox_min ci;
  max_j ← at_index bbox_max cj;
  min_j ← at_index bbox_min cj;
  Ok (negb (Qltb max_i.1.1 min_j.1.1 ||
            Qltb max_i.1.2 min_j.1.2 ||
            Qltb max_i.2 min_j.2 ||
            Qltb max_j.1.1 min_i.1.1 ||
            Qltb max_j.1.2 min_i.1.2 ||
            Qltb max_j.2 min_i.2)).

Definition candidate_comps_of (bbox_min bbox_max : list point)
    (num_components i : nat) : result (list nat) :=
  foldM (fun (cands : list nat) (j : nat) =>
           if i =? j then Ok cands
           else b ← bbox_intersects bbox_min bbox_max i j;
                Ok (if (b : bool) then cands ++ [j] else cands))
        (seq 0 num_components) [].

(** The candidates of component [i] and the query points handed to
    [closest_facet] for them; [None] when the loop body is left before
    the call. *)
Definition closest_facet_call (bbox_min bbox_max : list point)
    (outer_facets : list nat) (num_components i : nat)
  : result (option (list nat * list point)) :=
  candidate_comps ← candidate_comps_of bbox_min bbox_max num_components i;
  if length candidate_comps =? 0 then Ok None
  else
    queries ← mapM (fun index => f ← at_index outer_facets index;
                                 get_triangle_center f) candidate_comps;
    Ok (Some (candidate_comps, queries)).

Definition record_candidate (raw_cells : cell_matrix)
    (outer_cells : list Z) (candidate_comps : list nat)
    (closest_facets : list nat) (closest_facet_orientations : list bool)
    (i : nat) (st : nesting) (j : nat) : result nesting :=
  index ← at_index candidate_comps j;
  cf ← at_index closest_facets j;
  closest_patch ← at_index P cf;
  o ← at_index closest_facet_orientations j;
  let closest_patch_side := (if (o : bool) then 0 else 1)%Z in
  ac ← coeff raw_cells closest_patch closest_patch_side;
  let ambient_cell := to_size_t ac in
  oc_i ← at_index outer_cells i;
  if negb (ambient_cell =? to_size_t oc_i)%Z then
    oc_index ← at_index outer_cells index;
    nc ← push_back_at_cell (nested_cells st) ambient_cell
           (to_size_t oc_index);
    acl ← push_back_at_cell (ambient_cells st) (to_size_t oc_index)
            ambient_cell;
    acm ← push_back_at (ambient_comps st) index i;
    Ok {| nested_cells := nc; ambient_cells := acl; ambient_comps := acm |}
  else Ok st.

(** Body of the loop over components (the O(m²) section). *)
Definition nest_component (raw_cells : cell_matrix)
    (Is : list (list nat)) (outer_facets : list nat) (outer_cells : list Z)
    (bbox_min bbox_max : list point) (num_components : nat)
    (st : nesting) (i : nat) : result nesting :=
  call ← closest_facet_call bbox_min bbox_max outer_facets
           num_components i;
  match call with
  | None => Ok st
  | Some (candidate_comps, queries) =>
      I ← at_index Is i;
      let '(closest_facets, closest_facet_orientations) :=
        closest_facet V F I queries uE2E EMAP in
      foldM (record_candidate raw_cells outer_cells candidate_comps
               closest_facets closest_facet_orientations i)
            (seq 0 (length candidate_comps)) st
  end.

Definition nested_relationship (raw_cells : cell_matrix)
    (num_raw_cells : Z) (C : list nat) (Is : list (list nat))
    (outer_facets : list nat) (outer_cells : list Z)
    (num_components : nat) : result nesting :=
  let st0 :=
    {| nested_cells := replicate (Z.to_nat num_raw_cells) [];
       ambient_cells := replicate (Z.to_nat num_raw_cells) [];
       ambient_comps := replicate num_components [] |} in
  if 1 <? num_components then
    '(bbox_min, bbox_max) ← bounding_boxes C num_components;
    foldM (nest_component raw_cells Is outer_facets outer_cells
             bbox_min bbox_max num_components)
          (seq 0 num_components) st0
  else Ok st0.

(** The search for the direct parent: the first recorded ambient
    component that has one ambient relationship less. *)
Fixpoint search_parent (acomps : list (list nat))
    (num_ambient_comps : nat) (ambient_comps_i : list nat)
    (ambient_cells_i : list Z) (js : list nat) : result (Z * Z) :=
  match js with
  | [] => Ok (SIZE_MAX, SIZE_MAX)
  | j :: js' =>
      a ← at_index ambient_comps_i j;
      l ← at_index acomps a;
      if length l =? num_ambient_comps - 1 then
        cell ← at_index ambient_cells_i j;
        Ok (Z.of_nat a, cell)
      else
        search_parent acomps num_ambient_comps ambient_comps_i
          ambient_cells_i js'
  end.

(** Body of the loop that fills [embedded_cells]. *)
Definition embed_component (outer_cells : list Z) (n : nesting)
    (num_raw_cells : Z) (embedded_cells : list Z) (i : nat)
  : result (list Z) :=
  oc ← at_index outer_cells i;
  let outer_cell := to_size_t oc in
  ambient_comps_i ← at_index (ambient_comps n) i;
  ambient_cells_i ← at_cell (ambient_cells n) outer_cell;
  let num_ambient_comps := length ambient_comps_i in
  assert (num_ambient_comps =? length ambient_cells_i)
         "num_ambient_comps == ambient_cells_i.size()";;
  if 0 <? num_ambient_comps then
    '(embedded_comp, embedded_cell) ←
      search_parent (ambient_comps n) num_ambient_comps ambient_comps_i
        ambient_cells_i (seq 0 num_ambient_comps);
    assert (negb (embedded_comp =? SIZE_MAX)%Z) "embedded_comp != INVALID";;
    assert (negb (embedded_cell =? SIZE_MAX)%Z) "embedded_cell != INVALID";;
    set_at_cell embedded_cells outer_cell embedded_cell
  else
    set_at_cell embedded_cells outer_cell num_raw_cells.

Definition resolve_embedding (outer_cells : list Z) (n : nesting)
    (num_raw_cells : Z) (num_components : nat) : result (list Z) :=
  foldM (embed_component outer_cells n num_raw_cells)
    (seq 0 num_components)
    (replicate (Z.to_nat num_raw_cells) SIZE_MAX).

(** [if (embedded_cells[raw_cells(i,s)] != INVALID)
       raw_cells(i,s) = embedded_cells[raw_cells(i,s)];] *)
Definition rewrite_side (embedded_cells : list Z) (i : nat) (side : Z)
    (cells : cell_matrix) : result cell_matrix :=
  x ← coeff cells i side;
  e ← at_cell embedded_cells (to_size_t x);
  if negb (e =? SIZE_MAX)%Z then set_coeff cells i side (to_int e)
  else Ok cells.

Definition rewrite_patch (embedded_cells : list Z) (cells : cell_matrix)
    (i : nat) : result cell_matrix :=
  cells1 ← rewrite_side embedded_cells i 0%Z cells;
  rewrite_side embedded_cells i 1%Z cells1.

Record compaction : Type := {
  cp_cells : cell_matrix;
  cp_count : Z;
  mapped_indices : list Z
}.

(** The final id of a raw id: a fresh one when it is seen first. *)
Definition compact_id (mapped : list Z) (count : Z) (old_cell_id : Z)
  : result (list Z * Z * Z) :=
  m ← at_cell mapped old_cell_id;
  if (m =? SIZE_MAX)%Z then
    mapped' ← set_at_cell mapped old_cell_id count;
    Ok (mapped', (count + 1)%Z, count)
  else Ok (mapped, count, m).

(** Body of the relabeling loop. *)
Definition compact_patch (st : compaction) (i : nat) : result compaction :=
  x0 ← coeff (cp_cells st) i 0%Z;
  x1 ← coeff (cp_cells st) i 1%Z;
  let old_positive_cell_id := to_size_t x0 in
  let old_negative_cell_id := to_size_t x1 in
  '(mapped1, count1, positive_cell_id) ←
    compact_id (mapped_indices st) (cp_count st) old_positive_cell_id;
  '(mapped2, count2, negative_cell_id) ←
    compact_id mapped1 count1 old_negative_cell_id;
  cells1 ← set_coeff (cp_cells st) i 0%Z (to_int positive_cell_id);
  cells2 ← set_coeff cells1 i 1%Z (to_int negative_cell_id);
  Ok {| cp_cells := cells2; cp_count := count2;
        mapped_indices := mapped2 |}.

Definition compact_labels (raw_cells : cell_matrix) (num_raw_cells : Z)
    (num_patches : nat) : result (cell_matrix * Z) :=
  let INFINITE_CELL := num_raw_cells in
  mapped ← set_at_cell (replicate (Z.to_nat (num_raw_cells + 1)) SIZE_MAX)
             INFINITE_CELL 0%Z;
  st ← foldM compact_patch (seq 0 num_patches)
         {| cp_cells := raw_cells; cp_count := 1%Z;
            mapped_indices := mapped |};
  Ok (cp_cells st, cp_count st).

Definition extract_cells : result (cell_matrix * Z) :=
  m ← maxCoeff P;
  let num_patches := m + 1 in
  '(raw_cells, num_raw_cells) ←
    extract_cells_single_component V F P uE uE2E EMAP;
  let '(C, counts) := facet_components E EMAP uE2E in
  let num_components := length counts in
  Is ← group_faces C num_components;
  outer ← find_outer raw_cells Is;
  let outer_facets := outer.*1 in
  let outer_cells := outer.*2 in
  n ← nested_relationship raw_cells num_raw_cells C Is outer_facets
        outer_cells num_components;
  embedded_cells ← resolve_embedding outer_cells n num_raw_cells
                     num_components;
  raw_cells' ← foldM (rewrite_patch embedded_cells) (seq 0 num_patches)
                 raw_cells;
  compact_labels raw_cells' num_raw_cells num_patches.

End ExtractCells.

(** ** [extract_cells], face level *)

Definition extract_cells_faces `{Collaborators} (V : list point)
    (F : list face) : result (cell_matrix * Z) :=
  let '(E, uE, EMAP, uE2E) := unique_edge_map F in
  let P := extract_manifold_patches F EMAP uE2E in
  '(per_patch_cells, num_cells) ← extract_cells V F P E uE uE2E EMAP;
  cells ← mapM (fun i => p ← at_index P i; at_index per_patch_cells p)
            (seq 0 (num_faces F));
  Ok (cells, num_cells).

(** ** Vocabulary of the statements *)

(** The face has [s] followed by [d] in one of its three rotations. *)
Definition has_directed_edge (f : face) (s d : nat) : bool :=
  (f.1.1 =? s) && (f.1.2 =? d) ||
  (f.1.2 =? s) && (f.2 =? d) ||
  (f.2 =? s) && (f.1.1 =? d).

(** The six comparisons of the box test, in the positive. *)
Definition boxes_overlap (min_i max_i min_j max_j : point) : Prop :=
  (min_j.1.1 <= max_i.1.1)%Q /\ (min_j.1.2 <= max_i.1.2)%Q /\
  (min_j.2 <= max_i.2)%Q /\
  (min_i.1.1 <= max_j.1.1)%Q /\ (min_i.1.2 <= max_j.1.2)%Q /\
  (min_i.2 <= max_j.2)%Q.

(** A recorded ambient component [a] of a component with [k] ambient
    relationships qualifies as its direct parent: it has [k-1] of them. *)
Definition parent_candidate (acomps : list (list nat)) (k a : nat) : bool :=
  match acomps !! a with
  | Some l => length l =? k - 1
  | None => false
  end.

(** Patch ids small enough for twice their number to stay below the
    [int] sentinel. *)
Definition patch_ids_small (P : list nat) : Prop :=
  Forall (fun p => (2 * (Z.of_nat p + 1) < INT_MAX)%Z) P.

(** Modelled on the words of the specification of the compactor, to be
    compared with [compact_labels]: the raw ids in the order in which a walk
    over the patches meets them for the first time, after the ids already
    seen. *)
Fixpoint spec_first_seen (seen ids : list nat) : list nat :=
  match ids with
  | [] => seen
  | x :: ids' =>
      if bool_decide (x ∈ seen) then spec_first_seen seen ids'
      else spec_first_seen (seen ++ [x]) ids'
  end.

(** The position of [x] in [l]; [length l] if it is absent. *)
Fixpoint rank_of (x : nat) (l : list nat) : nat :=
  match l with
  | [] => 0
  | y :: l' => if y =? x then 0 else S (rank_of x l')
  end.

(** A raw id as the index it is used as. *)
Definition raw_id (x : Z) : nat := Z.to_nat (to_size_t x).

(** The walk over the patches: side 0, then side 1, patch after patch. *)
Definition raw_ids (raw : cell_matrix) : list nat :=
  flat_map (fun row : Z * Z => [raw_id row.1; raw_id row.2]) raw.

(** The first-seen order of the walk over the first [i] patches, the
    sentinel of the infinite cell ahead of everything. *)
Definition spec_order (raw : cell_matrix) (sentinel i : nat) : list nat :=
  spec_first_seen [sentinel] (raw_ids (take i raw)).

(** *** Invariants of the loops *)

(** A peel with label [x] only turns [INVALID] entries into [x]. *)
Definition peel_grows (x : Z) (cells cells' : cell_matrix) : Prop :=
  length cells' = length cells /\
  forall p side,
    coeff cells' p side = coeff cells p side \/
    (coeff cells p side = Ok INVALID /\ coeff cells' p side = Ok x).

(** What the log of visits records of each step. *)
Definition visit_recorded (F : list face) (P EMAP : list nat)
    (c : edge_cache) (v : peel_visit) : Prop :=
  (pv_side v = 0 \/ pv_side v = 1)%Z /\
  peel_neighbor F P EMAP c (pv_side v) (pv_edge v)
    = Ok (pv_cons v, pv_next_cons v, pv_next_patch v, pv_next_side v) /\
  (pv_seen v = INVALID \/ to_size_t (pv_seen v) = pv_cell v).

Definition binary_side (e : nat * Z) : Prop := (e.2 = 0 \/ e.2 = 1)%Z.

Definition peel_state_ok (F : list face) (P EMAP : list nat)
    (c : edge_cache) (st : peel_state) : Prop :=
  Forall binary_side (queue st) /\
  Forall (visit_recorded F P EMAP c) (visits st).

(** The state of the sweep when the patches below [i] are done and
    [k] sides of patch [i] have been looked at. *)
Record sweep_inv (F : list face) (P EMAP : list nat) (c : edge_cache)
    (num_patches i k : nat) (s : sweep_state) : Prop := {
  si_length : length (sw_cells s) = num_patches;
  si_count : (0 <= sw_count s <= 2 * Z.of_nat i + Z.of_nat k)%Z;
  si_range : forall p side x,
    coeff (sw_cells s) p side = Ok x ->
    x = INVALID \/ (0 <= x < sw_count s)%Z;
  si_carried : forall x, (0 <= x < sw_count s)%Z ->
    exists p side, coeff (sw_cells s) p side = Ok x;
  si_done : forall p side x, p < i ->
    coeff (sw_cells s) p side = Ok x -> x <> INVALID;
  si_visits : Forall (visit_recorded F P EMAP c) (sw_visits s)
}.

(** The number of entries of the matrix still at [INVALID]. *)
Definition unlabeled (cells : cell_matrix) : nat :=
  sum_list (map (fun row : Z * Z =>
                   (if (row.1 =? INVALID)%Z then 1 else 0) +
                   (if (row.2 =? INVALID)%Z then 1 else 0)) cells).

(** What bounds the remaining iterations of the peel. *)
Definition peel_measure (st : peel_state) : nat :=
  length (queue st) + unlabeled (labels st).

(** [r] is not the failure of the embedding's own fuel. *)
Definition fuelled {A} (r : result A) : Prop := r <> Err OutOfFuel.

(** [mapped_indices] and [count] hold the numbering of [order]; [L] is the
    length of [mapped_indices]. *)
Record compact_agrees (L : nat) (order : list nat) (count : Z)
    (mapped : list Z) : Prop := {
  ca_count : count = Z.of_nat (length order);
  ca_length : length mapped = L;
  ca_range : forall k, k ∈ order -> k < L;
  ca_nodup : NoDup order;
  ca_seen : forall k, k ∈ order ->
    mapped !! k = Some (Z.of_nat (rank_of k order));
  ca_unseen : forall k, k ∉ order -> k < L -> mapped !! k = Some SIZE_MAX
}.

(** The relabeling loop after [i] patches of [raw]. *)
Record compact_inv (L : nat) (raw : cell_matrix) (sentinel i : nat)
    (st : compaction) : Prop := {
  ci_agrees :
    compact_agrees L (spec_order raw sentinel i) (cp_count st)
      (mapped_indices st);
  ci_length : length (cp_cells st) = length raw;
  ci_done : forall p x0 x1, p < i -> raw !! p = Some (x0, x1) ->
    cp_cells st !! p
      = Some (Z.of_nat (rank_of (raw_id x0) (spec_order raw sentinel i)),
              Z.of_nat (rank_of (raw_id x1) (spec_order raw sentinel i))) /\
    raw_id x0 ∈ spec_order raw sentinel i /\
    raw_id x1 ∈ spec_order raw sentinel i;
  ci_rest : forall p, i <= p -> cp_cells st !! p = raw !! p
}.

(** The states of the queue loop of one peel: [peel_reaches c x st st']
    when the loop, started in [st], is in [st'] after some of its
    iterations. *)
Inductive peel_reaches (F : list face) (P EMAP : list nat) (c : edge_cache)
    (cell_idx : Z) : peel_state -> peel_state -> Prop :=
| peel_reaches_here (st : peel_state) :
    peel_reaches F P EMAP c cell_idx st st
| peel_reaches_pop (st st1 st2 : peel_state) (patch_id : nat) (side : Z)
    (Q' : list (nat * Z)) (adj_edges : list nat) :
    queue st = (patch_id, side) :: Q' ->
    patch_edge_adj c !! patch_id = Some adj_edges ->
    foldM (peel_edge F P EMAP c cell_idx patch_id side) adj_edges
      {| queue := Q'; labels := labels st; visits := visits st |} = Ok st1 ->
    peel_reaches F P EMAP c cell_idx st1 st2 ->
    peel_reaches F P EMAP c cell_idx st st2.

(** *** Vocabulary of the further properties *)

(** The three vertices of the face are pairwise different. *)
Definition distinct_vertices (f : face) : Prop :=
  f.1.1 <> f.1.2 /\ f.1.2 <> f.2 /\ f.2 <> f.1.1.

(** What the loop over the unique edges has stored after [k] edges. *)
Record cache_inv `{Collaborators} (V : list point) (F : list face)
    (P : list nat) (uE : list (nat * nat)) (uE2E : list (list nat))
    (n k : nat) (c : edge_cache) : Prop := {
  ch_orders : length (orders c) = length uE;
  ch_orientations : length (orientations c) = length uE;
  ch_patches : length (patch_edge_adj c) = n;
  ch_rest : forall i, k <= i -> i < length uE ->
    orders c !! i = Some [] /\ orientations c !! i = Some [];
  ch_manifold : forall i adj_faces, i < k ->
    uE2E !! i = Some adj_faces -> length adj_faces <= 2 ->
    orders c !! i = Some [] /\ orientations c !! i = Some [];
  ch_sorted : forall i s d adj_faces, i < k ->
    uE !! i = Some (s, d) -> uE2E !! i = Some adj_faces ->
    2 < length adj_faces ->
    exists signed_adj_faces order' orientation,
      signed_adj_faces_of F s d adj_faces = Ok signed_adj_faces /\
      orders c !! i = Some order' /\
      orientations c !! i = Some orientation /\
      Forall2 (fun index ei => adj_faces !! index = Some ei)
        (order_facets_around_edge V F s d signed_adj_faces) order' /\
      Forall2 (fun index b =>
                 exists t, signed_adj_faces !! index = Some t /\
                           b = (0 <? t)%Z)
        (order_facets_around_edge V F s d signed_adj_faces) orientation;
  ch_adj : forall p l, patch_edge_adj c !! p = Some l ->
    forall ei, ei ∈ l <->
      exists i adj_faces, i < k /\ i < length uE /\
        uE2E !! i = Some adj_faces /\ 2 < length adj_faces /\
        ei ∈ adj_faces /\ num_faces F <> 0 /\
        P !! (ei mod num_faces F) = Some p
}.

(** [a] is below [b] in each of the three coordinates. *)
Definition point_le (a b : point) : Prop :=
  (a.1.1 <= b.1.1)%Q /\ (a.1.2 <= b.1.2)%Q /\ (a.2 <= b.2)%Q.

(** The point lies in the box of the component. *)
Definition in_box (bbox_min bbox_max : list point) (comp_id : nat)
    (p : point) : Prop :=
  exists lo hi, bbox_min !! comp_id = Some lo /\
                bbox_max !! comp_id = Some hi /\
                point_le lo p /\ point_le p hi.

(** What the loop over the components has recorded when the components
    below [k] have asked for their candidates. *)
Record nesting_inv (bbox_min bbox_max : list point) (raw_cells : cell_matrix)
    (outer_cells : list Z) (num_raw_cells : Z) (num_components k : nat)
    (st : nesting) : Prop := {
  ni_nested : length (nested_cells st) = Z.to_nat num_raw_cells;
  ni_cells : length (ambient_cells st) = Z.to_nat num_raw_cells;
  ni_comps : length (ambient_comps st) = num_components;
  ni_nodup : forall index l, ambient_comps st !! index = Some l -> NoDup l;
  ni_member : forall index l a,
    ambient_comps st !! index = Some l -> a ∈ l ->
    a < k /\ a < num_components /\ a <> index /\
    bbox_intersects bbox_min bbox_max a index = Ok true;
  ni_cells_raw : forall x l c,
    ambient_cells st !! x = Some l -> c ∈ l ->
    exists p side v, coeff raw_cells p side = Ok v /\ c = to_size_t v;
  ni_paired : NoDup (raw_id <$> outer_cells) ->
    forall index oc l l', outer_cells !! index = Some oc ->
      ambient_comps st !! index = Some l ->
      ambient_cells st !! raw_id oc = Some l' ->
      length l = length l'
}.

(** *** The claims that do not hold as they are worded *)

(** The signed index is [fid+1] exactly for a face that has the edge in
    the direction [(s,d)], and [-(fid+1)] otherwise. *)
Definition tag_sign_as_stated (F : list face) (s d ei : nat) : Prop :=
  forall f tag,
    F !! (ei mod num_faces F) = Some f ->
    signed_adj_face F s d ei = Ok tag ->
    (tag = (Z.of_nat (ei mod num_faces F) + 1)%Z
       <-> has_directed_edge f s d = true) /\
    (tag = (- (Z.of_nat (ei mod num_faces F) + 1))%Z
       <-> has_directed_edge f s d = false).

(** A face that has neither direction of a unique edge it is listed
    under makes the call fail, whatever the number of faces on that edge. *)
Definition malformed_face_aborts_as_stated `{Collaborators}
    (V : list point) (F : list face) (P : list nat) (uE : list (nat * nat))
    (uE2E : list (list nat)) (EMAP : list nat) : Prop :=
  forall i s d adj_faces k ei f,
    uE !! i = Some (s, d) ->
    uE2E !! i = Some adj_faces ->
    adj_faces !! k = Some ei ->
    F !! (ei mod num_faces F) = Some f ->
    has_directed_edge f s d = false ->
    has_directed_edge f d s = false ->
    forall r, extract_cells_single_component V F P uE uE2E EMAP <> Ok r.

(** The side reached is the current side for equal flags and the other
    side for different flags. *)
Definition visit_side_as_stated (v : peel_visit) : Prop :=
  (pv_next_cons v = pv_cons v -> pv_next_side v = pv_side v) /\
  (pv_next_cons v <> pv_cons v -> pv_next_side v = (1 - pv_side v)%Z).

Definition peel_sides_as_stated `{Collaborators}
    (V : list point) (F : list face) (P : list nat) (uE : list (nat * nat))
    (uE2E : list (list nat)) (EMAP : list nat) : Prop :=
  forall s, single_component_run V F P uE uE2E EMAP = Ok s ->
  forall v, v ∈ sw_visits s -> visit_side_as_stated v.

(** A component whose recorded ambient components do not hold exactly
    one candidate parent makes the call fail. *)
Definition ambiguous_parent_aborts_as_stated `{Collaborators}
    (V : list point) (F : list face) (P : list nat) (E uE : list (nat * nat))
    (uE2E : list (list nat)) (EMAP : list nat) : Prop :=
  forall raw_cells num_raw_cells Is outer n i ambient_comps_i,
    extract_cells_single_component V F P uE uE2E EMAP
      = Ok (raw_cells, num_raw_cells) ->
    group_faces F (facet_components E EMAP uE2E).1
      (length (facet_components E EMAP uE2E).2) = Ok Is ->
    find_outer V F P raw_cells Is = Ok outer ->
    nested_relationship V F P uE2E EMAP raw_cells num_raw_cells
      (facet_components E EMAP uE2E).1 Is outer.*1 outer.*2
      (length (facet_components E EMAP uE2E).2) = Ok n ->
    ambient_comps n !! i = Some ambient_comps_i ->
    0 < length ambient_comps_i ->
    length (filter (fun a => parent_candidate (ambient_comps n)
                               (length ambient_comps_i) a = true)
                   ambient_comps_i) <> 1 ->
    forall r, extract_cells V F P E uE uE2E EMAP <> Ok r.

(** ** Sample arrangements

    Small inputs on which the model is run.  The topology tables are
    computed from the face list the way [unique_edge_map] lays them out
    (half-edge [f + c*m] is the edge opposite corner [c] of face [f]); the
    answers of the geometric collaborators are tabulated. *)

Module Fixtures.

Definition all_edges (F : list face) : list (nat * nat) :=
  map (fun f : face => (f.1.2, f.2)) F ++
  map (fun f : face => (f.2, f.1.1)) F ++
  map (fun f : face => (f.1.1, f.1.2)) F.

Definition undirected (e : nat * nat) : nat * nat :=
  (Nat.min e.1 e.2, Nat.max e.1 e.2).

Definition edge_eqb (a b : nat * nat) : bool :=
  (a.1 =? b.1) && (a.2 =? b.2).

Fixpoint unique_rows (seen l : list (nat * nat)) : list (nat * nat) :=
  match l with
  | [] => seen
  | e :: l' =>
      if existsb (edge_eqb e) seen then unique_rows seen l'
      else unique_rows (seen ++ [e]) l'
  end.

Fixpoint row_index (e : nat * nat) (l : list (nat * nat)) : nat :=
  match l with
  | [] => 0
  | x :: l' => if edge_eqb e x then 0 else S (row_index e l')
  end.

Definition edge_map (F : list face)
  : list (nat * nat) * list (nat * nat) * list nat * list (list nat) :=
  let E := all_edges F in
  let sE := map undirected E in
  let uE := unique_rows [] sE in
  let EMAP := map (fun e => row_index e uE) sE in
  let uE2E :=
    map (fun u => filter (fun k => u =? nth k EMAP 0) (seq 0 (length E)))
        (seq 0 (length uE)) in
  (E, uE, EMAP, uE2E).

(** A table keyed by the first face of a component. *)
Fixpoint by_first_face {A} (table : list (nat * A)) (d : A) (I : list nat)
  : A :=
  match table with
  | [] => d
  | (k, a) :: table' =>
      if nth 0 I (S k) =? k then a else by_first_face table' d I
  end.

Definition tabulated (C counts : list nat) (P : list nat)
    (outer : list (nat * (nat * bool)))
    (closest : list (nat * (list nat * list bool))) : Collaborators :=
  {| order_facets_around_edge := fun _ _ _ _ tags => seq 0 (length tags);
     facet_components := fun _ _ _ => (C, counts);
     outer_facet := fun _ _ I => by_first_face outer (0, false) I;
     closest_facet := fun _ _ I _ _ _ => by_first_face closest ([], []) I;
     unique_edge_map := edge_map;
     extract_manifold_patches := fun _ _ _ => P |}.

(** Three triangles around the edge (0,1); the second one is turned
    over.  Three patches, one component. *)
Module Fan.
Definition V : list point :=
  [(0, 0, 0); (0, 0, 1); (1, 0, 0); (0, 1, 0); (-1, -1, 0)]%Q.
Definition F : list face := [(0, 1, 2); (1, 0, 3); (0, 1, 4)].
Definition P : list nat := [0; 1; 2].
Definition E := (edge_map F).1.1.1.
Definition uE := (edge_map F).1.1.2.
Definition EMAP := (edge_map F).1.2.
Definition uE2E := (edge_map F).2.
Definition coll : Collaborators :=
  tabulated [0; 0; 0] [3] P [(0, (0, false))] [].
End Fan.

Definition tetrahedron (a b c d : nat) : list face :=
  [(a, c, b); (a, b, d); (b, c, d); (c, a, d)].

(** A tetrahedron whose edge table is damaged: the first unique edge
    names two vertices that no face has. *)
Module Damaged.
Definition V : list point :=
  [(0, 0, 0); (1, 0, 0); (0, 1, 0); (0, 0, 1)]%Q.
Definition F : list face := tetrahedron 0 1 2 3.
Definition P : list nat := [0; 0; 0; 0].
Definition E := (edge_map F).1.1.1.
Definition uE := <[0 := (7, 8)]> (edge_map F).1.1.2.
Definition EMAP := (edge_map F).1.2.
Definition uE2E := (edge_map F).2.
Definition coll : Collaborators :=
  tabulated P [4] P [(0, (0, false))] [].
End Damaged.

(** Four closed components, one patch each.  Component 0 is the
    tetrahedron x+y+z <= 10 of the positive octant.  Components 1 and 2
    are two long cones that start inside it, leave it and cross each
    other outside; component 3 is a small tetrahedron inside the crossing.
    The tabulated answers are those of this geometry: the outer facets of
    1 and 2 have their barycenters inside 0 only, that of 3 lies inside 1
    and inside 2 and outside 0. *)
Module Nested.
Definition V : list point :=
  [(0, 0, 0); (10, 0, 0); (0, 10, 0); (0, 0, 10);
   (1, 1, 1); (1, 3, 1); (1, 1, 3); (20, 5, 2);
   (1, 4, 1); (1, 6, 1); (1, 4, 3); (20, 2, 2);
   (21 # 2, 16 # 5, 17 # 10); (107 # 10, 16 # 5, 17 # 10);
   (21 # 2, 17 # 5, 17 # 10); (21 # 2, 16 # 5, 19 # 10)]%Q.
Definition F : list face :=
  tetrahedron 0 1 2 3 ++ tetrahedron 4 5 6 7 ++
  tetrahedron 8 9 10 11 ++ tetrahedron 12 13 14 15.
Definition P : list nat :=
  [0; 0; 0; 0; 1; 1; 1; 1; 2; 2; 2; 2; 3; 3; 3; 3].
Definition E := (edge_map F).1.1.1.
Definition uE := (edge_map F).1.1.2.
Definition EMAP := (edge_map F).1.2.
Definition uE2E := (edge_map F).2.
Definition coll : Collaborators :=
  tabulated P [4; 4; 4; 4] P
    [(0, (0, false)); (4, (4, false)); (8, (8, false));
     (12, (12, false))]
    [(0, ([0; 0], [false; false]));
     (4, ([4; 4; 4], [true; true; false]));
     (8, ([8; 8; 8], [true; true; false]));
     (12, ([12; 12], [true; true]))].
Definition bbox_min : list point :=
  [(0, 0, 0); (1, 1, 1); (1, 2, 1); (21 # 2, 16 # 5, 17 # 10)]%Q.
Definition bbox_max : list point :=
  [(10, 10, 10); (20, 5, 3); (20, 6, 3); (107 # 10, 17 # 5, 19 # 10)]%Q.
End Nested.

(** The fan with a cyclic order that names the second triangle twice, as
    no ordering of three faces does. *)
Module Tangled.
Definition coll : Collaborators :=
  {| order_facets_around_edge := fun _ _ _ _ _ => [0; 1; 2; 1];
     facet_components := fun _ _ _ => ([0; 0; 0], [3]);
     outer_facet := fun _ _ _ => (0, false);
     closest_facet := fun _ _ _ _ _ _ => ([], []);
     unique_edge_map := edge_map;
     extract_manifold_patches := fun _ _ _ => Fan.P |}.
End Tangled.

(** The run of the patch-level [extract_cells] on the nested arrangement,
    phase by phase. *)
Module NestedRun.
Definition raw_cells : cell_matrix := [(0, 1); (2, 3); (4, 5); (6, 7)]%Z.
Definition Is : list (list nat) :=
  [[0; 1; 2; 3]; [4; 5; 6; 7]; [8; 9; 10; 11]; [12; 13; 14; 15]].
Definition outer : list (nat * Z) :=
  [(0, 0%Z); (4, 2%Z); (8, 4%Z); (12, 6%Z)].
Definition recorded : nesting :=
  {| nested_cells := [[]; [2; 4]; []; [6]; []; [6]; []; []]%Z;
     ambient_cells := [[]; []; [1]; []; [1]; []; [3; 5]; []]%Z;
     ambient_comps := [[]; [0]; [0]; [1; 2]] |}.
Definition embedded_cells : list Z :=
  [8; SIZE_MAX; 1; SIZE_MAX; 1; SIZE_MAX; 3; SIZE_MAX]%Z.
Definition rewritten : cell_matrix := [(8, 1); (1, 3); (1, 5); (3, 7)]%Z.
Definition cells : cell_matrix := [(0, 1); (1, 2); (1, 3); (2, 4)]%Z.
End NestedRun.

End Fixtures.

Import Fixtures.

(** * Properties *)

(** ** The error monad *)

Lemma bind_Ok {A B} (m : result A) (f : A -> result B) (b : B) :
  m ≫= f = Ok b <-> exists a, m = Ok a /\ f a = Ok b.
Proof.
  destruct m as [a|e]; simpl; split.
  - intros H; exists a; auto.
  - intros (a' & Ha & Hf); congruence.
  - discriminate.
  - intros (a' & Ha & _); discriminate.
Qed.

Lemma at_index_Ok {A} (l : list A) (i : nat) (a : A) :
  at_index l i = Ok a <-> l !! i = Some a.
Proof.
  unfold at_index; destruct (l !! i); split; intros H; congruence.
Qed.

Lemma assert_Ok (b : bool) (msg : string) (u : unit) :
  assert b msg = Ok u <-> b = true.
Proof. destruct b, u; simpl; split; congruence. Qed.

(** Splits a hypothesis [m ≫= f = Ok b] into its two steps, repeatedly. *)
Tactic Notation "bind_inv" hyp(H) "as" ident(a) ident(Ha) :=
  apply bind_Ok in H; destruct H as (a & Ha & H).
Tactic Notation "bind_inv" hyp(H) :=
  let a := fresh "x" in
  let Ha := fresh "Hx" in
  apply bind_Ok in H; destruct H as (a & Ha & H).

Ltac ok_inv :=
  repeat match goal with
  | H : Ok _ = Ok _ |- _ => inversion H; subst; clear H
  | H : Err _ = Ok _ |- _ => discriminate H
  | H : at_index _ _ = Ok _ |- _ => apply at_index_Ok in H
  | H : assert _ _ = Ok _ |- _ => apply assert_Ok in H
  end.

(** Invariant rule for a loop over a list. *)
Lemma foldM_invariant {St A} (I : St -> Prop) (f : St -> A -> result St)
    (l : list A) (s0 s : St) :
  (forall s1 a s2, a ∈ l -> I s1 -> f s1 a = Ok s2 -> I s2) ->
  I s0 -> foldM f l s0 = Ok s -> I s.
Proof.
  revert s0; induction l as [|a l IH]; intros s0 Hstep H0 Hf; simpl in Hf.
  - congruence.
  - bind_inv Hf. eapply IH; [| |exact Hf].
    + intros s1 b s2 Hb; apply Hstep; right; exact Hb.
    + eapply Hstep; [left| |]; eauto.
Qed.

(** Invariant rule for a counted loop [for (i = a; i < a + n; i++)]. *)
Lemma foldM_seq_invariant {St} (I : nat -> St -> Prop)
    (f : St -> nat -> result St) (a n : nat) (s0 s : St) :
  (forall i s1 s2, a <= i < a + n -> I i s1 -> f s1 i = Ok s2 -> I (S i) s2) ->
  I a s0 -> foldM f (seq a n) s0 = Ok s -> I (a + n) s.
Proof.
  revert a s0; induction n as [|n IH]; intros a s0 Hstep H0 Hf; simpl in Hf.
  - rewrite Nat.add_0_r; congruence.
  - bind_inv Hf. replace (a + S n) with (S a + n) by lia.
    eapply IH; [| |exact Hf].
    + intros i s1 s2 Hi; apply Hstep; lia.
    + eapply Hstep; [| |eauto]; [lia|auto].
Qed.

(** A loop that returns has run each of its iterations to the end. *)
Lemma foldM_Ok_each {St A} (f : St -> A -> result St) (l : list A) (s0 s : St)
    (a : A) :
  foldM f l s0 = Ok s -> a ∈ l -> exists s1 s2, f s1 a = Ok s2.
Proof.
  revert s0; induction l as [|b l IH]; intros s0 Hf Ha; simpl in Hf.
  - inversion Ha.
  - bind_inv Hf. apply elem_of_cons in Ha as [->|Ha]; eauto.
Qed.

Lemma mapM_Ok_Forall2 {A B} (f : A -> result B) (l : list A) (k : list B) :
  mapM f l = Ok k <-> Forall2 (fun a b => f a = Ok b) l k.
Proof.
  revert k; induction l as [|a l IH]; intros k; simpl.
  - split; intros H; [inversion H; constructor|inversion H; reflexivity].
  - split.
    + intros H. bind_inv H. bind_inv H. inversion H; subst.
      constructor; [assumption|]. apply IH; assumption.
    + intros H. inversion H as [|? b ? k' Hab Hlk]; subst.
      apply IH in Hlk. rewrite Hab; simpl. rewrite Hlk; reflexivity.
Qed.

Lemma mapM_Ok_lookup {A B} (f : A -> result B) (l : list A) (k : list B)
    (i : nat) (a : A) :
  mapM f l = Ok k -> l !! i = Some a -> exists b, k !! i = Some b /\ f a = Ok b.
Proof.
  intros H Ha. apply mapM_Ok_Forall2 in H.
  destruct (Forall2_lookup_l _ _ _ _ _ H Ha) as (b & Hb & Hab); eauto.
Qed.

Lemma mapM_Ok_length {A B} (f : A -> result B) (l : list A) (k : list B) :
  mapM f l = Ok k -> length k = length l.
Proof.
  intros H. apply mapM_Ok_Forall2 in H. symmetry; eapply Forall2_length; eauto.
Qed.

(** ** Machine integers *)

Lemma to_int_small (z : Z) : (- 2 ^ 31 <= z < 2 ^ 31)%Z -> to_int z = z.
Proof. intros H. unfold to_int. rewrite Z.mod_small; lia. Qed.

Lemma to_size_t_small (z : Z) : (0 <= z < 2 ^ 64)%Z -> to_size_t z = z.
Proof. intros H. unfold to_size_t. apply Z.mod_small; lia. Qed.

Lemma to_size_t_range (z : Z) : (0 <= to_size_t z < 2 ^ 64)%Z.
Proof. unfold to_size_t. apply Z.mod_pos_bound; lia. Qed.

Lemma signed_index_true (fid : nat) :
  (Z.of_nat fid + 1 < 2 ^ 31)%Z -> signed_index fid true = (Z.of_nat fid + 1)%Z.
Proof.
  intros H. unfold signed_index.
  rewrite (to_size_t_small 1) by lia.
  rewrite Z.mul_1_r.
  rewrite (to_size_t_small (Z.of_nat fid + 1)) by lia.
  rewrite (to_size_t_small (Z.of_nat fid + 1)) by lia.
  apply to_int_small; lia.
Qed.

Lemma signed_index_false (fid : nat) :
  (Z.of_nat fid + 1 < 2 ^ 31)%Z ->
  signed_index fid false = (- (Z.of_nat fid + 1))%Z.
Proof.
  intros H. unfold signed_index.
  set (n := (Z.of_nat fid + 1)%Z) in *.
  assert (Hn : (0 < n)%Z) by (unfold n; lia).
  rewrite (to_size_t_small n) by lia.
  replace (to_size_t (-1)) with (2 ^ 64 - 1)%Z by reflexivity.
  replace (to_size_t (n * (2 ^ 64 - 1))) with (2 ^ 64 - n)%Z.
  - unfold to_int.
    replace (2 ^ 64 - n + 2 ^ 31)%Z
      with (2 ^ 31 - n + (2 ^ 32) * 2 ^ 32)%Z by lia.
    rewrite Z_mod_plus_full, Z.mod_small; lia.
  - unfold to_size_t.
    apply Z.mod_unique with (q := (n - 1)%Z); lia.
Qed.

(** ** [is_consistent] and the signed indices *)

Lemma is_consistent_cases (F : list face) (fid s d : nat) (f : face) :
  F !! fid = Some f ->
  is_consistent F fid s d =
    if has_directed_edge f s d then Ok false
    else if has_directed_edge f d s then Ok true
    else Err (Thrown "Invalid face!").
Proof.
  intros Hf. unfold is_consistent, at_index. rewrite Hf; simpl.
  destruct f as [[f0 f1] f2]; unfold has_directed_edge; simpl.
  destruct (f0 =? s) eqn:E0s, (f1 =? d) eqn:E1d; simpl; try reflexivity;
  destruct (f1 =? s) eqn:E1s, (f2 =? d) eqn:E2d; simpl; try reflexivity;
  destruct (f2 =? s) eqn:E2s, (f0 =? d) eqn:E0d; simpl; try reflexivity.
Qed.

Lemma edge_index_to_face_index_Ok (F : list face) (ei : nat) (f : face) :
  F !! (ei mod num_faces F) = Some f ->
  edge_index_to_face_index F ei = Ok (ei mod num_faces F).
Proof.
  intros Hf. unfold edge_index_to_face_index.
  destruct (num_faces F =? 0) eqn:E; [|reflexivity].
  apply Nat.eqb_eq in E. apply lookup_lt_Some in Hf.
  unfold num_faces in *. lia.
Qed.

Lemma signed_adj_face_cases (F : list face) (s d ei : nat) (f : face) :
  F !! (ei mod num_faces F) = Some f ->
  (Z.of_nat (ei mod num_faces F) + 1 < 2 ^ 31)%Z ->
  signed_adj_face F s d ei =
    if has_directed_edge f s d
    then Ok (- (Z.of_nat (ei mod num_faces F) + 1))%Z
    else if has_directed_edge f d s
         then Ok (Z.of_nat (ei mod num_faces F) + 1)%Z
         else Err (Thrown "Invalid face!").
Proof.
  intros Hf Hsmall. unfold signed_adj_face.
  rewrite (edge_index_to_face_index_Ok _ _ _ Hf); simpl.
  rewrite (is_consistent_cases _ _ _ _ _ Hf).
  destruct (has_directed_edge f s d); simpl.
  - rewrite signed_index_false by assumption; reflexivity.
  - destruct (has_directed_edge f d s); simpl; [|reflexivity].
    rewrite signed_index_true by assumption; reflexivity.
Qed.

(** Claim C2, as the code has it.  For a half-edge [ei] of the list handed
    to the cyclic ordering, owned by face [fid = ei mod #F] (with [fid+1]
    in the range of [int]): the signed index is [-(fid+1)] when the face has
    the edge in the direction [(s,d)], it is [+(fid+1)] when the face has it
    only in the direction [(d,s)], and [is_consistent] throws when it has
    neither; the list passed to [order_facets_around_edge] holds these
    values position by position. *)
Theorem signed_adj_faces_sign (F : list face) (s d : nat)
    (adj_faces : list nat) (k ei : nat) (f : face) :
  adj_faces !! k = Some ei ->
  F !! (ei mod num_faces F) = Some f ->
  (Z.of_nat (ei mod num_faces F) + 1 < 2 ^ 31)%Z ->
  signed_adj_face F s d ei =
    (if has_directed_edge f s d
     then Ok (- (Z.of_nat (ei mod num_faces F) + 1))%Z
     else if has_directed_edge f d s
          then Ok (Z.of_nat (ei mod num_faces F) + 1)%Z
          else Err (Thrown "Invalid face!")) /\
  (forall tags, signed_adj_faces_of F s d adj_faces = Ok tags ->
     tags !! k =
       Some (if has_directed_edge f s d
             then (- (Z.of_nat (ei mod num_faces F) + 1))%Z
             else (Z.of_nat (ei mod num_faces F) + 1)%Z)).
Proof.
  intros Hk Hf Hsmall.
  pose proof (signed_adj_face_cases F s d ei f Hf Hsmall) as Hcase.
  split; [exact Hcase|].
  intros tags Htags. unfold signed_adj_faces_of in Htags.
  destruct (mapM_Ok_lookup _ _ _ _ _ Htags Hk) as (t & Ht & Hsig).
  rewrite Ht. rewrite Hcase in Hsig.
  destruct (has_directed_edge f s d); [congruence|].
  destruct (has_directed_edge f d s); congruence.
Qed.

Lemma signed_adj_faces_sign_witness :
  signed_adj_face Fan.F 0 1 7 = Ok 2%Z /\
  (forall tags, signed_adj_faces_of Fan.F 0 1 [6; 7; 8] = Ok tags ->
     tags !! 1 = Some 2%Z).
Proof.
  apply (signed_adj_faces_sign Fan.F 0 1 [6; 7; 8] 1 7 (1, 0, 3));
    [reflexivity | reflexivity | vm_compute; reflexivity].
Defined.

(** Claim C2 as it is worded fails on the fan.  Half-edge 6 belongs to face
    0 = (0,1,2), which has the unique edge (0,1) in that very direction;
    its signed index is -1, not +1. *)
Lemma signed_tag_of_matching_face_is_negative :
  ~ tag_sign_as_stated Fan.F 0 1 6.
Proof.
  intros H.
  destruct (H (0, 1, 2) (-1)%Z eq_refl eq_refl) as [_ [Hneg _]].
  specialize (Hneg eq_refl). discriminate Hneg.
Qed.

Section MalformedFace.
Context {coll : Collaborators}.
Variable V : list point.
Variable F : list face.
Variable P : list nat.
Variable E : list (nat * nat).
Variable uE : list (nat * nat).
Variable uE2E : list (list nat).
Variable EMAP : list nat.

Lemma single_component_run_cache (s : sweep_state) :
  single_component_run V F P uE uE2E EMAP = Ok s ->
  exists m c, maxCoeff P = Ok m /\
    build_edge_cache V F P uE uE2E (m + 1) = Ok c /\
    foldM (sweep_patch F P EMAP c) (seq 0 (m + 1))
      {| sw_cells := replicate (m + 1) (INVALID, INVALID);
         sw_count := 0%Z; sw_visits := [] |} = Ok s.
Proof.
  unfold single_component_run. intros H.
  bind_inv H. bind_inv H. eauto.
Qed.

Lemma extract_cells_single_component_run (r : cell_matrix * Z) :
  extract_cells_single_component V F P uE uE2E EMAP = Ok r ->
  exists s, single_component_run V F P uE uE2E EMAP = Ok s /\
            r = (sw_cells s, sw_count s).
Proof.
  unfold extract_cells_single_component. intros H.
  bind_inv H. inversion H; eauto.
Qed.

Lemma extract_cells_runs_single_component (r : cell_matrix * Z) :
  extract_cells V F P E uE uE2E EMAP = Ok r ->
  exists r', extract_cells_single_component V F P uE uE2E EMAP = Ok r'.
Proof.
  unfold extract_cells. intros H.
  bind_inv H. bind_inv H. eauto.
Qed.

(** Every incident face of a non-manifold edge went through
    [is_consistent] when the cache was built. *)
Lemma build_edge_cache_consistent (n : nat) (c : edge_cache)
    (i s d : nat) (adj_faces : list nat) (k ei : nat) :
  build_edge_cache V F P uE uE2E n = Ok c ->
  uE !! i = Some (s, d) ->
  uE2E !! i = Some adj_faces ->
  2 < length adj_faces ->
  adj_faces !! k = Some ei ->
  exists fid b, edge_index_to_face_index F ei = Ok fid /\
                is_consistent F fid s d = Ok b.
Proof.
  unfold build_edge_cache. intros Hc Hi Hadj Hlen Hk.
  assert (Hin : i ∈ seq 0 (length uE)).
  { apply elem_of_seq. apply lookup_lt_Some in Hi. lia. }
  destruct (foldM_Ok_each _ _ _ _ _ Hc Hin) as (c1 & c2 & Hstep).
  unfold cache_edge in Hstep.
  unfold at_index in Hstep. rewrite Hi, Hadj in Hstep. simpl in Hstep.
  apply Nat.ltb_lt in Hlen. rewrite Hlen in Hstep.
  bind_inv Hstep as tags Htags. unfold signed_adj_faces_of in Htags.
  destruct (mapM_Ok_lookup _ _ _ _ _ Htags Hk) as (t & _ & Ht).
  unfold signed_adj_face in Ht.
  bind_inv Ht. bind_inv Ht. eauto.
Qed.

(** Claim C8, as the code has it.  For a face listed under a unique edge
    [(s,d)] that has MORE THAN TWO incident half-edges: [is_consistent]
    throws exactly when the face has neither [(s,d)] nor [(d,s)] as
    consecutive vertices; in that case neither
    [extract_cells_single_component] nor [extract_cells] returns a result;
    and when the face has one of the two, the check returns a flag. *)
Theorem malformed_face_on_non_manifold_edge (i s d : nat)
    (adj_faces : list nat) (k ei : nat) (f : face) :
  uE !! i = Some (s, d) ->
  uE2E !! i = Some adj_faces ->
  2 < length adj_faces ->
  adj_faces !! k = Some ei ->
  F !! (ei mod num_faces F) = Some f ->
  (is_consistent F (ei mod num_faces F) s d = Err (Thrown "Invalid face!")
     <-> has_directed_edge f s d = false /\ has_directed_edge f d s = false)
  /\
  (has_directed_edge f s d = false -> has_directed_edge f d s = false ->
     (forall r, extract_cells_single_component V F P uE uE2E EMAP <> Ok r)
     /\ (forall r, extract_cells V F P E uE uE2E EMAP <> Ok r))
  /\
  (has_directed_edge f s d = true \/ has_directed_edge f d s = true ->
     exists b, is_consistent F (ei mod num_faces F) s d = Ok b).
Proof.
  intros Hi Hadj Hlen Hei Hf.
  pose proof (is_consistent_cases F _ s d f Hf) as Hcase.
  split; [|split].
  - rewrite Hcase.
    destruct (has_directed_edge f s d), (has_directed_edge f d s);
      split; intros H; try discriminate; try (destruct H; discriminate);
      auto.
  - intros Hsd Hds.
    assert (Hsingle :
      forall r, extract_cells_single_component V F P uE uE2E EMAP <> Ok r).
    { intros r Hr.
      destruct (extract_cells_single_component_run r Hr) as (st & Hrun & _).
      destruct (single_component_run_cache st Hrun) as (m & c & _ & Hc & _).
      destruct (build_edge_cache_consistent _ _ _ _ _ _ _ _ Hc Hi Hadj Hlen
                  Hei)
        as (fid & b & Hfid & Hb).
      rewrite (edge_index_to_face_index_Ok _ _ _ Hf) in Hfid.
      inversion Hfid; subst fid.
      rewrite Hcase, Hsd, Hds in Hb. discriminate. }
    split; [exact Hsingle|].
    intros r Hr. destruct (extract_cells_runs_single_component r Hr) as [r' Hr'].
    exact (Hsingle r' Hr').
  - intros H. rewrite Hcase.
    destruct (has_directed_edge f s d); [eauto|].
    destruct (has_directed_edge f d s); [eauto|].
    destruct H; discriminate.
Qed.
End MalformedFace.

Lemma malformed_face_on_non_manifold_edge_witness :
  (is_consistent Fan.F (7 mod num_faces Fan.F) 0 1 = Err (Thrown "Invalid face!")
     <-> has_directed_edge (1, 0, 3) 0 1 = false /\
         has_directed_edge (1, 0, 3) 1 0 = false)
  /\
  (has_directed_edge (1, 0, 3) 0 1 = false ->
   has_directed_edge (1, 0, 3) 1 0 = false ->
     (forall r, @extract_cells_single_component Fan.coll Fan.V Fan.F Fan.P
                  Fan.uE Fan.uE2E Fan.EMAP <> Ok r)
     /\ (forall r, @extract_cells Fan.coll Fan.V Fan.F Fan.P Fan.E Fan.uE
                     Fan.uE2E Fan.EMAP <> Ok r))
  /\
  (has_directed_edge (1, 0, 3) 0 1 = true \/
   has_directed_edge (1, 0, 3) 1 0 = true ->
     exists b, is_consistent Fan.F (7 mod num_faces Fan.F) 0 1 = Ok b).
Proof.
  apply (@malformed_face_on_non_manifold_edge Fan.coll Fan.V Fan.F Fan.P
           Fan.E Fan.uE Fan.uE2E Fan.EMAP 6 0 1 [6; 7; 8] 1 7 (1, 0, 3)).
  - reflexivity.
  - reflexivity.
  - simpl; lia.
  - reflexivity.
  - reflexivity.
Defined.

(** Claim C8 as it is worded fails on the damaged tetrahedron.  Its first
    unique edge (7,8) lists the half-edges 0 and 10; face 0 = (0,2,1) has
    neither (7,8) nor (8,7).  The edge has two incident half-edges only, the
    face is never looked at, and the call returns 2 cells. *)
Lemma malformed_face_on_manifold_edge_goes_unnoticed :
  ~ @malformed_face_aborts_as_stated Damaged.coll Damaged.V Damaged.F
      Damaged.P Damaged.uE Damaged.uE2E Damaged.EMAP.
Proof.
  intros H.
  refine (H 0 7 8 [0; 10] 0 0 (0, 2, 1) _ _ _ _ _ _
            ([(0%Z, 1%Z)], 2%Z) _).
  - reflexivity.
  - reflexivity.
  - reflexivity.
  - reflexivity.
  - reflexivity.
  - reflexivity.
  - vm_compute. reflexivity.
Qed.

(** ** Bounding boxes *)

Lemma Qltb_false (a b : Q) : Qltb a b = false <-> (b <= a)%Q.
Proof.
  unfold Qltb. split.
  - intros H. apply Qnot_lt_le. intros Hlt.
    destruct (Qlt_alt a b) as [Hcmp _].
    rewrite (Hcmp Hlt) in H. discriminate.
  - intros H. destruct (a ?= b)%Q eqn:E; try reflexivity.
    destruct (Qlt_alt a b) as [_ Hlt].
    apply Qle_not_lt in H. elim H. apply Hlt; exact E.
Qed.

Section Boxes.
Context {coll : Collaborators}.
Variable V : list point.
Variable F : list face.
Variables bbox_min bbox_max : list point.

Lemma bbox_intersects_overlap (i j : nat) (min_i max_i min_j max_j : point) :
  bbox_max !! i = Some max_i -> bbox_min !! i = Some min_i ->
  bbox_max !! j = Some max_j -> bbox_min !! j = Some min_j ->
  exists b, bbox_intersects bbox_min bbox_max i j = Ok b /\
            (b = true <-> boxes_overlap min_i max_i min_j max_j).
Proof.
  intros Hmi Hni Hmj Hnj. unfold bbox_intersects, at_index.
  rewrite Hmi, Hni, Hmj, Hnj; simpl. eexists; split; [reflexivity|].
  unfold boxes_overlap. rewrite negb_true_iff, !orb_false_iff, !Qltb_false.
  tauto.
Qed.

(** The candidates of [i] after the inner loop has passed [k]. *)
Lemma candidate_comps_of_elem (n i : nat) (cands : list nat) :
  candidate_comps_of bbox_min bbox_max n i = Ok cands ->
  forall j, j ∈ cands <->
    j < n /\ j <> i /\ bbox_intersects bbox_min bbox_max i j = Ok true.
Proof.
  unfold candidate_comps_of. intros H.
  pose (I := fun (k : nat) (cs : list nat) =>
    forall j, j ∈ cs <->
      j < k /\ j <> i /\ bbox_intersects bbox_min bbox_max i j = Ok true).
  change (I (0 + n) cands).
  eapply foldM_seq_invariant; [| |exact H].
  - intros k cs cs' Hk Hcs Hstep j. cbv beta in Hstep.
    destruct (i =? k) eqn:Eik.
    + apply Nat.eqb_eq in Eik. inversion Hstep; subst cs' k.
      rewrite (Hcs j). split; intros (? & ? & ?); repeat split; auto; lia.
    + apply Nat.eqb_neq in Eik. bind_inv Hstep as b Hb.
      inversion Hstep; subst cs'; clear Hstep.
      destruct b.
      * rewrite elem_of_app, list_elem_of_singleton, (Hcs j). split.
        -- intros [(? & ? & ?)| ->]; repeat split; auto; lia.
        -- intros (Hlt & Hne & Hbb).
           destruct (decide (j = k)) as [->|Hjk]; [right; reflexivity|].
           left; repeat split; auto; lia.
      * rewrite (Hcs j). split.
        -- intros (? & ? & ?); repeat split; auto; lia.
        -- intros (Hlt & Hne & Hbb).
           destruct (decide (j = k)) as [->|Hjk]; [congruence|].
           repeat split; auto; lia.
  - intros j. split; [intros Hj; inversion Hj|intros (? & _); lia].
Qed.

Lemma closest_facet_call_queries (outer_facets : list nat) (n i : nat)
    (call : option (list nat * list point)) :
  closest_facet_call V F bbox_min bbox_max outer_facets n i = Ok call ->
  exists cands,
    candidate_comps_of bbox_min bbox_max n i = Ok cands /\
    match call with
    | None => cands = []
    | Some (cands', queries) =>
        cands' = cands /\ cands <> [] /\
        Forall2 (fun index q =>
                   exists f, outer_facets !! index = Some f /\
                             get_triangle_center V F f = Ok q)
                cands queries
    end.
Proof.
  unfold closest_facet_call. intros H.
  bind_inv H as cands Hcands. exists cands; split; [exact Hcands|].
  destruct (length cands =? 0) eqn:E.
  - inversion H; subst call. apply Nat.eqb_eq in E.
    destruct cands; [reflexivity|discriminate].
  - bind_inv H as queries Hq. inversion H; subst call; clear H.
    split; [reflexivity|]. split.
    + intros ->; discriminate.
    + apply mapM_Ok_Forall2 in Hq.
      eapply Forall2_impl; [exact Hq|].
      intros index q Hi; simpl in Hi.
      bind_inv Hi as f Hf. ok_inv. eauto.
Qed.

(** Claim C7.  For two distinct components [i] and [j] the box test
    answers [true] exactly when the six comparisons
    [max(i,d) >= min(j,d)] and [max(j,d) >= min(i,d)], d = 0,1,2, all hold;
    [j] is a candidate of [i] exactly in that case; and the query points
    handed to [closest_facet] for [i] are, one for one, the centers of the
    outer facets of the candidates, so that a pair that fails the test has
    no query. *)
Theorem bbox_pruning (outer_facets : list nat) (n i j : nat)
    (min_i max_i min_j max_j : point) :
  bbox_max !! i = Some max_i -> bbox_min !! i = Some min_i ->
  bbox_max !! j = Some max_j -> bbox_min !! j = Some min_j ->
  i <> j -> j < n ->
  exists b,
    bbox_intersects bbox_min bbox_max i j = Ok b /\
    (b = true <-> boxes_overlap min_i max_i min_j max_j) /\
    (forall cands,
       candidate_comps_of bbox_min bbox_max n i = Ok cands ->
       (j ∈ cands <-> b = true)) /\
    (forall call,
       closest_facet_call V F bbox_min bbox_max outer_facets n i = Ok call ->
       match call with
       | None => True
       | Some (cands, queries) =>
           (j ∈ cands <-> b = true) /\
           Forall2 (fun index q =>
                      exists f, outer_facets !! index = Some f /\
                                get_triangle_center V F f = Ok q)
                   cands queries
       end).
Proof.
  intros Hmi Hni Hmj Hnj Hij Hjn.
  destruct (bbox_intersects_overlap i j _ _ _ _ Hmi Hni Hmj Hnj)
    as (b & Hb & Hiff).
  exists b. split; [exact Hb|]. split; [exact Hiff|].
  assert (Hc : forall cands,
    candidate_comps_of bbox_min bbox_max n i = Ok cands ->
    (j ∈ cands <-> b = true)).
  { intros cands Hcands.
    rewrite (candidate_comps_of_elem n i cands Hcands j), Hb. split.
    - intros (_ & _ & H); congruence.
    - intros ->; auto. }
  split; [exact Hc|].
  intros call Hcall.
  destruct (closest_facet_call_queries _ _ _ _ Hcall) as (cands & Hcands & Hm).
  destruct call as [[cands' queries]|]; [|exact Logic.I].
  destruct Hm as (-> & _ & Hq). split; [apply Hc; exact Hcands|exact Hq].
Qed.
End Boxes.

(** ** The phases of the patch-level [extract_cells] *)

Section Phases.
Context {coll : Collaborators}.
Variable V : list point.
Variable F : list face.
Variable P : list nat.
Variable E : list (nat * nat).
Variable uE : list (nat * nat).
Variable uE2E : list (list nat).
Variable EMAP : list nat.

Lemma extract_cells_phases (r : cell_matrix * Z) :
  extract_cells V F P E uE uE2E EMAP = Ok r ->
  exists m raw_cells num_raw_cells Is outer n embedded_cells raw_cells',
    maxCoeff P = Ok m /\
    extract_cells_single_component V F P uE uE2E EMAP
      = Ok (raw_cells, num_raw_cells) /\
    group_faces F (facet_components E EMAP uE2E).1
      (length (facet_components E EMAP uE2E).2) = Ok Is /\
    find_outer V F P raw_cells Is = Ok outer /\
    nested_relationship V F P uE2E EMAP raw_cells num_raw_cells
      (facet_components E EMAP uE2E).1 Is outer.*1 outer.*2
      (length (facet_components E EMAP uE2E).2) = Ok n /\
    resolve_embedding outer.*2 n num_raw_cells
      (length (facet_components E EMAP uE2E).2) = Ok embedded_cells /\
    foldM (rewrite_patch embedded_cells) (seq 0 (m + 1)) raw_cells
      = Ok raw_cells' /\
    compact_labels raw_cells' num_raw_cells (m + 1) = Ok r.
Proof.
  unfold extract_cells. intros H.
  bind_inv H as m Hm. bind_inv H as rc Hsingle.
  destruct rc as [raw_cells num_raw_cells].
  destruct (facet_components E EMAP uE2E) as [C counts] eqn:HC.
  bind_inv H as Is HIs. bind_inv H as outer Houter.
  bind_inv H as n Hn. bind_inv H as emb Hemb. bind_inv H as raw' Hraw'.
  exists m, raw_cells, num_raw_cells, Is, outer, n, emb, raw'.
  simpl. repeat split; assumption.
Qed.

(** *** The relabeling never gives the counter back *)




End Phases.

(** ** The face-level entry point *)

(** Claim C9.  In the face-level entry point two faces with the same patch
    id get the same row, which is the row of their patch in the result of
    the patch-level [extract_cells]. *)
Theorem face_rows_follow_patches `{Collaborators} (V : list point)
    (F : list face) (cells : cell_matrix) (num_cells : Z) (i j p : nat) :
  extract_cells_faces V F = Ok (cells, num_cells) ->
  let EMAP := (unique_edge_map F).1.2 in
  let uE2E := (unique_edge_map F).2 in
  let P := extract_manifold_patches F EMAP uE2E in
  i < num_faces F -> j < num_faces F ->
  P !! i = Some p -> P !! j = Some p ->
  exists row per_patch_cells,
    extract_cells V F P (unique_edge_map F).1.1.1 (unique_edge_map F).1.1.2
      uE2E EMAP = Ok (per_patch_cells, num_cells) /\
    per_patch_cells !! p = Some row /\
    cells !! i = Some row /\ cells !! j = Some row.
Proof.
  unfold extract_cells_faces.
  destruct (unique_edge_map F) as [[[E uE] EMAP] uE2E]; simpl.
  intros Hrun Hi Hj HPi HPj.
  bind_inv Hrun as r Hr. destruct r as [per_patch_cells n].
  bind_inv Hrun as rows Hrows. inversion Hrun; subst rows n; clear Hrun.
  assert (Hrow : forall k, k < num_faces F ->
            extract_manifold_patches F EMAP uE2E !! k = Some p ->
            exists row, per_patch_cells !! p = Some row /\
                        cells !! k = Some row).
  { intros k Hk HPk.
    assert (Hseq : seq 0 (num_faces F) !! k = Some k)
      by (rewrite lookup_seq; split; [reflexivity|lia]).
    destruct (mapM_Ok_lookup _ _ _ _ _ Hrows Hseq) as (row & Hrow & Hf).
    bind_inv Hf as p' Hp'. ok_inv.
    rewrite HPk in Hp'; inversion Hp'; subst p'. eauto. }
  destruct (Hrow i Hi HPi) as (row & Hp & Hci).
  destruct (Hrow j Hj HPj) as (row' & Hp' & Hcj).
  rewrite Hp in Hp'; inversion Hp'; subst row'.
  exists row, per_patch_cells. auto.
Qed.

Lemma face_rows_follow_patches_witness :
  exists row per_patch_cells,
    @extract_cells Nested.coll Nested.V Nested.F
      (@extract_manifold_patches Nested.coll Nested.F
         (@unique_edge_map Nested.coll Nested.F).1.2
         (@unique_edge_map Nested.coll Nested.F).2)
      (@unique_edge_map Nested.coll Nested.F).1.1.1
      (@unique_edge_map Nested.coll Nested.F).1.1.2
      (@unique_edge_map Nested.coll Nested.F).2
      (@unique_edge_map Nested.coll Nested.F).1.2
      = Ok (per_patch_cells, 5%Z) /\
    per_patch_cells !! 1 = Some row /\
    [(0, 1); (0, 1); (0, 1); (0, 1); (1, 2); (1, 2); (1, 2); (1, 2);
     (1, 3); (1, 3); (1, 3); (1, 3); (2, 4); (2, 4); (2, 4); (2, 4)]%Z
      !! 4 = Some row /\
    [(0, 1); (0, 1); (0, 1); (0, 1); (1, 2); (1, 2); (1, 2); (1, 2);
     (1, 3); (1, 3); (1, 3); (1, 3); (2, 4); (2, 4); (2, 4); (2, 4)]%Z
      !! 6 = Some row.
Proof.
  apply (@face_rows_follow_patches Nested.coll Nested.V Nested.F _ 5%Z 4 6 1).
  - vm_compute. reflexivity.
  - vm_compute. lia.
  - vm_compute. lia.
  - reflexivity.
  - reflexivity.
Defined.

(** ** The cell matrix *)

Lemma coeff_Ok_lt (cells : cell_matrix) (p : nat) (side x : Z) :
  coeff cells p side = Ok x ->
  p < length cells /\ (side = 0 \/ side = 1)%Z.
Proof.
  unfold coeff. intros H. bind_inv H as row Hrow. ok_inv.
  apply lookup_lt_Some in Hrow. split; [exact Hrow|].
  destruct (side =? 0)%Z eqn:E0; [lia|].
  destruct (side =? 1)%Z eqn:E1; [lia|discriminate].
Qed.

Lemma coeff_is_Ok (cells : cell_matrix) (p : nat) (side : Z) :
  p < length cells -> (side = 0 \/ side = 1)%Z ->
  exists x, coeff cells p side = Ok x.
Proof.
  intros Hp Hs. destruct (lookup_lt_is_Some_2 cells p Hp) as [row Hrow].
  unfold coeff, at_index. rewrite Hrow; simpl.
  destruct Hs as [-> | ->]; simpl; eauto.
Qed.

Lemma set_coeff_length (cells cells' : cell_matrix) (p : nat) (side v : Z) :
  set_coeff cells p side v = Ok cells' -> length cells' = length cells.
Proof.
  unfold set_coeff. intros H. bind_inv H as row Hrow.
  destruct (side =? 0)%Z; [|destruct (side =? 1)%Z; [|discriminate]];
    inversion H; apply length_insert.
Qed.

Lemma coeff_set_coeff (cells cells' : cell_matrix) (p : nat) (side v : Z) :
  set_coeff cells p side v = Ok cells' ->
  forall p' side',
    coeff cells' p' side' =
      if decide (p' = p /\ side' = side) then Ok v else coeff cells p' side'.
Proof.
  unfold set_coeff. intros H p' side'. bind_inv H as row Hrow. ok_inv.
  assert (Hp : p < length cells) by (eapply lookup_lt_Some; eauto).
  unfold coeff, at_index.
  destruct (decide (p' = p)) as [->|Hne].
  - rewrite Hrow; simpl.
    destruct (side =? 0)%Z eqn:E0; [|destruct (side =? 1)%Z eqn:E1];
      inversion H; subst cells'; clear H;
      rewrite ?list_lookup_insert_eq by assumption; simpl.
    + apply Z.eqb_eq in E0; subst side.
      destruct (decide (p = p /\ side' = 0%Z)) as [[_ ->]|Hn]; [reflexivity|].
      destruct (side' =? 0)%Z eqn:E; [apply Z.eqb_eq in E; tauto|reflexivity].
    + apply Z.eqb_eq in E1; subst side.
      destruct (decide (p = p /\ side' = 1%Z)) as [[_ ->]|Hn]; [reflexivity|].
      destruct (side' =? 0)%Z eqn:E; [reflexivity|].
      destruct (side' =? 1)%Z eqn:E'; [apply Z.eqb_eq in E'; tauto|reflexivity].
  - destruct (decide (p' = p /\ side' = side)) as [[? _]|_]; [contradiction|].
    destruct (side =? 0)%Z; [|destruct (side =? 1)%Z; [|discriminate]];
      inversion H; subst cells'; clear H;
      rewrite list_lookup_insert_ne by auto; reflexivity.
Qed.

Lemma peel_grows_refl (x : Z) (cells : cell_matrix) : peel_grows x cells cells.
Proof. split; auto. Qed.

Lemma peel_grows_trans (x : Z) (c1 c2 c3 : cell_matrix) :
  peel_grows x c1 c2 -> peel_grows x c2 c3 -> peel_grows x c1 c3.
Proof.
  intros [L12 H12] [L23 H23]. split; [congruence|].
  intros p side.
  destruct (H12 p side) as [E12|[I1 X2]], (H23 p side) as [E23|[I2 X3]].
  - left; congruence.
  - right; split; congruence.
  - right; split; congruence.
  - right; split; congruence.
Qed.

Lemma set_coeff_grows (x : Z) (cells cells' : cell_matrix) (p : nat) (side : Z) :
  coeff cells p side = Ok INVALID ->
  set_coeff cells p side x = Ok cells' ->
  peel_grows x cells cells'.
Proof.
  intros Hinv Hset. split; [eapply set_coeff_length; eauto|].
  intros p' side'. rewrite (coeff_set_coeff _ _ _ _ _ Hset).
  destruct (decide (p' = p /\ side' = side)) as [[-> ->]|_]; auto.
Qed.

(** ** The peel *)

Section Peel.
Variable F : list face.
Variable P : list nat.
Variable EMAP : list nat.
Variable c : edge_cache.

Lemma next_patch_side_of_binary (side : Z) (cons next_cons : bool) :
  (side = 0 \/ side = 1)%Z ->
  (next_patch_side_of side cons next_cons = 0 \/
   next_patch_side_of side cons next_cons = 1)%Z.
Proof.
  unfold next_patch_side_of. intros [-> | ->];
    destruct (negb (eqb next_cons cons)); simpl; auto.
Qed.

Lemma peel_neighbor_side (side : Z) (ei : nat) (nb : bool * bool * nat * Z) :
  peel_neighbor F P EMAP c side ei = Ok nb ->
  nb.2 = next_patch_side_of side nb.1.1.1 nb.1.1.2.
Proof.
  unfold peel_neighbor. intros H.
  bind_inv H as uei Huei. bind_inv H as order Horder.
  bind_inv H as orientation Hor. bind_inv H as u Hu.
  bind_inv H as cons Hcons. bind_inv H as next_ei Hnei.
  bind_inv H as next_cons Hnc. bind_inv H as fid Hfid.
  bind_inv H as np Hnp. inversion H; reflexivity.
Qed.

Lemma peel_edge_ok (cell_idx : Z) (patch_id : nat) (side : Z)
    (st st' : peel_state) (ei : nat) :
  (side = 0 \/ side = 1)%Z ->
  peel_state_ok F P EMAP c st ->
  peel_edge F P EMAP c cell_idx patch_id side st ei = Ok st' ->
  peel_state_ok F P EMAP c st' /\ peel_grows (to_int cell_idx) (labels st) (labels st').
Proof.
  intros Hside [HQ HV]. unfold peel_edge. intros H.
  bind_inv H as nb Hnb. bind_inv H as seen Hseen.
  pose proof (peel_neighbor_side _ _ _ Hnb) as Hns.
  destruct nb as [[[cons next_cons] np] ns]; simpl in *.
  assert (Hbin : (ns = 0 \/ ns = 1)%Z).
  { rewrite Hns. apply next_patch_side_of_binary; assumption. }
  destruct (seen =? INVALID)%Z eqn:Einv.
  - apply Z.eqb_eq in Einv; subst seen.
    bind_inv H as cells' Hset. inversion H; subst st'; clear H; simpl.
    split; [split|].
    + apply Forall_app; split; [assumption|].
      constructor; [exact Hbin|constructor].
    + apply Forall_app; split; [assumption|].
      constructor; [|constructor].
      repeat split; simpl; auto.
    + eapply set_coeff_grows; eauto.
  - bind_inv H as u Hassert. ok_inv. simpl.
    split; [split|].
    + assumption.
    + apply Forall_app; split; [assumption|].
      constructor; [|constructor].
      repeat split; simpl; auto.
      right. apply Z.eqb_eq; assumption.
    + apply peel_grows_refl.
Qed.

Lemma peel_edges_ok (cell_idx : Z) (patch_id : nat) (side : Z)
    (adj_edges : list nat) (st st' : peel_state) :
  (side = 0 \/ side = 1)%Z ->
  peel_state_ok F P EMAP c st ->
  foldM (peel_edge F P EMAP c cell_idx patch_id side) adj_edges st = Ok st' ->
  peel_state_ok F P EMAP c st' /\ peel_grows (to_int cell_idx) (labels st) (labels st').
Proof.
  intros Hside. revert st.
  induction adj_edges as [|ei l IH]; intros st Hst H; simpl in H.
  - inversion H; subst; split; [assumption|apply peel_grows_refl].
  - bind_inv H as st1 Hst1.
    destruct (peel_edge_ok _ _ _ _ _ _ Hside Hst Hst1) as [Hok1 Hg1].
    destruct (IH st1 Hok1 H) as [Hok' Hg'].
    split; [assumption|eapply peel_grows_trans; eauto].
Qed.

Lemma peel_loop_ok (fuel : nat) (cell_idx : Z) (st st' : peel_state) :
  peel_state_ok F P EMAP c st ->
  peel_loop F P EMAP fuel c cell_idx st = Ok st' ->
  Forall (visit_recorded F P EMAP c) (visits st') /\
  peel_grows (to_int cell_idx) (labels st) (labels st').
Proof.
  revert st. induction fuel as [|fuel IH]; intros st Hst H; simpl in H.
  - destruct (queue st) as [|[patch_id side] Q'] eqn:EQ; [|discriminate].
    inversion H; subst st'. destruct Hst; split;
      [assumption|apply peel_grows_refl].
  - destruct (queue st) as [|[patch_id side] Q'] eqn:EQ.
    + inversion H; subst st'. destruct Hst; split;
        [assumption|apply peel_grows_refl].
    + bind_inv H as adj_edges Hadj. bind_inv H as st1 Hst1.
      destruct Hst as [HQ HV]. rewrite EQ in HQ.
      inversion HQ as [|? ? Hside HQ']; subst.
      destruct (peel_edges_ok _ _ _ _ _ _ Hside
                  (conj HQ' HV : peel_state_ok F P EMAP c
                     {| queue := Q'; labels := labels st;
                        visits := visits st |}) Hst1) as [Hok1 Hg1].
      destruct (IH st1 Hok1 H) as [HV' Hg'].
      split; [assumption|]. eapply peel_grows_trans; eauto.
Qed.

Lemma peel_cell_bd_ok (seed_patch_id : nat) (seed_patch_side cell_idx : Z)
    (cells cells' : cell_matrix) (vs vs' : list peel_visit) :
  (seed_patch_side = 0 \/ seed_patch_side = 1)%Z ->
  coeff cells seed_patch_id seed_patch_side = Ok INVALID ->
  Forall (visit_recorded F P EMAP c) vs ->
  peel_cell_bd F P EMAP c seed_patch_id seed_patch_side cell_idx cells vs
    = Ok (cells', vs') ->
  Forall (visit_recorded F P EMAP c) vs' /\
  peel_grows (to_int cell_idx) cells cells' /\
  coeff cells' seed_patch_id seed_patch_side = Ok (to_int cell_idx).
Proof.
  intros Hside Hinv Hvs. unfold peel_cell_bd. intros H.
  bind_inv H as cells1 Hset. bind_inv H as st Hst.
  inversion H; subst cells' vs'; clear H.
  assert (Hok : peel_state_ok F P EMAP c
            {| queue := [(seed_patch_id, seed_patch_side)];
               labels := cells1; visits := vs |}).
  { split; simpl; [|assumption]. constructor; [exact Hside|constructor]. }
  destruct (peel_loop_ok _ _ _ _ Hok Hst) as [HV Hg]. simpl in Hg.
  split; [assumption|]. split.
  - eapply peel_grows_trans; [eapply set_coeff_grows; eauto|exact Hg].
  - pose proof (coeff_set_coeff _ _ _ _ _ Hset seed_patch_id seed_patch_side)
      as Hseed.
    destruct (decide (seed_patch_id = seed_patch_id /\
                      seed_patch_side = seed_patch_side)) as [_|Hn];
      [|tauto].
    destruct Hg as [_ Hg].
    destruct (Hg seed_patch_id seed_patch_side) as [E|[_ E]]; congruence.
Qed.
End Peel.

(** ** The sweep over the patches *)

Lemma foldl_max_elem (ps : list nat) (p : nat) :
  foldl Nat.max p ps = p \/ foldl Nat.max p ps ∈ ps.
Proof.
  revert p; induction ps as [|q ps IH]; intros p; simpl; [left; reflexivity|].
  destruct (IH (Nat.max p q)) as [E|E].
  - destruct (Nat.max_spec p q) as [[_ Hm]|[_ Hm]]; rewrite Hm in E |- *.
    + right; rewrite E; left.
    + left; exact E.
  - right; right; exact E.
Qed.

Lemma maxCoeff_elem (P : list nat) (m : nat) : maxCoeff P = Ok m -> m ∈ P.
Proof.
  destruct P as [|p ps]; simpl; [discriminate|].
  intros H; inversion H; subst m.
  destruct (foldl_max_elem ps p) as [E|E]; [rewrite E; left|right; exact E].
Qed.

Lemma patch_ids_small_max (P : list nat) (m : nat) :
  patch_ids_small P -> maxCoeff P = Ok m ->
  (2 * Z.of_nat (m + 1) < INT_MAX)%Z.
Proof.
  intros Hs Hm. apply maxCoeff_elem in Hm.
  unfold patch_ids_small in Hs. rewrite Forall_forall in Hs.
  specialize (Hs m Hm). lia.
Qed.

Section Sweep.
Variable F : list face.
Variable P : list nat.
Variable EMAP : list nat.
Variable c : edge_cache.
Variable num_patches : nat.
Hypothesis Hsmall : (2 * Z.of_nat num_patches < INT_MAX)%Z.

Lemma sweep_side_inv (i k : nat) (side : Z) (s s' : sweep_state) :
  i < num_patches -> k <= 1 ->
  (side = 0 \/ side = 1)%Z ->
  sweep_inv F P EMAP c num_patches i k s ->
  sweep_side F P EMAP c i side s = Ok s' ->
  sweep_inv F P EMAP c num_patches i (S k) s' /\
  (forall x, coeff (sw_cells s') i side = Ok x -> x <> INVALID) /\
  (forall p sd x, coeff (sw_cells s) p sd = Ok x -> x <> INVALID ->
                  coeff (sw_cells s') p sd = Ok x).
Proof.
  intros Hi Hk Hside Hinv. unfold sweep_side. intros H.
  bind_inv H as x Hx.
  destruct (x =? INVALID)%Z eqn:E.
  - apply Z.eqb_eq in E; subst x.
    bind_inv H as r Hpeel. destruct r as [cells' vs'].
    inversion H; subst s'; clear H. simpl.
    destruct Hinv as [Hlen Hcnt Hrange Hcar Hdone Hvis].
    assert (Hc31 : (0 <= sw_count s < INT_MAX)%Z) by lia.
    assert (Hto : to_int (sw_count s) = sw_count s).
    { apply to_int_small. unfold INT_MAX in *. lia. }
    destruct (peel_cell_bd_ok _ _ _ _ _ _ _ _ _ _ _ Hside Hx Hvis Hpeel)
      as (Hvis' & [Hlen' Hg] & Hseed).
    rewrite Hto in Hg, Hseed.
    assert (Hkeep : forall p sd y, coeff (sw_cells s) p sd = Ok y ->
              y <> INVALID -> coeff cells' p sd = Ok y).
    { intros p sd y Hy Hne. destruct (Hg p sd) as [Eq|[Eq _]]; congruence. }
    split; [constructor; simpl|split].
    + congruence.
    + lia.
    + intros p sd y Hy. destruct (Hg p sd) as [Eq|[_ Eq]].
      * rewrite Eq in Hy. destruct (Hrange p sd y Hy); [auto|right; lia].
      * rewrite Eq in Hy. inversion Hy; subst y. right; lia.
    + intros y Hy. destruct (decide (y = sw_count s)) as [->|Hne].
      * eauto.
      * destruct (Hcar y) as (p & sd & Hp); [lia|].
        exists p, sd. apply Hkeep; [assumption|].
        unfold INVALID; lia.
    + intros p sd y Hp Hy. destruct (Hg p sd) as [Eq|[Eq1 Eq2]].
      * rewrite Eq in Hy. eapply Hdone; eauto.
      * exfalso. eapply Hdone; eauto.
    + assumption.
    + simpl. intros y Hy. rewrite Hseed in Hy. inversion Hy; subst y.
      unfold INVALID; lia.
    + simpl. exact Hkeep.
  - inversion H; subst s'; clear H. apply Z.eqb_neq in E.
    split; [|split].
    + destruct Hinv as [Hlen Hcnt Hrange Hcar Hdone Hvis].
      constructor; auto. lia.
    + intros y Hy. congruence.
    + auto.
Qed.

Lemma sweep_patch_inv (i : nat) (s s' : sweep_state) :
  i < num_patches ->
  sweep_inv F P EMAP c num_patches i 0 s ->
  sweep_patch F P EMAP c s i = Ok s' ->
  sweep_inv F P EMAP c num_patches (S i) 0 s'.
Proof.
  intros Hi Hinv. unfold sweep_patch. intros H.
  bind_inv H as s1 Hs1.
  destruct (sweep_side_inv i 0 0%Z s s1 Hi ltac:(lia) ltac:(auto) Hinv Hs1)
    as (Hinv1 & Hz1 & _).
  destruct (sweep_side_inv i 1 1%Z s1 s' Hi ltac:(lia) ltac:(auto) Hinv1 H)
    as (Hinv2 & Ho2 & Hkeep2).
  destruct Hinv2 as [Hlen Hcnt Hrange Hcar Hdone Hvis].
  constructor; auto.
  - lia.
  - intros p side x Hp Hx.
    destruct (decide (p = i)) as [->|Hne].
    + destruct (coeff_Ok_lt _ _ _ _ Hx) as [Hlt [-> | ->]].
      * destruct (coeff_is_Ok (sw_cells s1) i 0%Z) as [y Hy];
          [destruct Hinv1; lia|auto|].
        pose proof (Hz1 y Hy) as Hyne.
        rewrite (Hkeep2 _ _ _ Hy Hyne) in Hx. congruence.
      * eapply Ho2; eauto.
    + eapply Hdone; [|exact Hx]. lia.
Qed.

Lemma sweep_inv_init :
  sweep_inv F P EMAP c num_patches 0 0
    {| sw_cells := replicate num_patches (INVALID, INVALID);
       sw_count := 0%Z; sw_visits := [] |}.
Proof.
  constructor; simpl.
  - apply length_replicate.
  - lia.
  - intros p side x Hx. left.
    unfold coeff in Hx. bind_inv Hx as row Hrow. ok_inv.
    apply lookup_replicate in Hrow as [-> _]. simpl in Hx.
    destruct (side =? 0)%Z; [congruence|].
    destruct (side =? 1)%Z; congruence.
  - intros x Hx; lia.
  - intros p side x Hp; lia.
  - constructor.
Qed.

Lemma sweep_inv_final (s : sweep_state) :
  foldM (sweep_patch F P EMAP c) (seq 0 num_patches)
    {| sw_cells := replicate num_patches (INVALID, INVALID);
       sw_count := 0%Z; sw_visits := [] |} = Ok s ->
  sweep_inv F P EMAP c num_patches num_patches 0 s.
Proof.
  intros H.
  change (sweep_inv F P EMAP c num_patches (0 + num_patches) 0 s).
  eapply (foldM_seq_invariant (fun i s => sweep_inv F P EMAP c num_patches i 0 s)); [| |exact H].
  - intros i s1 s2 Hi Hinv Hstep. eapply sweep_patch_inv; eauto. lia.
  - apply sweep_inv_init.
Qed.
End Sweep.

Section SingleComponentResults.
Context {coll : Collaborators}.
Variable V : list point.
Variable F : list face.
Variable P : list nat.
Variable E : list (nat * nat).
Variable uE : list (nat * nat).
Variable uE2E : list (list nat).
Variable EMAP : list nat.

Lemma sweep_visits_recorded (c : edge_cache) (l : list nat)
    (s0 s : sweep_state) :
  Forall (visit_recorded F P EMAP c) (sw_visits s0) ->
  foldM (sweep_patch F P EMAP c) l s0 = Ok s ->
  Forall (visit_recorded F P EMAP c) (sw_visits s).
Proof.
  intros H0 H. revert H0 H.
  apply (foldM_invariant
           (fun s => Forall (visit_recorded F P EMAP c) (sw_visits s))).
  intros s1 i s2 _ Hs1 Hstep.
  assert (Hside : forall side s1 s2,
    (side = 0 \/ side = 1)%Z ->
    Forall (visit_recorded F P EMAP c) (sw_visits s1) ->
    sweep_side F P EMAP c i side s1 = Ok s2 ->
    Forall (visit_recorded F P EMAP c) (sw_visits s2)).
  { clear. intros side s1 s2 Hside Hs1 H. unfold sweep_side in H.
    bind_inv H as x Hx. destruct (x =? INVALID)%Z eqn:Ex.
    - apply Z.eqb_eq in Ex; subst x.
      bind_inv H as r Hpeel. destruct r as [cells' vs'].
      inversion H; subst s2; simpl.
      eapply peel_cell_bd_ok; eauto.
    - inversion H; subst; assumption. }
  unfold sweep_patch in Hstep. bind_inv Hstep as sm Hsm.
  eapply Hside; [| |exact Hstep]; [auto|].
  eapply Hside; [| |exact Hsm]; auto.
Qed.

Lemma single_component_visits (s : sweep_state) :
  single_component_run V F P uE uE2E EMAP = Ok s ->
  exists m c,
    maxCoeff P = Ok m /\
    build_edge_cache V F P uE uE2E (m + 1) = Ok c /\
    Forall (visit_recorded F P EMAP c) (sw_visits s).
Proof.
  intros H.
  destruct (single_component_run_cache _ _ _ _ _ _ _ H)
    as (m & c & Hm & Hc & Hfold).
  exists m, c. repeat split; try assumption.
  eapply sweep_visits_recorded; [|exact Hfold]. constructor.
Qed.

(** Claim C1, as the code has it.  In every step that a run of the
    single-component peel takes over a face-edge of a non-manifold edge, the
    side is 0 or 1, and the side labelled on the neighbour's patch is the
    current side when the orientation flags of the two faces differ, and
    the other side when they are equal.  The step is the one
    [peel_neighbor] computes from the edge cache of the run. *)
Theorem peel_side_rule :
  (forall c side ei cons next_cons np ns,
     (side = 0 \/ side = 1)%Z ->
     peel_neighbor F P EMAP c side ei = Ok (cons, next_cons, np, ns) ->
     (ns = 0 \/ ns = 1)%Z /\
     (next_cons <> cons -> ns = side) /\
     (next_cons = cons -> ns = (1 - side)%Z))
  /\
  (forall s v,
     single_component_run V F P uE uE2E EMAP = Ok s ->
     v ∈ sw_visits s ->
     (pv_side v = 0 \/ pv_side v = 1)%Z /\
     (pv_next_cons v <> pv_cons v -> pv_next_side v = pv_side v) /\
     (pv_next_cons v = pv_cons v -> pv_next_side v = (1 - pv_side v)%Z) /\
     exists m c,
       maxCoeff P = Ok m /\
       build_edge_cache V F P uE uE2E (m + 1) = Ok c /\
       peel_neighbor F P EMAP c (pv_side v) (pv_edge v)
         = Ok (pv_cons v, pv_next_cons v, pv_next_patch v, pv_next_side v)).
Proof.
  assert (Hrule : forall c side ei cons next_cons np ns,
     (side = 0 \/ side = 1)%Z ->
     peel_neighbor F P EMAP c side ei = Ok (cons, next_cons, np, ns) ->
     (ns = 0 \/ ns = 1)%Z /\
     (next_cons <> cons -> ns = side) /\
     (next_cons = cons -> ns = (1 - side)%Z)).
  { intros c side ei cons next_cons np ns Hside Hnb.
    pose proof (peel_neighbor_side _ _ _ _ _ _ _ Hnb) as Hns; simpl in Hns.
    split; [|split].
    - rewrite Hns. apply next_patch_side_of_binary. exact Hside.
    - intros Hne. rewrite Hns. unfold next_patch_side_of.
      destruct next_cons, cons; simpl; congruence.
    - intros Heq. rewrite Hns, Heq. unfold next_patch_side_of.
      rewrite eqb_reflx; simpl. destruct Hside as [-> | ->]; reflexivity. }
  split; [exact Hrule|].
  intros s v Hrun Hv.
  destruct (single_component_visits s Hrun) as (m & c & Hm & Hc & Hvis).
  rewrite Forall_forall in Hvis.
  destruct (Hvis v Hv) as (Hside & Hnb & _).
  destruct (Hrule _ _ _ _ _ _ _ Hside Hnb) as (_ & Hdiff & Hsame).
  split; [exact Hside|]. split; [exact Hdiff|]. split; [exact Hsame|].
  exists m, c. auto.
Qed.

(** Claim C6.  When [extract_cells_single_component] returns (patch ids in
    the range of [int]), the matrix has one row per patch, each of its
    [2 * num_patches] entries holds an id other than [INVALID] in
    [0 .. count-1], and each id of that range is held by some entry. *)
Theorem single_component_labels_every_side (cells : cell_matrix) (count : Z) :
  patch_ids_small P ->
  extract_cells_single_component V F P uE uE2E EMAP = Ok (cells, count) ->
  exists m,
    maxCoeff P = Ok m /\
    length cells = m + 1 /\
    (forall p side, p < m + 1 -> (side = 0 \/ side = 1)%Z ->
       exists x, coeff cells p side = Ok x /\ x <> INVALID /\
                 (0 <= x < count)%Z) /\
    (forall x, (0 <= x < count)%Z ->
       exists p side, coeff cells p side = Ok x).
Proof.
  intros Hsmall H.
  destruct (extract_cells_single_component_run _ _ _ _ _ _ _ H)
    as (s & Hrun & Hr). inversion Hr; subst cells count; clear Hr.
  destruct (single_component_run_cache _ _ _ _ _ _ _ Hrun)
    as (m & c & Hm & Hc & Hfold).
  pose proof (patch_ids_small_max _ _ Hsmall Hm) as Hlt.
  pose proof (sweep_inv_final F P EMAP c (m + 1) Hlt s Hfold) as Hinv.
  destruct Hinv as [Hlen Hcnt Hrange Hcar Hdone Hvis].
  exists m. repeat split; try assumption.
  intros p side Hp Hside.
  destruct (coeff_is_Ok (sw_cells s) p side) as [x Hx]; [lia|assumption|].
  exists x. split; [exact Hx|].
  pose proof (Hdone p side x Hp Hx) as Hne.
  split; [exact Hne|]. destruct (Hrange p side x Hx); [contradiction|lia].
Qed.
End SingleComponentResults.

Lemma peel_side_rule_witness :
  let v := {| pv_cell := 0; pv_patch := 0; pv_side := 0; pv_edge := 6;
              pv_cons := false; pv_next_cons := false; pv_next_patch := 2;
              pv_next_side := 1; pv_seen := 2147483647 |} in
  (pv_side v = 0 \/ pv_side v = 1)%Z /\
  (pv_next_cons v <> pv_cons v -> pv_next_side v = pv_side v) /\
  (pv_next_cons v = pv_cons v -> pv_next_side v = (1 - pv_side v)%Z) /\
  exists m c,
    maxCoeff Fan.P = Ok m /\
    @build_edge_cache Fan.coll Fan.V Fan.F Fan.P Fan.uE Fan.uE2E (m + 1)
      = Ok c /\
    peel_neighbor Fan.F Fan.P Fan.EMAP c (pv_side v) (pv_edge v)
      = Ok (pv_cons v, pv_next_cons v, pv_next_patch v, pv_next_side v).
Proof.
  intros v.
  refine (proj2 (@peel_side_rule Fan.coll Fan.V Fan.F Fan.P Fan.uE Fan.uE2E
                   Fan.EMAP) _ v _ _).
  - vm_compute. reflexivity.
  - vm_compute. left.
Defined.

(** Claim C1 as it is worded fails on the fan.  The first step of the run
    leaves (patch 0, side 0) over half-edge 6; the faces 0 and 2 both have
    the flag [false], and the side labelled on patch 2 is 1, not 0. *)
Lemma peel_keeps_side_across_equal_flags_fails :
  ~ @peel_sides_as_stated Fan.coll Fan.V Fan.F Fan.P Fan.uE Fan.uE2E Fan.EMAP.
Proof.
  intros H.
  destruct (@single_component_run Fan.coll Fan.V Fan.F Fan.P Fan.uE Fan.uE2E
              Fan.EMAP) as [s|e] eqn:Hrun; [|vm_compute in Hrun; discriminate].
  specialize (H s Hrun).
  vm_compute in Hrun. inversion Hrun; subst s; clear Hrun.
  specialize (H _ (list_elem_of_here _ _)).
  destruct H as [Hsame _]. specialize (Hsame eq_refl). discriminate Hsame.
Qed.

Lemma single_component_labels_every_side_witness :
  exists m,
    maxCoeff Fan.P = Ok m /\
    length [(0, 1); (2, 1); (2, 0)]%Z = m + 1 /\
    (forall p side, p < m + 1 -> (side = 0 \/ side = 1)%Z ->
       exists x, coeff [(0, 1); (2, 1); (2, 0)]%Z p side = Ok x /\
                 x <> INVALID /\ (0 <= x < 3)%Z) /\
    (forall x, (0 <= x < 3)%Z ->
       exists p side, coeff [(0, 1); (2, 1); (2, 0)]%Z p side = Ok x).
Proof.
  apply (@single_component_labels_every_side Fan.coll Fan.V Fan.F Fan.P
           Fan.uE Fan.uE2E Fan.EMAP).
  - repeat constructor; vm_compute; reflexivity.
  - vm_compute. reflexivity.
Defined.

(** ** The fuel of the peel is enough *)

Lemma fuelled_Ok {A} (a : A) : fuelled (Ok a).
Proof. discriminate. Qed.

Lemma fuelled_bind {A B} (m : result A) (f : A -> result B) :
  fuelled m -> (forall a, m = Ok a -> fuelled (f a)) -> fuelled (m ≫= f).
Proof.
  intros Hm Hf. destruct m as [a|e]; simpl; [apply Hf; reflexivity|].
  intros He. apply Hm. inversion He; reflexivity.
Qed.

Lemma fuelled_at_index {A} (l : list A) (i : nat) : fuelled (at_index l i).
Proof. unfold at_index; destruct (l !! i); discriminate. Qed.

Lemma fuelled_assert (b : bool) (msg : string) : fuelled (assert b msg).
Proof. destruct b; discriminate. Qed.

Lemma fuelled_coeff (cells : cell_matrix) (p : nat) (side : Z) :
  fuelled (coeff cells p side).
Proof.
  unfold coeff. apply fuelled_bind; [apply fuelled_at_index|].
  intros row _. destruct (side =? 0)%Z; [discriminate|].
  destruct (side =? 1)%Z; discriminate.
Qed.

Lemma fuelled_set_coeff (cells : cell_matrix) (p : nat) (side v : Z) :
  fuelled (set_coeff cells p side v).
Proof.
  unfold set_coeff. apply fuelled_bind; [apply fuelled_at_index|].
  intros row _. destruct (side =? 0)%Z; [discriminate|].
  destruct (side =? 1)%Z; discriminate.
Qed.

Lemma fuelled_push_back_at {A} (v : list (list A)) (i : nat) (x : A) :
  fuelled (push_back_at v i x).
Proof.
  unfold push_back_at. apply fuelled_bind; [apply fuelled_at_index|].
  intros; discriminate.
Qed.

Lemma fuelled_edge_index_to_face_index (F : list face) (i : nat) :
  fuelled (edge_index_to_face_index F i).
Proof.
  unfold edge_index_to_face_index. destruct (num_faces F =? 0); discriminate.
Qed.

Lemma fuelled_is_consistent (F : list face) (fid s d : nat) :
  fuelled (is_consistent F fid s d).
Proof.
  unfold is_consistent. apply fuelled_bind; [apply fuelled_at_index|].
  intros [[f0 f1] f2] _.
  repeat match goal with
         | |- fuelled (if ?b then _ else _) => destruct b
         end; discriminate.
Qed.

Lemma fuelled_mapM {A B} (f : A -> result B) (l : list A) :
  (forall a, fuelled (f a)) -> fuelled (mapM f l).
Proof.
  intros Hf. induction l as [|a l IH]; simpl; [discriminate|].
  apply fuelled_bind; [apply Hf|]. intros b _.
  apply fuelled_bind; [exact IH|]. intros; discriminate.
Qed.

Lemma fuelled_foldM {St A} (f : St -> A -> result St) (l : list A) (s : St) :
  (forall s a, fuelled (f s a)) -> fuelled (foldM f l s).
Proof.
  intros Hf. revert s. induction l as [|a l IH]; intros s; simpl;
    [discriminate|].
  apply fuelled_bind; [apply Hf|]. intros; apply IH.
Qed.

(** A counted loop whose body keeps an invariant and never runs out of
    fuel under it. *)
Lemma fuelled_foldM_seq {St} (I : nat -> St -> Prop)
    (f : St -> nat -> result St) (a n : nat) (s0 : St) :
  (forall i s1 s2, a <= i < a + n -> I i s1 -> f s1 i = Ok s2 -> I (S i) s2) ->
  (forall i s1, a <= i < a + n -> I i s1 -> fuelled (f s1 i)) ->
  I a s0 -> fuelled (foldM f (seq a n) s0).
Proof.
  revert a s0. induction n as [|n IH]; intros a s0 Hstep Hfuel H0; simpl;
    [discriminate|].
  apply fuelled_bind; [apply (Hfuel a); [lia|exact H0]|].
  intros s1 Hs1. apply IH.
  - intros i s2 s3 Hi; apply Hstep; lia.
  - intros i s2 Hi; apply Hfuel; lia.
  - eapply Hstep; [|exact H0|exact Hs1]; lia.
Qed.

Ltac fuelled_step :=
  first
    [ apply fuelled_Ok
    | (unfold fuelled; discriminate)
    | apply fuelled_at_index
    | apply fuelled_assert
    | apply fuelled_coeff
    | apply fuelled_set_coeff
    | apply fuelled_push_back_at
    | apply fuelled_edge_index_to_face_index
    | apply fuelled_is_consistent
    | (apply fuelled_bind; [|intros ? ?])
    | (apply fuelled_mapM; intros ?)
    | (apply fuelled_foldM; intros ? ?)
    | match goal with
      | |- fuelled (if ?b then _ else _) => destruct b
      | |- fuelled (match ?x with _ => _ end) => destruct x
      | |- fuelled (let '(_, _) := ?x in _) => destruct x
      end ].

Ltac fuelled_auto := repeat fuelled_step.

Lemma unlabeled_le (cells : cell_matrix) : unlabeled cells <= 2 * length cells.
Proof.
  unfold unlabeled. induction cells as [|[a b] cells IH]; simpl; [lia|].
  destruct (a =? INVALID)%Z, (b =? INVALID)%Z; simpl; lia.
Qed.

Lemma unlabeled_insert (cells : cell_matrix) (p : nat) (row row' : Z * Z) :
  cells !! p = Some row ->
  unlabeled (<[p := row']> cells) + unlabeled [row]
    = unlabeled cells + unlabeled [row'].
Proof.
  revert p. induction cells as [|r cells IH]; intros p Hp; [discriminate|].
  destruct p as [|p]; simpl in *.
  - inversion Hp; subst r. unfold unlabeled; simpl. lia.
  - specialize (IH p Hp). unfold unlabeled in *; simpl in *. lia.
Qed.

Lemma set_coeff_unlabeled (cells cells' : cell_matrix) (p : nat) (side v : Z) :
  coeff cells p side = Ok INVALID -> v <> INVALID ->
  set_coeff cells p side v = Ok cells' ->
  S (unlabeled cells') = unlabeled cells.
Proof.
  unfold coeff, set_coeff. intros Hc Hv Hs.
  bind_inv Hc as row Hrow. bind_inv Hs as row' Hrow'. ok_inv.
  rewrite Hrow in Hrow'; inversion Hrow'; subst row'; clear Hrow'.
  destruct row as [a b]; simpl in *.
  apply Z.eqb_neq in Hv.
  destruct (side =? 0)%Z.
  - inversion Hc; subst a. inversion Hs; subst cells'.
    pose proof (unlabeled_insert cells p _ (v, b) Hrow) as H.
    unfold unlabeled in H at 2 4; simpl in H.
    rewrite Hv in H. destruct (b =? INVALID)%Z; lia.
  - destruct (side =? 1)%Z; [|discriminate].
    inversion Hc; subst b. inversion Hs; subst cells'.
    pose proof (unlabeled_insert cells p _ (a, v) Hrow) as H.
    unfold unlabeled in H at 2 4; simpl in H.
    rewrite Hv in H. destruct (a =? INVALID)%Z; lia.
Qed.

Section Fuel.
Context {coll : Collaborators}.
Variable V : list point.
Variable F : list face.
Variable P : list nat.
Variable uE : list (nat * nat).
Variable uE2E : list (list nat).
Variable EMAP : list nat.
Variable c : edge_cache.

Lemma fuelled_peel_neighbor (side : Z) (ei : nat) :
  fuelled (peel_neighbor F P EMAP c side ei).
Proof. unfold peel_neighbor. fuelled_auto. Qed.

Lemma fuelled_peel_edge (cell_idx : Z) (patch_id : nat) (side : Z)
    (st : peel_state) (ei : nat) :
  fuelled (peel_edge F P EMAP c cell_idx patch_id side st ei).
Proof.
  unfold peel_edge.
  apply fuelled_bind; [apply fuelled_peel_neighbor|intros ? ?].
  fuelled_auto.
Qed.

Lemma peel_edge_measure (cell_idx : Z) (patch_id : nat) (side : Z)
    (st st' : peel_state) (ei : nat) :
  to_int cell_idx <> INVALID ->
  peel_edge F P EMAP c cell_idx patch_id side st ei = Ok st' ->
  peel_measure st' = peel_measure st.
Proof.
  intros Hne. unfold peel_edge, peel_measure. intros H.
  bind_inv H as nb Hnb. bind_inv H as seen Hseen.
  destruct (seen =? INVALID)%Z eqn:E.
  - apply Z.eqb_eq in E; subst seen. bind_inv H as cells' Hset.
    inversion H; subst st'; simpl.
    pose proof (set_coeff_unlabeled _ _ _ _ _ Hseen Hne Hset).
    rewrite length_app; simpl. lia.
  - bind_inv H as u Hu. inversion H; subst st'; simpl. reflexivity.
Qed.

Lemma peel_edges_measure (cell_idx : Z) (patch_id : nat) (side : Z)
    (l : list nat) (st st' : peel_state) :
  to_int cell_idx <> INVALID ->
  foldM (peel_edge F P EMAP c cell_idx patch_id side) l st = Ok st' ->
  peel_measure st' = peel_measure st.
Proof.
  intros Hne H. revert H.
  apply (foldM_invariant (fun s => peel_measure s = peel_measure st));
    [|reflexivity].
  intros s1 ei s2 _ Hs1 Hstep.
  rewrite (peel_edge_measure _ _ _ _ _ _ Hne Hstep). exact Hs1.
Qed.

Lemma fuelled_peel_loop (fuel : nat) (cell_idx : Z) (st : peel_state) :
  to_int cell_idx <> INVALID ->
  peel_measure st <= fuel ->
  fuelled (peel_loop F P EMAP fuel c cell_idx st).
Proof.
  intros Hne. revert st.
  induction fuel as [|fuel IH]; intros st Hm; simpl.
  - destruct (queue st) as [|[p s] Q'] eqn:EQ; [discriminate|].
    unfold peel_measure in Hm. rewrite EQ in Hm. simpl in Hm. lia.
  - destruct (queue st) as [|[p s] Q'] eqn:EQ; [discriminate|].
    apply fuelled_bind; [apply fuelled_at_index|intros adj_edges _].
    apply fuelled_bind.
    + apply fuelled_foldM. intros; apply fuelled_peel_edge.
    + intros st1 Hst1. apply IH.
      rewrite (peel_edges_measure _ _ _ _ _ _ Hne Hst1).
      unfold peel_measure in *. rewrite EQ in Hm. simpl in *. lia.
Qed.

Lemma fuelled_peel_cell_bd (seed_patch_id : nat)
    (seed_patch_side cell_idx : Z) (cells : cell_matrix)
    (vs : list peel_visit) :
  to_int cell_idx <> INVALID ->
  fuelled (peel_cell_bd F P EMAP c seed_patch_id seed_patch_side cell_idx
             cells vs).
Proof.
  intros Hne. unfold peel_cell_bd.
  apply fuelled_bind; [apply fuelled_set_coeff|intros cells' Hset].
  apply fuelled_bind; [|intros; discriminate].
  apply fuelled_peel_loop; [exact Hne|].
  unfold peel_measure; simpl.
  pose proof (unlabeled_le cells').
  rewrite (set_coeff_length _ _ _ _ _ Hset) in H. lia.
Qed.

Lemma fuelled_sweep_patch (num_patches i : nat) (s : sweep_state) :
  (2 * Z.of_nat num_patches < INT_MAX)%Z ->
  i < num_patches ->
  sweep_inv F P EMAP c num_patches i 0 s ->
  fuelled (sweep_patch F P EMAP c s i).
Proof.
  intros Hsmall Hi Hinv.
  assert (Hside : forall k side s,
    k <= 1 -> sweep_inv F P EMAP c num_patches i k s ->
    fuelled (sweep_side F P EMAP c i side s)).
  { clear s Hinv. intros k' side s Hk Hinv. unfold sweep_side.
    apply fuelled_bind; [apply fuelled_coeff|intros x _].
    destruct (x =? INVALID)%Z; [|discriminate].
    apply fuelled_bind; [|intros [? ?] _; discriminate].
    apply fuelled_peel_cell_bd.
    destruct Hinv as [_ Hcnt _ _ _ _].
    rewrite to_int_small; unfold INVALID, INT_MAX in *; lia. }
  unfold sweep_patch.
  apply fuelled_bind; [apply (Hside 0); [lia|exact Hinv]|].
  intros s1 Hs1.
  destruct (sweep_side_inv F P EMAP c num_patches Hsmall i 0 0%Z s s1
              Hi ltac:(lia) ltac:(auto) Hinv Hs1) as (Hinv1 & _).
  apply (Hside 1); [lia|exact Hinv1].
Qed.

Lemma fuelled_build_edge_cache (n : nat) :
  fuelled (build_edge_cache V F P uE uE2E n).
Proof.
  unfold build_edge_cache. apply fuelled_foldM. intros c0 i.
  unfold cache_edge, signed_adj_faces_of, signed_adj_face.
  fuelled_auto.
Qed.
End Fuel.

(** The fuel of [peel_loop] is never the reason for a failure: the
    embedding of the [while] loop is total where the source's is. *)
Lemma single_component_run_fuelled `{Collaborators} (V : list point)
    (F : list face) (P : list nat) (uE : list (nat * nat))
    (uE2E : list (list nat)) (EMAP : list nat) :
  patch_ids_small P ->
  fuelled (single_component_run V F P uE uE2E EMAP).
Proof.
  intros Hsmall. unfold single_component_run.
  apply fuelled_bind.
  { unfold maxCoeff. destruct P; discriminate. }
  intros m Hm.
  pose proof (patch_ids_small_max _ _ Hsmall Hm) as Hlt.
  apply fuelled_bind; [apply fuelled_build_edge_cache|intros c _].
  eapply (fuelled_foldM_seq (fun i s => sweep_inv F P EMAP c (m + 1) i 0 s)).
  - intros i s1 s2 Hi Hinv Hstep. eapply sweep_patch_inv; eauto. lia.
  - intros i s1 Hi Hinv. eapply fuelled_sweep_patch; eauto. lia.
  - apply sweep_inv_init.
Qed.

Lemma fuelled_search_parent (acomps : list (list nat)) (k : nat)
    (aci : list nat) (acl : list Z) (js : list nat) :
  fuelled (search_parent acomps k aci acl js).
Proof.
  induction js as [|j js IH]; simpl; [discriminate|].
  apply fuelled_bind; [apply fuelled_at_index|intros a _].
  apply fuelled_bind; [apply fuelled_at_index|intros l _].
  destruct (length l =? k - 1); [|exact IH].
  fuelled_auto.
Qed.

Lemma fuelled_at_cell {A} (l : list A) (c : Z) : fuelled (at_cell l c).
Proof. apply fuelled_at_index. Qed.

Lemma fuelled_set_at_cell {A} (l : list A) (c : Z) (x : A) :
  fuelled (set_at_cell l c x).
Proof.
  unfold set_at_cell. apply fuelled_bind; [apply fuelled_at_cell|].
  intros; discriminate.
Qed.

Lemma fuelled_push_back_at_cell {A} (v : list (list A)) (c : Z) (x : A) :
  fuelled (push_back_at_cell v c x).
Proof. apply fuelled_push_back_at. Qed.

Ltac fuelled_more :=
  repeat first
    [ apply fuelled_search_parent
    | apply fuelled_at_cell
    | apply fuelled_set_at_cell
    | apply fuelled_push_back_at_cell
    | fuelled_step ].

(** The patch-level entry point never fails for lack of fuel either. *)
Lemma extract_cells_fuelled `{Collaborators} (V : list point)
    (F : list face) (P : list nat) (E uE : list (nat * nat))
    (uE2E : list (list nat)) (EMAP : list nat) :
  patch_ids_small P ->
  fuelled (extract_cells V F P E uE uE2E EMAP).
Proof.
  intros Hsmall. unfold extract_cells.
  apply fuelled_bind; [unfold maxCoeff; destruct P; discriminate|intros m _].
  apply fuelled_bind.
  { unfold extract_cells_single_component.
    apply fuelled_bind; [apply single_component_run_fuelled; exact Hsmall|].
    intros; discriminate. }
  intros [raw_cells num_raw_cells] _.
  destruct (facet_components E EMAP uE2E) as [C counts].
  apply fuelled_bind; [unfold group_faces; fuelled_more|intros Is _].
  apply fuelled_bind; [unfold find_outer; fuelled_more|intros outer _].
  apply fuelled_bind.
  { unfold nested_relationship, bounding_boxes, colwise_maxCoeff,
      colwise_minCoeff, grow_box, nest_component, closest_facet_call,
      candidate_comps_of, bbox_intersects, record_candidate,
      get_triangle_center.
    fuelled_more. }
  intros n _.
  apply fuelled_bind.
  { unfold resolve_embedding, embed_component. fuelled_more. }
  intros embedded_cells _.
  apply fuelled_bind.
  { unfold rewrite_patch, rewrite_side. fuelled_more. }
  intros raw_cells' _.
  unfold compact_labels, compact_patch, compact_id. fuelled_more.
Qed.

(** ** A mismatch stops the whole call *)

Lemma foldM_app {St A} (f : St -> A -> result St) (l1 l2 : list A) (s : St) :
  foldM f (l1 ++ l2) s = (s' ← foldM f l1 s; foldM f l2 s').
Proof.
  revert s; induction l1 as [|a l1 IH]; intros s; simpl; [reflexivity|].
  destruct (f s a) as [s1|e]; simpl; [apply IH|reflexivity].
Qed.

(** A loop stops at the first iteration that fails. *)
Lemma foldM_fails_at {St A} (f : St -> A -> result St) (pre post : list A)
    (a : A) (s0 s : St) (e : failure) :
  foldM f pre s0 = Ok s -> f s a = Err e ->
  foldM f (pre ++ a :: post) s0 = Err e.
Proof.
  intros Hpre Ha. rewrite foldM_app, Hpre. simpl. rewrite Ha. reflexivity.
Qed.

Section Mismatch.
Context {coll : Collaborators}.
Variable V : list point.
Variable F : list face.
Variable P : list nat.
Variable E : list (nat * nat).
Variable uE : list (nat * nat).
Variable uE2E : list (list nat).
Variable EMAP : list nat.

Lemma peel_edge_mismatch (c : edge_cache) (cell_idx : Z) (patch_id : nat)
    (side : Z) (st : peel_state) (ei : nat) (cons next_cons : bool)
    (next_patch_id : nat) (next_patch_side seen : Z) :
  peel_neighbor F P EMAP c side ei
    = Ok (cons, next_cons, next_patch_id, next_patch_side) ->
  coeff (labels st) next_patch_id next_patch_side = Ok seen ->
  seen <> INVALID ->
  to_size_t seen <> cell_idx ->
  peel_edge F P EMAP c cell_idx patch_id side st ei
    = Err (AssertionFailed "Encountered cell assignment inconsistency").
Proof.
  intros Hnb Hseen Hinv Hne.
  unfold peel_edge. rewrite Hnb; simpl. rewrite Hseen; simpl.
  apply Z.eqb_neq in Hinv, Hne. rewrite Hinv, Hne. reflexivity.
Qed.

(** The queue loop hands on the failure of an iteration it reaches. *)
Lemma peel_loop_fails (c : edge_cache) (cell_idx : Z)
    (st st' : peel_state) (patch_id : nat) (side : Z)
    (Q' : list (nat * Z)) (adj_edges : list nat) (e : failure) :
  peel_reaches F P EMAP c cell_idx st st' ->
  queue st' = (patch_id, side) :: Q' ->
  patch_edge_adj c !! patch_id = Some adj_edges ->
  foldM (peel_edge F P EMAP c cell_idx patch_id side) adj_edges
    {| queue := Q'; labels := labels st'; visits := visits st' |} = Err e ->
  forall fuel,
    peel_loop F P EMAP fuel c cell_idx st = Err e \/
    peel_loop F P EMAP fuel c cell_idx st = Err OutOfFuel.
Proof.
  intros Hreach HQ Hadj Hfail.
  induction Hreach as [st|st st1 st2 p sd Q1 adj1 HQ1 Hadj1 Hst1 Hreach IH];
    intros fuel.
  - destruct fuel as [|fuel]; simpl; rewrite HQ; [right; reflexivity|].
    unfold at_index. rewrite Hadj. simpl. rewrite Hfail. left; reflexivity.
  - destruct fuel as [|fuel]; simpl; rewrite HQ1; [right; reflexivity|].
    unfold at_index. rewrite Hadj1. simpl. rewrite Hst1. simpl.
    apply IH; assumption.
Qed.

(** Claim C4.  Take any point that a run of the single-component sweep
    reaches inside a peel: the sweep has done the patches below [i] and
    starts the peel of a new cell at [side] of patch [i]; the queue loop
    of that peel has come to a state [st]; the loop over the half-edges
    of the popped patch has come to the half-edge [ei].  When the
    neighbour pair computed there is already labelled with a cell id other
    than the one being propagated, the step fails on the assertion, and so
    does the whole call: [extract_cells_single_component] and the
    patch-level [extract_cells] both end in that failure, and neither
    returns a result.  (Patch ids in the range of [int].) *)
Theorem peel_inconsistency_aborts (m : nat) (c : edge_cache) (i : nat)
    (side : Z) (s_i s : sweep_state) (cells1 : cell_matrix)
    (st st_mid : peel_state) (patch_id : nat) (sd : Z)
    (Q' : list (nat * Z)) (pre post : list nat) (ei : nat)
    (cons next_cons : bool) (next_patch_id : nat)
    (next_patch_side seen : Z) :
  patch_ids_small P ->
  maxCoeff P = Ok m ->
  build_edge_cache V F P uE uE2E (m + 1) = Ok c ->
  i < m + 1 ->
  foldM (sweep_patch F P EMAP c) (seq 0 i)
    {| sw_cells := replicate (m + 1) (INVALID, INVALID);
       sw_count := 0%Z; sw_visits := [] |} = Ok s_i ->
  (side = 0%Z /\ s = s_i \/
   side = 1%Z /\ sweep_side F P EMAP c i 0%Z s_i = Ok s) ->
  coeff (sw_cells s) i side = Ok INVALID ->
  set_coeff (sw_cells s) i side (to_int (sw_count s)) = Ok cells1 ->
  peel_reaches F P EMAP c (sw_count s)
    {| queue := [(i, side)]; labels := cells1; visits := sw_visits s |} st ->
  queue st = (patch_id, sd) :: Q' ->
  patch_edge_adj c !! patch_id = Some (pre ++ ei :: post) ->
  foldM (peel_edge F P EMAP c (sw_count s) patch_id sd) pre
    {| queue := Q'; labels := labels st; visits := visits st |}
    = Ok st_mid ->
  peel_neighbor F P EMAP c sd ei
    = Ok (cons, next_cons, next_patch_id, next_patch_side) ->
  coeff (labels st_mid) next_patch_id next_patch_side = Ok seen ->
  seen <> INVALID ->
  to_size_t seen <> sw_count s ->
  peel_edge F P EMAP c (sw_count s) patch_id sd st_mid ei
    = Err (AssertionFailed "Encountered cell assignment inconsistency") /\
  extract_cells_single_component V F P uE uE2E EMAP
    = Err (AssertionFailed "Encountered cell assignment inconsistency") /\
  extract_cells V F P E uE uE2E EMAP
    = Err (AssertionFailed "Encountered cell assignment inconsistency") /\
  (forall r, extract_cells_single_component V F P uE uE2E EMAP <> Ok r) /\
  (forall r, extract_cells V F P E uE uE2E EMAP <> Ok r).
Proof.
  intros Hsmall Hm Hc Hi Hprefix Hside Hx Hset Hreach HQ Hadj Hpre Hnb Hseen
    Hinv Hne.
  set (msg := AssertionFailed "Encountered cell assignment inconsistency").
  pose proof (peel_edge_mismatch c (sw_count s) patch_id sd st_mid ei _ _ _ _
                _ Hnb Hseen Hinv Hne) as Hstep.
  fold msg in Hstep.
  assert (Hsingle : extract_cells_single_component V F P uE uE2E EMAP
                    = Err msg).
  { pose proof (patch_ids_small_max _ _ Hsmall Hm) as Hlt.
    (* the loop over the half-edges of the popped patch *)
    pose proof (foldM_fails_at _ pre post ei _ _ _ Hpre Hstep) as Hedges.
    (* the state of the sweep *)
    assert (Hinv_i : sweep_inv F P EMAP c (m + 1) i 0 s_i).
    { change (sweep_inv F P EMAP c (m + 1) (0 + i) 0 s_i).
      eapply (foldM_seq_invariant
                (fun k t => sweep_inv F P EMAP c (m + 1) k 0 t));
        [| |exact Hprefix].
      - intros k t1 t2 Hk Ht1 Hstep'.
        eapply sweep_patch_inv; eauto. lia.
      - apply sweep_inv_init. }
    assert (Hcount : to_int (sw_count s) <> INVALID).
    { assert (Hb : (0 <= sw_count s <= 2 * Z.of_nat i + 1)%Z).
      { destruct Hside as [[_ ->]|[_ Hs0]].
        - destruct Hinv_i as [_ Hcnt _ _ _ _]. lia.
        - destruct (sweep_side_inv F P EMAP c (m + 1) Hlt i 0 0%Z s_i s
                      Hi ltac:(lia) ltac:(auto) Hinv_i Hs0) as (Hinv1 & _).
          destruct Hinv1 as [_ Hcnt _ _ _ _]. lia. }
      rewrite to_int_small; unfold INVALID, INT_MAX in *; lia. }
    (* the queue loop, then the peel *)
    assert (Hpeel : peel_cell_bd F P EMAP c i side (sw_count s) (sw_cells s)
                      (sw_visits s) = Err msg).
    { pose proof (fuelled_peel_cell_bd F P EMAP c i side (sw_count s)
                    (sw_cells s) (sw_visits s) Hcount) as Hfuel.
      unfold peel_cell_bd in Hfuel |- *. rewrite Hset in Hfuel |- *.
      cbn [mbind result_bind] in Hfuel |- *.
      destruct (peel_loop_fails c (sw_count s) _ st patch_id sd Q' _ msg
                  Hreach HQ Hadj Hedges (S (2 * length (sw_cells s))))
        as [Hl|Hl]; rewrite Hl in Hfuel |- *;
        [reflexivity|elim Hfuel; reflexivity]. }
    (* the side of the patch, the patch, the sweep *)
    assert (Hsw : sweep_side F P EMAP c i side s = Err msg).
    { unfold sweep_side. rewrite Hx. simpl. rewrite Hpeel. reflexivity. }
    assert (Hpatch : sweep_patch F P EMAP c s_i i = Err msg).
    { unfold sweep_patch. destruct Hside as [[-> ->]|[-> Hs0]].
      - rewrite Hsw. reflexivity.
      - rewrite Hs0. simpl. exact Hsw. }
    unfold extract_cells_single_component, single_component_run.
    rewrite Hm. simpl. rewrite Hc. simpl.
    replace (seq 0 (m + 1)) with (seq 0 i ++ i :: seq (S i) (m - i)).
    - rewrite (foldM_fails_at _ _ _ _ _ _ _ Hprefix Hpatch). reflexivity.
    - replace (m + 1) with (i + S (m - i)) by lia.
      rewrite seq_app. reflexivity. }
  assert (Hall : extract_cells V F P E uE uE2E EMAP = Err msg).
  { unfold extract_cells. rewrite Hm. simpl. rewrite Hsingle. reflexivity. }
  split; [exact Hstep|]. split; [exact Hsingle|]. split; [exact Hall|].
  split; intros r Hr; congruence.
Qed.
End Mismatch.

Lemma peel_inconsistency_aborts_witness :
  exists vs,
    peel_edge Fan.F Fan.P Fan.EMAP
      {| patch_edge_adj := [[6]; [7]; [8]];
         orders := [[]; []; []; []; []; []; [6; 7; 8; 7]];
         orientations :=
           [[]; []; []; []; []; []; [false; true; false; true]] |}
      2%Z 2 1%Z
      {| queue := []; labels := [(0, 1); (0, 1); (0, 2)]%Z; visits := vs |} 8
      = Err (AssertionFailed "Encountered cell assignment inconsistency") /\
    @extract_cells_single_component Tangled.coll Fan.V Fan.F Fan.P Fan.uE
      Fan.uE2E Fan.EMAP
      = Err (AssertionFailed "Encountered cell assignment inconsistency") /\
    @extract_cells Tangled.coll Fan.V Fan.F Fan.P Fan.E Fan.uE Fan.uE2E
      Fan.EMAP
      = Err (AssertionFailed "Encountered cell assignment inconsistency") /\
    (forall r, @extract_cells_single_component Tangled.coll Fan.V Fan.F
                 Fan.P Fan.uE Fan.uE2E Fan.EMAP <> Ok r) /\
    (forall r, @extract_cells Tangled.coll Fan.V Fan.F Fan.P Fan.E Fan.uE
                 Fan.uE2E Fan.EMAP <> Ok r).
Proof.
  eexists.
  eapply (@peel_inconsistency_aborts Tangled.coll Fan.V Fan.F Fan.P Fan.E
            Fan.uE Fan.uE2E Fan.EMAP 2
            {| patch_edge_adj := [[6]; [7]; [8]];
               orders := [[]; []; []; []; []; []; [6; 7; 8; 7]];
               orientations :=
                 [[]; []; []; []; []; []; [false; true; false; true]] |}
            2 1%Z _
            {| sw_cells := [(0, 1); (0, 1); (0, INVALID)]%Z;
               sw_count := 2%Z; sw_visits := _ |}
            [(0, 1); (0, 1); (0, 2)]%Z
            {| queue := [(2, 1%Z)]; labels := [(0, 1); (0, 1); (0, 2)]%Z;
               visits := _ |}
            _ 2 1%Z [] [] [] 8 false true 1 1%Z 1%Z).
  - repeat constructor; vm_compute; reflexivity.
  - reflexivity.
  - vm_compute. reflexivity.
  - lia.
  - vm_compute. reflexivity.
  - right. split; [reflexivity|]. vm_compute. reflexivity.
  - reflexivity.
  - reflexivity.
  - apply peel_reaches_here.
  - reflexivity.
  - reflexivity.
  - reflexivity.
  - vm_compute. reflexivity.
  - reflexivity.
  - vm_compute. discriminate.
  - vm_compute. discriminate.
Defined.

(** ** The direct parent *)

Section Parent.
Variable acomps : list (list nat).
Variable k : nat.
Variable ambient_comps_i : list nat.
Variable ambient_cells_i : list Z.
Hypothesis Hrecorded : Forall (fun a => a < length acomps) ambient_comps_i.

Lemma search_parent_first (j a : nat) (cell : Z) (j0 len : nat) :
  j0 <= j < j0 + len ->
  ambient_comps_i !! j = Some a ->
  parent_candidate acomps k a = true ->
  (forall j' a', j0 <= j' < j -> ambient_comps_i !! j' = Some a' ->
                 parent_candidate acomps k a' = false) ->
  ambient_cells_i !! j = Some cell ->
  search_parent acomps k ambient_comps_i ambient_cells_i (seq j0 len)
    = Ok (Z.of_nat a, cell).
Proof.
  revert j0. induction len as [|len IH]; intros j0 Hj Ha Hcand Hfirst Hcell;
    [lia|]. simpl.
  destruct (decide (j0 = j)) as [->|Hne].
  - unfold at_index. rewrite Ha; simpl.
    unfold parent_candidate in Hcand.
    destruct (acomps !! a) as [l|]; [|discriminate]. simpl.
    rewrite Hcand, Hcell. reflexivity.
  - assert (Hlt : j0 < length ambient_comps_i).
    { apply lookup_lt_Some in Ha. lia. }
    destruct (lookup_lt_is_Some_2 _ _ Hlt) as [a0 Ha0].
    unfold at_index. rewrite Ha0; simpl.
    pose proof (Hfirst j0 a0 ltac:(lia) Ha0) as Hno.
    rewrite Forall_forall in Hrecorded.
    assert (Hin : a0 ∈ ambient_comps_i)
      by (apply list_elem_of_lookup; eauto).
    destruct (lookup_lt_is_Some_2 _ _ (Hrecorded a0 Hin)) as [l Hl].
    unfold parent_candidate in Hno. rewrite Hl in Hno.
    rewrite Hl; simpl. rewrite Hno.
    apply IH; auto; [lia|]. intros j' a' Hj'; apply Hfirst; lia.
Qed.

Lemma search_parent_none (j0 len : nat) :
  j0 + len <= length ambient_comps_i ->
  (forall j' a', j0 <= j' -> ambient_comps_i !! j' = Some a' ->
                 parent_candidate acomps k a' = false) ->
  search_parent acomps k ambient_comps_i ambient_cells_i (seq j0 len)
    = Ok (SIZE_MAX, SIZE_MAX).
Proof.
  revert j0. induction len as [|len IH]; intros j0 Hlen Hnone;
    [reflexivity|]. simpl.
  assert (Hlt : j0 < length ambient_comps_i) by lia.
  destruct (lookup_lt_is_Some_2 _ _ Hlt) as [a0 Ha0].
  unfold at_index. rewrite Ha0; simpl.
  pose proof (Hnone j0 a0 ltac:(lia) Ha0) as Hno.
  rewrite Forall_forall in Hrecorded.
  assert (Hin : a0 ∈ ambient_comps_i)
    by (apply list_elem_of_lookup; eauto).
  destruct (lookup_lt_is_Some_2 _ _ (Hrecorded a0 Hin)) as [l Hl].
  unfold parent_candidate in Hno. rewrite Hl in Hno.
  rewrite Hl; simpl. rewrite Hno.
  apply IH; [lia|]. intros j' a' Hj'; apply Hnone; lia.
Qed.

(** Whatever the search returns was found at a candidate. *)
Lemma search_parent_found (js : list nat) (comp cell : Z) :
  search_parent acomps k ambient_comps_i ambient_cells_i js
    = Ok (comp, cell) ->
  comp <> SIZE_MAX ->
  exists j a, ambient_comps_i !! j = Some a /\ comp = Z.of_nat a /\
              parent_candidate acomps k a = true /\
              ambient_cells_i !! j = Some cell.
Proof.
  induction js as [|j js IH]; simpl; intros H Hne.
  - inversion H; congruence.
  - bind_inv H as a Ha. bind_inv H as l Hl. ok_inv.
    destruct (length l =? k - 1) eqn:E.
    + bind_inv H as cl Hcl. ok_inv.
      exists j, a. unfold parent_candidate. rewrite Hl. auto.
    + apply IH; assumption.
Qed.
End Parent.

(** What a completed iteration of the embedding loop has checked and
    written. *)
Lemma embed_component_Ok (outer_cells : list Z) (n : nesting)
    (num_raw_cells : Z) (embedded_cells embedded_cells' : list Z) (i : nat) :
  embed_component outer_cells n num_raw_cells embedded_cells i
    = Ok embedded_cells' ->
  exists oc ambient_comps_i ambient_cells_i,
    outer_cells !! i = Some oc /\
    ambient_comps n !! i = Some ambient_comps_i /\
    ambient_cells n !! Z.to_nat (to_size_t oc) = Some ambient_cells_i /\
    length ambient_comps_i = length ambient_cells_i /\
    Z.to_nat (to_size_t oc) < length embedded_cells /\
    ((length ambient_comps_i = 0 /\
      embedded_cells'
        = (<[Z.to_nat (to_size_t oc) := num_raw_cells]> embedded_cells)) \/
     (0 < length ambient_comps_i /\
      exists j a cell,
        ambient_comps_i !! j = Some a /\
        parent_candidate (ambient_comps n) (length ambient_comps_i) a = true /\
        ambient_cells_i !! j = Some cell /\
        embedded_cells'
          = (<[Z.to_nat (to_size_t oc) := cell]> embedded_cells))).
Proof.
  unfold embed_component. intros H.
  bind_inv H as oc Hoc. bind_inv H as aci Haci. bind_inv H as acl Hacl.
  bind_inv H as u Hu. unfold at_cell in Hacl. ok_inv.
  apply Nat.eqb_eq in Hu.
  exists oc, aci, acl. repeat (split; [assumption|]).
  assert (Hset : forall x e',
    set_at_cell embedded_cells (to_size_t oc) x = Ok e' ->
    Z.to_nat (to_size_t oc) < length embedded_cells /\
    e' = (<[Z.to_nat (to_size_t oc) := x]> embedded_cells)).
  { intros x e' Hx. unfold set_at_cell, at_cell in Hx.
    bind_inv Hx as y Hy. ok_inv. split; [|reflexivity].
    eapply lookup_lt_Some; eauto. }
  destruct (0 <? length aci) eqn:Ek.
  - apply Nat.ltb_lt in Ek.
    bind_inv H as r Hr. destruct r as [comp cell].
    bind_inv H as u1 Hu1. bind_inv H as u2 Hu2. ok_inv.
    apply negb_true_iff, Z.eqb_neq in Hu1.
    destruct (Hset _ _ H) as [Hlt ->]. split; [exact Hlt|].
    right. split; [exact Ek|].
    destruct (search_parent_found _ _ _ _ _ _ _ Hr Hu1)
      as (j & a & Ha & _ & Hcand & Hcell).
    exists j, a, cell. auto.
  - apply Nat.ltb_ge in Ek.
    destruct (Hset _ _ H) as [Hlt ->]. split; [exact Hlt|].
    left. split; [lia|reflexivity].
Qed.

Section DirectParent.
Context {coll : Collaborators}.
Variable V : list point.
Variable F : list face.
Variable P : list nat.
Variable E : list (nat * nat).
Variable uE : list (nat * nat).
Variable uE2E : list (list nat).
Variable EMAP : list nat.

(** Claim C3, as the code has it.  For a component [i] whose outer cell has
    [k > 0] recorded ambient relationships, the resolver writes as its
    parent the ambient cell recorded at the FIRST position whose ambient
    component has exactly [k-1] ambient relationships, whether or not a
    later position qualifies too; when no position qualifies, the
    iteration fails on the assertion and the whole call returns nothing. *)
Theorem direct_parent_is_first_candidate (outer_cells : list Z)
    (n : nesting) (num_raw_cells : Z) (i : nat) (oc : Z)
    (ambient_comps_i : list nat) (ambient_cells_i : list Z) :
  outer_cells !! i = Some oc ->
  ambient_comps n !! i = Some ambient_comps_i ->
  ambient_cells n !! Z.to_nat (to_size_t oc) = Some ambient_cells_i ->
  length ambient_cells_i = length ambient_comps_i ->
  0 < length ambient_comps_i ->
  Forall (fun a => a < length (ambient_comps n)) ambient_comps_i ->
  (forall embedded_cells j a cell,
     Z.to_nat (to_size_t oc) < length embedded_cells ->
     ambient_comps_i !! j = Some a ->
     parent_candidate (ambient_comps n) (length ambient_comps_i) a = true ->
     (forall j' a', j' < j -> ambient_comps_i !! j' = Some a' ->
        parent_candidate (ambient_comps n) (length ambient_comps_i) a'
          = false) ->
     ambient_cells_i !! j = Some cell ->
     Z.of_nat a <> SIZE_MAX -> cell <> SIZE_MAX ->
     embed_component outer_cells n num_raw_cells embedded_cells i
       = Ok (<[Z.to_nat (to_size_t oc) := cell]> embedded_cells))
  /\
  ((forall a, a ∈ ambient_comps_i ->
      parent_candidate (ambient_comps n) (length ambient_comps_i) a
        = false) ->
   (forall embedded_cells,
      embed_component outer_cells n num_raw_cells embedded_cells i
        = Err (AssertionFailed "embedded_comp != INVALID")) /\
   (forall raw_cells Is outer,
      extract_cells_single_component V F P uE uE2E EMAP
        = Ok (raw_cells, num_raw_cells) ->
      group_faces F (facet_components E EMAP uE2E).1
        (length (facet_components E EMAP uE2E).2) = Ok Is ->
      find_outer V F P raw_cells Is = Ok outer ->
      outer.*2 = outer_cells ->
      nested_relationship V F P uE2E EMAP raw_cells num_raw_cells
        (facet_components E EMAP uE2E).1 Is outer.*1 outer.*2
        (length (facet_components E EMAP uE2E).2) = Ok n ->
      i < length (facet_components E EMAP uE2E).2 ->
      forall r, extract_cells V F P E uE uE2E EMAP <> Ok r)).
Proof.
  intros Hoc Haci Hacl Hlen Hk Hrec.
  assert (Hnone_err :
    (forall a, a ∈ ambient_comps_i ->
       parent_candidate (ambient_comps n) (length ambient_comps_i) a
         = false) ->
    forall embedded_cells,
      embed_component outer_cells n num_raw_cells embedded_cells i
        = Err (AssertionFailed "embedded_comp != INVALID")).
  { intros Hnone embedded_cells. unfold embed_component.
    unfold at_cell, at_index. rewrite Hoc; simpl. rewrite Haci; simpl.
    rewrite Hacl; simpl.
    rewrite Hlen, Nat.eqb_refl; simpl.
    apply Nat.ltb_lt in Hk. rewrite Hk.
    rewrite (search_parent_none _ _ _ _ Hrec 0 (length ambient_comps_i));
      [reflexivity|lia|].
    intros j' a' _ Ha'. apply Hnone. apply list_elem_of_lookup; eauto. }
  split.
  - intros embedded_cells j a cell Hemb Ha Hcand Hfirst Hcell Hane Hcne.
    unfold embed_component.
    unfold at_cell, at_index. rewrite Hoc; simpl. rewrite Haci; simpl.
    rewrite Hacl; simpl.
    rewrite Hlen, Nat.eqb_refl; simpl.
    apply Nat.ltb_lt in Hk. rewrite Hk.
    rewrite (search_parent_first _ _ _ _ Hrec j a cell 0
               (length ambient_comps_i)); auto.
    + simpl. apply Z.eqb_neq in Hane, Hcne. rewrite Hane, Hcne; simpl.
      unfold set_at_cell, at_cell, at_index.
      destruct (lookup_lt_is_Some_2 _ _ Hemb) as [e He]. rewrite He.
      reflexivity.
    + apply lookup_lt_Some in Ha. lia.
    + intros j' a' Hj'; apply Hfirst; lia.
  - intros Hnone. split; [exact (Hnone_err Hnone)|].
    intros raw_cells Is outer Hsingle HIs Houter Hcells Hn Hi r Hr.
    destruct (extract_cells_phases _ _ _ _ _ _ _ _ Hr)
      as (m & raw0 & nrc0 & Is0 & outer0 & n0 & emb & raw' & _ & Hsingle0
          & HIs0 & Houter0 & Hn0 & Hemb & _).
    rewrite Hsingle in Hsingle0; inversion Hsingle0; subst raw0 nrc0.
    rewrite HIs in HIs0; inversion HIs0; subst Is0.
    rewrite Houter in Houter0; inversion Houter0; subst outer0.
    rewrite Hn in Hn0; inversion Hn0; subst n0.
    unfold resolve_embedding in Hemb.
    assert (Hin : i ∈ seq 0 (length (facet_components E EMAP uE2E).2))
      by (apply elem_of_seq; lia).
    destruct (foldM_Ok_each _ _ _ _ _ Hemb Hin) as (e1 & e2 & Hstep).
    rewrite Hcells, (Hnone_err Hnone e1) in Hstep. discriminate.
Qed.
End DirectParent.

Lemma direct_parent_is_first_candidate_witness :
  let n := {| nested_cells := [[]; [2; 4]; []; [6]; []; [6]; []; []]%Z;
              ambient_cells := [[]; []; [1]; []; [1]; []; [3; 5]; []]%Z;
              ambient_comps := [[]; [0]; [0]; [1; 2]] |} in
  embed_component [0; 2; 4; 6]%Z n 8%Z
    [8; 18446744073709551615; 1; 18446744073709551615; 1;
     18446744073709551615; 18446744073709551615; 18446744073709551615]%Z 3
  = Ok [8; 18446744073709551615; 1; 18446744073709551615; 1;
        18446744073709551615; 3; 18446744073709551615]%Z.
Proof.
  intros n.
  refine (proj1 (@direct_parent_is_first_candidate Nested.coll Nested.V
                   Nested.F Nested.P Nested.E Nested.uE Nested.uE2E
                   Nested.EMAP [0; 2; 4; 6]%Z n 8%Z
                   3 6%Z [1; 2] [3; 5]%Z _ _ _ _ _ _)
            _ 0 1 3%Z _ _ _ _ _ _ _).
  - reflexivity.
  - reflexivity.
  - reflexivity.
  - reflexivity.
  - simpl; lia.
  - repeat constructor.
  - vm_compute; lia.
  - reflexivity.
  - reflexivity.
  - intros j' a' Hj'; lia.
  - reflexivity.
  - vm_compute; discriminate.
  - vm_compute; discriminate.
Defined.

(** Claim C3 as it is worded fails on the nested arrangement.  Component 3
    has the recorded ambient components [1; 2], and both have exactly one
    ambient relationship (component 0): two candidates.  The call does not
    fail; it takes the cell recorded by component 1 and returns 5 cells. *)
Lemma two_parent_candidates_first_one_taken :
  ~ @ambiguous_parent_aborts_as_stated Nested.coll Nested.V Nested.F
      Nested.P Nested.E Nested.uE Nested.uE2E Nested.EMAP.
Proof.
  intros H.
  refine (H [(0, 1); (2, 3); (4, 5); (6, 7)]%Z 8%Z
            [[0; 1; 2; 3]; [4; 5; 6; 7]; [8; 9; 10; 11]; [12; 13; 14; 15]]
            [(0, 0%Z); (4, 2%Z); (8, 4%Z); (12, 6%Z)]
            {| nested_cells := [[]; [2; 4]; []; [6]; []; [6]; []; []]%Z;
               ambient_cells := [[]; []; [1]; []; [1]; []; [3; 5]; []]%Z;
               ambient_comps := [[]; [0]; [0]; [1; 2]] |}
            3 [1; 2] _ _ _ _ _ _ _
            ([(0, 1); (1, 2); (1, 3); (2, 4)]%Z, 5%Z) _).
  - vm_compute. reflexivity.
  - vm_compute. reflexivity.
  - vm_compute. reflexivity.
  - vm_compute. reflexivity.
  - reflexivity.
  - simpl; lia.
  - vm_compute. discriminate.
  - vm_compute. reflexivity.
Qed.

(** ** First-seen numbering *)

Lemma spec_first_seen_app (seen l1 l2 : list nat) :
  spec_first_seen seen (l1 ++ l2)
    = spec_first_seen (spec_first_seen seen l1) l2.
Proof.
  revert seen. induction l1 as [|x l1 IH]; intros seen; simpl; [reflexivity|].
  destruct (bool_decide (x ∈ seen)); apply IH.
Qed.

Lemma spec_first_seen_prefix (seen ids : list nat) :
  exists ext, spec_first_seen seen ids = seen ++ ext.
Proof.
  revert seen. induction ids as [|x ids IH]; intros seen; simpl.
  - exists []. rewrite app_nil_r. reflexivity.
  - destruct (bool_decide (x ∈ seen)); [apply IH|].
    destruct (IH (seen ++ [x])) as [ext Hext].
    exists ([x] ++ ext). rewrite Hext, app_assoc. reflexivity.
Qed.

Lemma spec_first_seen_elem (seen ids : list nat) (x : nat) :
  x ∈ spec_first_seen seen ids <-> x ∈ seen \/ x ∈ ids.
Proof.
  revert seen. induction ids as [|y ids IH]; intros seen; simpl.
  - split; [auto|intros [H|H]; [exact H|inversion H]].
  - destruct (bool_decide (y ∈ seen)) eqn:E.
    + apply bool_decide_eq_true in E. rewrite IH, elem_of_cons.
      split; [tauto|]. intros [H|[->|H]]; auto.
    + rewrite IH, elem_of_app, list_elem_of_singleton, elem_of_cons. tauto.
Qed.

Lemma spec_first_seen_NoDup (seen ids : list nat) :
  NoDup seen -> NoDup (spec_first_seen seen ids).
Proof.
  revert seen. induction ids as [|y ids IH]; intros seen Hnd; simpl;
    [exact Hnd|].
  destruct (bool_decide (y ∈ seen)) eqn:E; [apply IH; exact Hnd|].
  apply bool_decide_eq_false in E. apply IH.
  apply NoDup_app. split; [exact Hnd|]. split.
  - intros x Hx Hy. apply list_elem_of_singleton in Hy. subst. contradiction.
  - apply NoDup_singleton.
Qed.

Lemma rank_of_lt (x : nat) (l : list nat) : x ∈ l -> rank_of x l < length l.
Proof.
  induction l as [|y l IH]; intros H; [inversion H|]. simpl.
  destruct (y =? x) eqn:E; [lia|].
  apply Nat.eqb_neq in E. apply elem_of_cons in H as [H|H]; [congruence|].
  specialize (IH H). lia.
Qed.

Lemma rank_of_lookup (x : nat) (l : list nat) :
  x ∈ l -> l !! rank_of x l = Some x.
Proof.
  induction l as [|y l IH]; intros H; [inversion H|]. simpl.
  destruct (y =? x) eqn:E.
  - apply Nat.eqb_eq in E. subst. reflexivity.
  - apply Nat.eqb_neq in E. apply elem_of_cons in H as [H|H]; [congruence|].
    simpl. apply IH; exact H.
Qed.

Lemma rank_of_app_l (x : nat) (l l' : list nat) :
  x ∈ l -> rank_of x (l ++ l') = rank_of x l.
Proof.
  induction l as [|y l IH]; intros H; [inversion H|]. simpl.
  destruct (y =? x) eqn:E; [reflexivity|].
  apply Nat.eqb_neq in E. apply elem_of_cons in H as [H|H]; [congruence|].
  rewrite IH; auto.
Qed.

Lemma rank_of_snoc (x : nat) (l : list nat) :
  x ∉ l -> rank_of x (l ++ [x]) = length l.
Proof.
  induction l as [|y l IH]; intros H; simpl.
  - rewrite Nat.eqb_refl. reflexivity.
  - destruct (y =? x) eqn:E.
    + apply Nat.eqb_eq in E. subst. elim H. left.
    + rewrite IH; [reflexivity|]. intros Hx. apply H. right. exact Hx.
Qed.

Lemma rank_of_NoDup_lookup (l : list nat) (i x : nat) :
  NoDup l -> l !! i = Some x -> rank_of x l = i.
Proof.
  intros Hnd Hi.
  assert (Hx : x ∈ l) by (apply list_elem_of_lookup; eauto).
  pose proof (rank_of_lookup x l Hx) as Hr.
  eapply NoDup_lookup; eauto.
Qed.

Lemma NoDup_bounded_length (l : list nat) (L : nat) :
  NoDup l -> (forall k, k ∈ l -> k < L) -> length l <= L.
Proof.
  intros Hnd Hb.
  assert (Hsub : l ⊆+ seq 0 L).
  { apply NoDup_submseteq; [exact Hnd|].
    intros k Hk. apply elem_of_seq. specialize (Hb k Hk). lia. }
  apply submseteq_length in Hsub. rewrite length_seq in Hsub. exact Hsub.
Qed.

(** ** The relabeling loop against the first-seen numbering *)

Lemma set_coeff_row (cells cells' : cell_matrix) (p : nat) (side v : Z) :
  set_coeff cells p side v = Ok cells' ->
  exists row, cells !! p = Some row /\
    ((side = 0%Z /\ cells' = <[p := (v, row.2)]> cells) \/
     (side = 1%Z /\ cells' = <[p := (row.1, v)]> cells)).
Proof.
  unfold set_coeff. intros H. bind_inv H as row Hrow. ok_inv.
  exists row. split; [exact Hrow|].
  destruct (side =? 0)%Z eqn:E0.
  - apply Z.eqb_eq in E0. inversion H. auto.
  - destruct (side =? 1)%Z eqn:E1; [|discriminate].
    apply Z.eqb_eq in E1. inversion H. auto.
Qed.

Lemma coeff_row (cells : cell_matrix) (p : nat) (side x : Z) :
  coeff cells p side = Ok x ->
  exists row, cells !! p = Some row /\
    ((side = 0%Z /\ x = row.1) \/ (side = 1%Z /\ x = row.2)).
Proof.
  unfold coeff. intros H. bind_inv H as row Hrow. ok_inv.
  exists row. split; [exact Hrow|].
  destruct (side =? 0)%Z eqn:E0.
  - apply Z.eqb_eq in E0. inversion H. auto.
  - destruct (side =? 1)%Z eqn:E1; [|discriminate].
    apply Z.eqb_eq in E1. inversion H. auto.
Qed.

Section Compaction.
Variable L : nat.
Hypothesis HL : (Z.of_nat L < 2 ^ 31)%Z.

Lemma compact_agrees_length (order : list nat) (count : Z)
    (mapped : list Z) :
  compact_agrees L order count mapped -> length order <= L.
Proof.
  intros [_ _ Hr Hnd _ _]. apply NoDup_bounded_length; assumption.
Qed.

Lemma compact_id_agrees (order : list nat) (count : Z) (mapped : list Z)
    (x : Z) (mapped' : list Z) (count' id : Z) :
  compact_agrees L order count mapped ->
  compact_id mapped count x = Ok (mapped', count', id) ->
  compact_agrees L (spec_first_seen order [Z.to_nat x]) count' mapped' /\
  id = Z.of_nat (rank_of (Z.to_nat x) (spec_first_seen order [Z.to_nat x]))
  /\ Z.to_nat x ∈ spec_first_seen order [Z.to_nat x].
Proof.
  intros Hag H. pose proof (compact_agrees_length _ _ _ Hag) as Hlen.
  destruct Hag as [Hc Hl Hr Hnd Hs Hu].
  unfold compact_id in H. bind_inv H as m Hm.
  unfold at_cell in Hm. ok_inv.
  set (k := Z.to_nat x) in *.
  assert (Hk : k < L) by (rewrite <- Hl; eapply lookup_lt_Some; eauto).
  simpl. destruct (bool_decide (k ∈ order)) eqn:E.
  - apply bool_decide_eq_true in E.
    rewrite (Hs k E) in Hm. inversion Hm; subst m; clear Hm.
    pose proof (rank_of_lt k order E) as Hrk.
    destruct (Z.of_nat (rank_of k order) =? SIZE_MAX)%Z eqn:Em.
    { apply Z.eqb_eq in Em. unfold SIZE_MAX in Em. lia. }
    inversion H; subst mapped' count' id; clear H.
    split; [constructor; assumption|]. split; [reflexivity|exact E].
  - apply bool_decide_eq_false in E.
    rewrite (Hu k E Hk) in Hm. inversion Hm; subst m; clear Hm.
    rewrite Z.eqb_refl in H. bind_inv H as mp Hmp.
    inversion H; subst mp count' id; clear H.
    unfold set_at_cell, at_cell in Hmp. bind_inv Hmp as y Hy.
    inversion Hmp; subst mapped'; clear Hmp. fold k.
    split; [|split].
    + constructor.
      * rewrite length_app; simpl. lia.
      * rewrite length_insert. exact Hl.
      * intros k' Hk'. apply elem_of_app in Hk' as [Hk'|Hk'];
          [auto|]. apply list_elem_of_singleton in Hk'. subst; exact Hk.
      * apply NoDup_app. split; [exact Hnd|]. split;
          [|apply NoDup_singleton].
        intros z Hz Hz'. apply list_elem_of_singleton in Hz'.
        subst; contradiction.
      * intros k' Hk'. apply elem_of_app in Hk' as [Hk'|Hk'].
        -- rewrite list_lookup_insert_ne by (intros ->; contradiction).
           rewrite rank_of_app_l by exact Hk'. apply Hs; exact Hk'.
        -- apply list_elem_of_singleton in Hk'. subst k'.
           rewrite list_lookup_insert_eq by lia.
           rewrite rank_of_snoc by exact E. rewrite Hc. reflexivity.
      * intros k' Hk' Hlt.
        assert (k' <> k /\ k' ∉ order) as [Hne Hno].
        { split; intros Hx; apply Hk'; apply elem_of_app;
            [right; apply list_elem_of_singleton; exact Hx|left; exact Hx]. }
        rewrite list_lookup_insert_ne by auto. apply Hu; assumption.
    + rewrite rank_of_snoc by exact E. exact Hc.
    + apply elem_of_app. right. apply list_elem_of_singleton. reflexivity.
Qed.

Variable raw : cell_matrix.
Variable sentinel : nat.

Lemma spec_order_S (i : nat) (x0 x1 : Z) :
  raw !! i = Some (x0, x1) ->
  spec_order raw sentinel (S i)
    = spec_first_seen (spec_first_seen (spec_order raw sentinel i) [raw_id x0])
        [raw_id x1].
Proof.
  intros Hi. unfold spec_order.
  rewrite (take_S_r _ _ _ Hi). unfold raw_ids.
  rewrite flat_map_app, spec_first_seen_app.
  rewrite <- (spec_first_seen_app _ [raw_id x0] [raw_id x1]). reflexivity.
Qed.

Lemma compact_patch_inv (i : nat) (st st' : compaction) :
  compact_inv L raw sentinel i st ->
  compact_patch st i = Ok st' ->
  compact_inv L raw sentinel (S i) st'.
Proof.
  intros [Hag Hlen Hdone Hrest] H. unfold compact_patch in H.
  bind_inv H as x0 Hx0. bind_inv H as x1 Hx1.
  bind_inv H as r1 Hr1. destruct r1 as [[mapped1 count1] id0].
  bind_inv H as r2 Hr2. destruct r2 as [[mapped2 count2] id1].
  bind_inv H as cells1 Hc1. bind_inv H as cells2 Hc2.
  inversion H; subst st'; clear H.
  destruct (coeff_row _ _ _ _ Hx0) as (row & Hrow & [[_ ->]|[? _]]);
    [|discriminate].
  destruct (coeff_row _ _ _ _ Hx1) as (row' & Hrow' & [[? _]|[_ ->]]);
    [discriminate|].
  rewrite Hrow in Hrow'; inversion Hrow'; subst row'; clear Hrow'.
  assert (Hraw : raw !! i = Some (row.1, row.2)).
  { rewrite <- (Hrest i (le_n i)), Hrow. destruct row; reflexivity. }
  destruct (compact_id_agrees _ _ _ _ _ _ _ Hag Hr1) as (Hag1 & Hid0 & Hin0).
  destruct (compact_id_agrees _ _ _ _ _ _ _ Hag1 Hr2) as (Hag2 & Hid1 & Hin1).
  fold (raw_id row.1) in *. fold (raw_id row.2) in *.
  rewrite <- (spec_order_S i _ _ Hraw) in *.
  destruct (spec_first_seen_prefix (spec_first_seen (spec_order raw sentinel i)
              [raw_id row.1]) [raw_id row.2]) as [ext1 Hext1].
  rewrite <- (spec_order_S i _ _ Hraw) in Hext1.
  destruct (spec_first_seen_prefix (spec_order raw sentinel i) [raw_id row.1])
    as [ext0 Hext0].
  pose proof (compact_agrees_length _ _ _ Hag2) as Hlen2.
  assert (Hid0' : id0 = Z.of_nat (rank_of (raw_id row.1) (spec_order raw sentinel (S i)))).
  { rewrite Hid0, Hext1, rank_of_app_l by exact Hin0. reflexivity. }
  assert (Hin0' : raw_id row.1 ∈ spec_order raw sentinel (S i)).
  { rewrite Hext1. apply elem_of_app. left. exact Hin0. }
  assert (Hint : forall k, k ∈ spec_order raw sentinel (S i) ->
            to_int (Z.of_nat (rank_of k (spec_order raw sentinel (S i))))
              = Z.of_nat (rank_of k (spec_order raw sentinel (S i)))).
  { intros k Hk. apply to_int_small.
    pose proof (rank_of_lt k _ Hk). lia. }
  destruct (set_coeff_row _ _ _ _ _ Hc1) as (rw & Hrw & [[_ ->]|[? _]]);
    [|discriminate].
  rewrite Hrow in Hrw; inversion Hrw; subst rw; clear Hrw.
  destruct (set_coeff_row _ _ _ _ _ Hc2) as (rw & Hrw & [[? _]|[_ ->]]);
    [discriminate|].
  assert (Hi : i < length (cp_cells st))
    by (eapply lookup_lt_Some; eauto).
  rewrite list_lookup_insert_eq in Hrw by exact Hi.
  inversion Hrw; subst rw; clear Hrw. simpl.
  constructor; simpl.
  - exact Hag2.
  - rewrite !length_insert. exact Hlen.
  - intros p y0 y1 Hp Hy.
    destruct (decide (p = i)) as [->|Hne].
    + rewrite Hraw in Hy. inversion Hy; subst y0 y1; clear Hy.
      rewrite list_lookup_insert_eq by (rewrite length_insert; exact Hi).
      rewrite Hid0', Hid1, !Hint by assumption. auto.
    + rewrite !list_lookup_insert_ne by auto.
      destruct (Hdone p y0 y1 ltac:(lia) Hy) as (Hcell & Hi0 & Hi1).
      rewrite Hcell, Hext1, Hext0, <- !app_assoc.
      rewrite !rank_of_app_l by assumption.
      split; [reflexivity|].
      split; apply elem_of_app; left; assumption.
  - intros p Hp. rewrite !list_lookup_insert_ne by lia.
    apply Hrest. lia.
Qed.
End Compaction.

Lemma coeff_of_row (cells cells' : cell_matrix) (p : nat) (side : Z) :
  cells !! p = cells' !! p -> coeff cells p side = coeff cells' p side.
Proof. intros H. unfold coeff, at_index. rewrite H. reflexivity. Qed.

Lemma rank_of_head (s k : nat) (ext : list nat) :
  rank_of k ([s] ++ ext) = 0 <-> k = s.
Proof.
  simpl. destruct (s =? k) eqn:E.
  - apply Nat.eqb_eq in E. split; auto.
  - apply Nat.eqb_neq in E. split; [discriminate|congruence].
Qed.

Lemma elem_of_raw_ids (raw : cell_matrix) (k : nat) :
  k ∈ raw_ids raw <->
  exists p x0 x1, raw !! p = Some (x0, x1) /\ (k = raw_id x0 \/ k = raw_id x1).
Proof.
  unfold raw_ids. rewrite list_elem_of_In, in_flat_map. split.
  - intros ([x0 x1] & Hrow & Hk). apply list_elem_of_In in Hrow.
    apply list_elem_of_lookup in Hrow as [p Hp].
    exists p, x0, x1. split; [exact Hp|]. simpl in Hk.
    destruct Hk as [Hk|[Hk|[]]]; auto.
  - intros (p & x0 & x1 & Hp & Hk). exists (x0, x1). split.
    + apply list_elem_of_In. apply list_elem_of_lookup. eauto.
    + simpl. destruct Hk as [-> | ->]; auto.
Qed.

Lemma spec_order_head (raw : cell_matrix) (sentinel i : nat) :
  exists ext, spec_order raw sentinel i = [sentinel] ++ ext.
Proof. unfold spec_order. apply spec_first_seen_prefix. Qed.

Lemma spec_order_elem (raw : cell_matrix) (sentinel i k : nat) :
  k ∈ spec_order raw sentinel i <->
  k = sentinel \/ k ∈ raw_ids (take i raw).
Proof.
  unfold spec_order. rewrite spec_first_seen_elem, list_elem_of_singleton.
  reflexivity.
Qed.

(** The relabeling is the first-seen numbering that starts with the
    infinite cell. *)
Lemma compact_labels_first_seen (raw cells : cell_matrix)
    (num_raw_cells count : Z) (num_patches : nat) :
  (num_raw_cells + 1 < 2 ^ 31)%Z ->
  compact_labels raw num_raw_cells num_patches = Ok (cells, count) ->
  exists st,
    compact_inv (Z.to_nat (num_raw_cells + 1)) raw (Z.to_nat num_raw_cells)
      num_patches st /\
    cells = cp_cells st /\ count = cp_count st /\ (0 <= num_raw_cells)%Z.
Proof.
  intros Hsmall H. unfold compact_labels in H.
  bind_inv H as mapped Hmapped. bind_inv H as st Hst.
  inversion H; subst cells count; clear H.
  unfold set_at_cell, at_cell in Hmapped. bind_inv Hmapped as y Hy. ok_inv.
  assert (Hlt : Z.to_nat num_raw_cells < Z.to_nat (num_raw_cells + 1)).
  { apply lookup_lt_Some in Hy. rewrite length_replicate in Hy. exact Hy. }
  assert (Hnn : (0 <= num_raw_cells)%Z) by lia.
  exists st. split; [|auto].
  replace num_patches with (0 + num_patches) by reflexivity.
  eapply (foldM_seq_invariant
            (compact_inv (Z.to_nat (num_raw_cells + 1)) raw
               (Z.to_nat num_raw_cells))); [| |exact Hst].
  - intros i s1 s2 _ Hinv Hstep.
    eapply compact_patch_inv; eauto. lia.
  - constructor; simpl.
    + unfold spec_order. rewrite take_0. simpl. constructor.
      * reflexivity.
      * rewrite length_insert, length_replicate. reflexivity.
      * intros k Hk. apply list_elem_of_singleton in Hk. subst. exact Hlt.
      * apply NoDup_singleton.
      * intros k Hk. apply list_elem_of_singleton in Hk. subst.
        rewrite list_lookup_insert_eq by (rewrite length_replicate; exact Hlt).
        simpl. rewrite Nat.eqb_refl. reflexivity.
      * intros k Hk Hkl.
        rewrite list_lookup_insert_ne
          by (intros Heq; apply Hk; apply list_elem_of_singleton; congruence).
        apply lookup_replicate_2. exact Hkl.
    + reflexivity.
    + intros p x0 x1 Hp; lia.
    + reflexivity.
Qed.

Section Dense.
Variable raw cells : cell_matrix.
Variable num_raw_cells count : Z.
Variable num_patches : nat.
Hypothesis Hsmall : (num_raw_cells + 1 < 2 ^ 31)%Z.
Hypothesis Hrun :
  compact_labels raw num_raw_cells num_patches = Ok (cells, count).

Lemma compact_labels_count_is_length :
  count = Z.of_nat
            (length (spec_order raw (Z.to_nat num_raw_cells) num_patches)).
Proof.
  destruct (compact_labels_first_seen _ _ _ _ _ Hsmall Hrun)
    as (st & [Hag _ _ _] & _ & -> & _).
  apply (ca_count _ _ _ _ Hag).
Qed.

Lemma compact_labels_rows (p : nat) (x0 x1 : Z) :
  p < num_patches -> raw !! p = Some (x0, x1) ->
  cells !! p
    = Some (Z.of_nat
              (rank_of (raw_id x0)
                 (spec_order raw (Z.to_nat num_raw_cells) num_patches)),
            Z.of_nat
              (rank_of (raw_id x1)
                 (spec_order raw (Z.to_nat num_raw_cells) num_patches))) /\
  raw_id x0 ∈ spec_order raw (Z.to_nat num_raw_cells) num_patches /\
  raw_id x1 ∈ spec_order raw (Z.to_nat num_raw_cells) num_patches.
Proof.
  destruct (compact_labels_first_seen _ _ _ _ _ Hsmall Hrun)
    as (st & [_ _ Hdone _] & -> & _ & _).
  intros Hp Hraw. apply Hdone; assumption.
Qed.

Lemma compact_labels_coeff (p : nat) (side x : Z) :
  p < num_patches -> coeff raw p side = Ok x ->
  coeff cells p side
    = Ok (Z.of_nat
            (rank_of (raw_id x)
               (spec_order raw (Z.to_nat num_raw_cells) num_patches))) /\
  raw_id x ∈ spec_order raw (Z.to_nat num_raw_cells) num_patches.
Proof.
  intros Hp Hx.
  destruct (coeff_row _ _ _ _ Hx) as ([x0 x1] & Hrow & Hside).
  destruct (compact_labels_rows p x0 x1 Hp Hrow) as (Hc & H0 & H1).
  unfold coeff, at_index. rewrite Hc; simpl.
  destruct Hside as [[-> ->]|[-> ->]]; simpl; auto.
Qed.

Lemma compact_labels_rows_exist (p : nat) (side c : Z) :
  p < num_patches -> coeff cells p side = Ok c ->
  exists x, coeff raw p side = Ok x.
Proof.
  destruct (compact_labels_first_seen _ _ _ _ _ Hsmall Hrun)
    as (st & [_ Hlen _ _] & -> & _ & _).
  intros Hp Hc0. destruct (coeff_Ok_lt _ _ _ _ Hc0) as [Hlt Hside].
  apply coeff_is_Ok; [lia|exact Hside].
Qed.

Lemma compact_labels_zero (p : nat) (side x : Z) :
  p < num_patches -> coeff raw p side = Ok x ->
  (coeff cells p side = Ok 0%Z <-> to_size_t x = num_raw_cells).
Proof.
  intros Hp Hx.
  destruct (compact_labels_coeff p side x Hp Hx) as [Hc _].
  destruct (compact_labels_first_seen _ _ _ _ _ Hsmall Hrun)
    as (_ & _ & _ & _ & Hnn).
  destruct (spec_order_head raw (Z.to_nat num_raw_cells) num_patches)
    as [ext Hext].
  rewrite Hc, Hext.
  pose proof (to_size_t_range x) as Hr.
  split.
  - intros H. injection H as H0. apply (Nat2Z.inj _ 0) in H0.
    apply rank_of_head in H0. unfold raw_id in H0. lia.
  - intros H. f_equal.
    assert (Hz : rank_of (raw_id x) ([Z.to_nat num_raw_cells] ++ ext) = 0).
    { apply rank_of_head. unfold raw_id. rewrite H. reflexivity. }
    lia.
Qed.

Lemma compact_labels_dense (c : Z) :
  Z.to_nat num_raw_cells ∈ raw_ids (take num_patches raw) ->
  (0 <= c < count)%Z <->
  exists p side, p < num_patches /\ coeff cells p side = Ok c.
Proof.
  intros Hsentinel.
  destruct (compact_labels_first_seen _ _ _ _ _ Hsmall Hrun)
    as (st & [Hag _ _ _] & _ & _ & _).
  pose proof (ca_nodup _ _ _ _ Hag) as Hnd.
  rewrite compact_labels_count_is_length. split.
  - intros Hc0.
    assert (Hlt : Z.to_nat c
              < length (spec_order raw (Z.to_nat num_raw_cells) num_patches))
      by lia.
    destruct (lookup_lt_is_Some_2 _ _ Hlt) as [k Hk].
    assert (Hin : k ∈ raw_ids (take num_patches raw)).
    { assert (Hko : k ∈ spec_order raw (Z.to_nat num_raw_cells) num_patches)
        by (apply list_elem_of_lookup; eauto).
      apply spec_order_elem in Hko as [->|Hko]; assumption. }
    apply elem_of_raw_ids in Hin as (p & x0 & x1 & Hp & Hkx).
    assert (Hpn : p < num_patches).
    { apply lookup_lt_Some in Hp. rewrite length_take in Hp. lia. }
    rewrite lookup_take_lt in Hp by exact Hpn.
    destruct (compact_labels_rows p x0 x1 Hpn Hp) as (Hc & _ & _).
    pose proof (rank_of_NoDup_lookup _ _ _ Hnd Hk) as Hrank.
    destruct Hkx as [-> | ->].
    + exists p, 0%Z. split; [exact Hpn|].
      unfold coeff, at_index. rewrite Hc, Hrank; simpl. f_equal. lia.
    + exists p, 1%Z. split; [exact Hpn|].
      unfold coeff, at_index. rewrite Hc, Hrank; simpl. f_equal. lia.
  - intros (p & side & Hp & Hc0).
    destruct (compact_labels_rows_exist p side c Hp Hc0) as [x Hx].
    destruct (compact_labels_coeff p side x Hp Hx) as [Hc Hin].
    rewrite Hc in Hc0. inversion Hc0; subst c.
    pose proof (rank_of_lt _ _ Hin). lia.
Qed.
End Dense.

(** ** A component that lies in the infinite cell *)

Lemma push_back_at_length {A} (v v' : list (list A)) (i : nat) (x : A) :
  push_back_at v i x = Ok v' -> length v' = length v.
Proof.
  unfold push_back_at. intros H. bind_inv H as vi Hvi.
  inversion H. apply length_insert.
Qed.

Lemma foldl_max_init (ps : list nat) (p : nat) : p <= foldl Nat.max p ps.
Proof.
  revert p. induction ps as [|r ps IH]; intros p; simpl; [lia|].
  transitivity (Nat.max p r); [lia|apply IH].
Qed.

Lemma foldl_max_ge (ps : list nat) (p q : nat) :
  q ∈ ps -> q <= foldl Nat.max p ps.
Proof.
  revert p. induction ps as [|r ps IH]; intros p Hq; simpl.
  - inversion Hq.
  - apply elem_of_cons in Hq as [->|Hq].
    + transitivity (Nat.max p r); [lia|apply foldl_max_init].
    + apply IH. exact Hq.
Qed.

Lemma maxCoeff_upper (P : list nat) (m f p : nat) :
  maxCoeff P = Ok m -> P !! f = Some p -> p <= m.
Proof.
  destruct P as [|p0 ps]; simpl; [discriminate|].
  intros H Hf. inversion H; subst m.
  assert (Hin : p ∈ p0 :: ps) by (apply list_elem_of_lookup; eauto).
  apply elem_of_cons in Hin as [->|Hin];
    [apply foldl_max_init|apply foldl_max_ge; exact Hin].
Qed.

Section Root.
Context {coll : Collaborators}.
Variable V : list point.
Variable F : list face.
Variable P : list nat.
Variable E : list (nat * nat).
Variable uE : list (nat * nat).
Variable uE2E : list (list nat).
Variable EMAP : list nat.

Lemma group_faces_some_component (C : list nat) (nc : nat)
    (Is : list (list nat)) :
  group_faces F C nc = Ok Is -> 0 < num_faces F -> 0 < nc.
Proof.
  unfold group_faces. intros H Hf.
  destruct (num_faces F) as [|k]; [lia|]. simpl in H.
  bind_inv H as s1 Hs1. bind_inv Hs1 as c Hc.
  unfold push_back_at in Hs1. bind_inv Hs1 as vi Hvi. ok_inv.
  apply lookup_lt_Some in Hvi. rewrite length_replicate in Hvi. lia.
Qed.

Lemma record_candidate_length (raw_cells : cell_matrix)
    (outer_cells : list Z) (cands cf : list nat) (cfo : list bool)
    (i : nat) (st st' : nesting) (j : nat) :
  record_candidate P raw_cells outer_cells cands cf cfo i st j = Ok st' ->
  length (ambient_comps st') = length (ambient_comps st).
Proof.
  unfold record_candidate. intros H.
  bind_inv H as index Hindex. bind_inv H as f Hf.
  bind_inv H as cp Hcp. bind_inv H as o Ho. bind_inv H as ac Hac.
  bind_inv H as oc Hoc.
  destruct (negb _).
  - bind_inv H as oci Hoci. bind_inv H as nc Hnc.
    bind_inv H as acl Hacl. bind_inv H as acm Hacm.
    inversion H; subst st'; simpl.
    eapply push_back_at_length; eauto.
  - inversion H; reflexivity.
Qed.

Lemma nested_relationship_length (raw_cells : cell_matrix)
    (num_raw_cells : Z) (C : list nat) (Is : list (list nat))
    (outer_facets : list nat) (outer_cells : list Z) (nc : nat)
    (n : nesting) :
  nested_relationship V F P uE2E EMAP raw_cells num_raw_cells C Is
    outer_facets outer_cells nc = Ok n ->
  length (ambient_comps n) = nc.
Proof.
  unfold nested_relationship. intros H.
  destruct (1 <? nc).
  - bind_inv H as b Hb. destruct b as [bbox_min bbox_max].
    revert H.
    apply (foldM_invariant (fun st => length (ambient_comps st) = nc)).
    + intros s1 i s2 _ Hs1 Hstep. unfold nest_component in Hstep.
      bind_inv Hstep as call Hcall.
      destruct call as [[cands queries]|]; [|inversion Hstep; subst; auto].
      bind_inv Hstep as I HI.
      destruct (closest_facet V F I queries uE2E EMAP) as [cf cfo].
      revert Hstep.
      apply (foldM_invariant (fun st => length (ambient_comps st) = nc));
        [|exact Hs1].
      intros t1 j t2 _ Ht1 Hrec.
      rewrite (record_candidate_length _ _ _ _ _ _ _ _ _ Hrec). exact Ht1.
    + simpl. apply length_replicate.
  - inversion H; simpl. apply length_replicate.
Qed.

(** In a resolved nesting some component has no ambient component. *)
Lemma resolved_nesting_has_root (outer_cells : list Z) (n : nesting)
    (num_raw_cells : Z) (nc : nat) (embedded_cells : list Z) :
  resolve_embedding outer_cells n num_raw_cells nc = Ok embedded_cells ->
  length (ambient_comps n) = nc ->
  forall k i ambient_comps_i,
    i < nc -> ambient_comps n !! i = Some ambient_comps_i ->
    length ambient_comps_i = k ->
    exists i0, i0 < nc /\ ambient_comps n !! i0 = Some [].
Proof.
  intros Hres Hlen. unfold resolve_embedding in Hres.
  induction k as [|k IH]; intros i aci Hi Haci Hk.
  - exists i. split; [exact Hi|]. destruct aci; [exact Haci|discriminate].
  - assert (Hin : i ∈ seq 0 nc) by (apply elem_of_seq; lia).
    destruct (foldM_Ok_each _ _ _ _ _ Hres Hin) as (e1 & e2 & Hstep).
    destruct (embed_component_Ok _ _ _ _ _ _ Hstep)
      as (oc & aci' & acl & _ & Haci' & _ & _ & _ & Hcase).
    rewrite Haci in Haci'; inversion Haci'; subst aci'; clear Haci'.
    destruct Hcase as [[Hz _]|(_ & j & a & cell & Ha & Hcand & _)]; [lia|].
    unfold parent_candidate in Hcand.
    destruct (ambient_comps n !! a) as [l|] eqn:El; [|discriminate].
    apply Nat.eqb_eq in Hcand.
    apply (IH a l); [|exact El|lia].
    rewrite <- Hlen. eapply lookup_lt_Some; eauto.
Qed.

Lemma resolved_root_is_infinite (outer_cells : list Z) (n : nesting)
    (num_raw_cells : Z) (nc : nat) (embedded_cells : list Z) :
  resolve_embedding outer_cells n num_raw_cells nc = Ok embedded_cells ->
  length (ambient_comps n) = nc ->
  0 < nc ->
  exists i0 oc, i0 < nc /\ outer_cells !! i0 = Some oc /\
                embedded_cells !! raw_id oc = Some num_raw_cells.
Proof.
  intros Hres Hlen Hnc.
  destruct (lookup_lt_is_Some_2 (ambient_comps n) 0 ltac:(lia)) as [a0 Ha0].
  destruct (resolved_nesting_has_root _ _ _ _ _ Hres Hlen _ 0 a0 Hnc Ha0
              eq_refl) as (i0 & Hi0 & Hroot).
  unfold resolve_embedding in Hres.
  assert (Hin : i0 ∈ seq 0 nc) by (apply elem_of_seq; lia).
  destruct (foldM_Ok_each _ _ _ _ _ Hres Hin) as (e1 & e2 & Hstep0).
  destruct (embed_component_Ok _ _ _ _ _ _ Hstep0)
    as (oc0 & aci0 & acl0 & Hoc0 & Haci0 & Hacl0 & Hlen0 & _ & _).
  rewrite Hroot in Haci0; inversion Haci0; subst aci0; clear Haci0.
  destruct acl0; [|discriminate].
  exists i0, oc0. split; [exact Hi0|]. split; [exact Hoc0|].
  pose (I := fun (i : nat) (emb : list Z) =>
               i0 < i -> emb !! raw_id oc0 = Some num_raw_cells).
  assert (HI : I (0 + nc) embedded_cells).
  { eapply (foldM_seq_invariant I); [| |exact Hres].
    - intros i s1 s2 _ Hs1 Hstep Hlt.
      destruct (embed_component_Ok _ _ _ _ _ _ Hstep)
        as (oc & aci & acl & Hoc & Haci & Hacl & Hl & Hrange & Hcase).
      destruct (decide (Z.to_nat (to_size_t oc) = raw_id oc0)) as [Heq|Hne].
      + unfold raw_id in *. rewrite Heq in *.
        rewrite Hacl0 in Hacl. inversion Hacl; subst acl.
        destruct Hcase as [[_ ->]|[Hpos _]]; [|simpl in Hl; lia].
        apply list_lookup_insert_eq. exact Hrange.
      + assert (Hi : i0 < i).
        { destruct (decide (i0 = i)) as [->|]; [|lia].
          rewrite Hoc0 in Hoc. inversion Hoc; subst oc. elim Hne.
          reflexivity. }
        destruct Hcase as [[_ ->]|(_ & j & a & cell & _ & _ & _ & ->)];
          rewrite list_lookup_insert_ne by exact Hne; apply Hs1; exact Hi.
    - intros Hlt; lia. }
  apply HI. simpl. exact Hi0.
Qed.

(** *** The rewrite of the outer cells *)

Lemma rewrite_side_coeff (embedded_cells : list Z) (i : nat) (side : Z)
    (cells cells' : cell_matrix) :
  rewrite_side embedded_cells i side cells = Ok cells' ->
  exists x e,
    coeff cells i side = Ok x /\
    embedded_cells !! raw_id x = Some e /\
    (forall p' side',
       coeff cells' p' side' =
         if decide (p' = i /\ side' = side)
         then Ok (if (e =? SIZE_MAX)%Z then x else to_int e)
         else coeff cells p' side') /\
    (forall p', p' <> i -> cells' !! p' = cells !! p').
Proof.
  unfold rewrite_side. intros H.
  bind_inv H as x Hx. bind_inv H as e He. unfold at_cell in He. ok_inv.
  exists x, e. split; [exact Hx|]. split; [exact He|].
  destruct (e =? SIZE_MAX)%Z eqn:Ee; simpl in H.
  - inversion H; subst cells'. split; [|auto].
    intros p' side'.
    destruct (decide (p' = i /\ side' = side)) as [[-> ->]|_]; auto.
  - split.
    + intros p' side'. apply (coeff_set_coeff _ _ _ _ _ H).
    + intros p' Hp'.
      destruct (set_coeff_row _ _ _ _ _ H) as (row & _ & [[_ ->]|[_ ->]]);
        apply list_lookup_insert_ne; auto.
Qed.

Lemma rewrite_patches_outer (embedded_cells : list Z)
    (raw raw' : cell_matrix) (np p0 : nat) (o0 oc e : Z) :
  foldM (rewrite_patch embedded_cells) (seq 0 np) raw = Ok raw' ->
  p0 < np ->
  coeff raw p0 o0 = Ok oc ->
  embedded_cells !! raw_id oc = Some e ->
  e <> SIZE_MAX ->
  coeff raw' p0 o0 = Ok (to_int e).
Proof.
  intros Hfold Hp0 Hoc He Hne.
  pose (I := fun (i : nat) (cells : cell_matrix) =>
    (forall p, i <= p -> cells !! p = raw !! p) /\
    (p0 < i -> coeff cells p0 o0 = Ok (to_int e))).
  assert (HI : I (0 + np) raw').
  { eapply (foldM_seq_invariant I); [| |exact Hfold].
    - intros i s1 s2 _ [Hrest Hdone] Hstep.
      unfold rewrite_patch in Hstep. bind_inv Hstep as c1 Hc1.
      destruct (rewrite_side_coeff _ _ _ _ _ Hc1)
        as (x0 & e0 & Hx0 & He0 & Hco1 & Hrow1).
      destruct (rewrite_side_coeff _ _ _ _ _ Hstep)
        as (x1 & e1 & Hx1 & He1 & Hco2 & Hrow2).
      split.
      + intros p Hp. rewrite Hrow2, Hrow1 by lia. apply Hrest. lia.
      + intros Hlt. rewrite Hco2, Hco1.
        destruct (decide (p0 = i)) as [->|Hpi].
        * assert (Hraw : coeff s1 i o0 = Ok oc).
          { rewrite (coeff_of_row s1 raw) by (apply Hrest; lia). exact Hoc. }
          apply Z.eqb_neq in Hne.
          destruct (coeff_Ok_lt _ _ _ _ Hoc) as [_ [-> | ->]].
          -- destruct (decide (i = i /\ 0%Z = 1%Z)) as [[_ ?]|_];
               [discriminate|].
             destruct (decide (i = i /\ 0%Z = 0%Z)) as [_|?]; [|tauto].
             rewrite Hraw in Hx0. inversion Hx0; subst x0.
             rewrite He in He0. inversion He0; subst e0.
             rewrite Hne. reflexivity.
          -- destruct (decide (i = i /\ 1%Z = 1%Z)) as [_|?]; [|tauto].
             rewrite Hco1 in Hx1.
             destruct (decide (i = i /\ 1%Z = 0%Z)) as [[_ ?]|_];
               [discriminate|].
             rewrite Hraw in Hx1. inversion Hx1; subst x1.
             rewrite He in He1. inversion He1; subst e1.
             rewrite Hne. reflexivity.
        * destruct (decide (p0 = i /\ o0 = 1%Z)) as [[? _]|_];
            [contradiction|].
          destruct (decide (p0 = i /\ o0 = 0%Z)) as [[? _]|_];
            [contradiction|].
          apply Hdone. lia.
    - split; [reflexivity|lia]. }
  destruct HI as [_ HI]. apply HI. simpl. exact Hp0.
Qed.

End Root.

Section Final.
Context {coll : Collaborators}.
Variable V : list point.
Variable F : list face.
Variable P : list nat.
Variable E : list (nat * nat).
Variable uE : list (nat * nat).
Variable uE2E : list (list nat).
Variable EMAP : list nat.

Lemma single_component_count_bound (raw_cells : cell_matrix)
    (num_raw_cells : Z) (m : nat) :
  patch_ids_small P ->
  maxCoeff P = Ok m ->
  extract_cells_single_component V F P uE uE2E EMAP
    = Ok (raw_cells, num_raw_cells) ->
  (0 <= num_raw_cells /\ num_raw_cells + 1 < 2 ^ 31)%Z /\
  length raw_cells = m + 1.
Proof.
  intros Hsmall Hm H.
  destruct (extract_cells_single_component_run _ _ _ _ _ _ _ H)
    as (s & Hrun & Hr). inversion Hr; subst raw_cells num_raw_cells.
  destruct (single_component_run_cache _ _ _ _ _ _ _ Hrun)
    as (m' & c & Hm' & Hc & Hfold).
  rewrite Hm in Hm'. inversion Hm'; subst m'.
  pose proof (patch_ids_small_max _ _ Hsmall Hm) as Hlt.
  destruct (sweep_inv_final F P EMAP c (m + 1) Hlt s Hfold)
    as [Hlen Hcnt _ _ _ _].
  unfold INT_MAX in Hlt. split; [lia|exact Hlen].
Qed.

Lemma find_outer_lookup (raw_cells : cell_matrix) (Is : list (list nat))
    (outer : list (nat * Z)) (i : nat) (oc : Z) :
  find_outer V F P raw_cells Is = Ok outer ->
  outer.*2 !! i = Some oc ->
  exists p side, P !! (outer_facet V F (Is !!! i)).1 = Some p /\
                 coeff raw_cells p side = Ok oc.
Proof.
  unfold find_outer. intros H Hoc.
  rewrite list_lookup_fmap in Hoc.
  destruct (outer !! i) as [[f c]|] eqn:Ei; [|discriminate].
  simpl in Hoc. inversion Hoc; subst c; clear Hoc.
  apply mapM_Ok_Forall2 in H.
  destruct (Forall2_lookup_r _ _ _ _ _ H Ei) as (I & HI & Hf).
  rewrite (list_lookup_total_correct _ _ _ HI).
  destruct (outer_facet V F I) as [f' flipped]. simpl.
  bind_inv Hf as p Hp. bind_inv Hf as c Hc. ok_inv.
  exists p, (if flipped then 1 else 0)%Z. auto.
Qed.

(** After the rewrite some patch carries the infinite cell. *)
Lemma infinite_cell_on_a_patch (m : nat) (raw_cells raw_cells' : cell_matrix)
    (num_raw_cells : Z) (Is : list (list nat)) (outer : list (nat * Z))
    (n : nesting) (embedded_cells : list Z) :
  patch_ids_small P ->
  length P = num_faces F ->
  maxCoeff P = Ok m ->
  extract_cells_single_component V F P uE uE2E EMAP
    = Ok (raw_cells, num_raw_cells) ->
  group_faces F (facet_components E EMAP uE2E).1
    (length (facet_components E EMAP uE2E).2) = Ok Is ->
  find_outer V F P raw_cells Is = Ok outer ->
  nested_relationship V F P uE2E EMAP raw_cells num_raw_cells
    (facet_components E EMAP uE2E).1 Is outer.*1 outer.*2
    (length (facet_components E EMAP uE2E).2) = Ok n ->
  resolve_embedding outer.*2 n num_raw_cells
    (length (facet_components E EMAP uE2E).2) = Ok embedded_cells ->
  foldM (rewrite_patch embedded_cells) (seq 0 (m + 1)) raw_cells
    = Ok raw_cells' ->
  Z.to_nat num_raw_cells ∈ raw_ids (take (m + 1) raw_cells').
Proof.
  intros Hsmall HPF Hm Hsingle HIs Houter Hn Hemb Hrw.
  destruct (single_component_count_bound _ _ _ Hsmall Hm Hsingle)
    as [Hnrc Hlen].
  assert (Hfaces : 0 < num_faces F).
  { rewrite <- HPF. destruct P; [discriminate|simpl; lia]. }
  pose proof (group_faces_some_component _ _ _ _ HIs Hfaces) as Hnc.
  pose proof (nested_relationship_length _ _ _ _ _ _ _ _ _ _ _ _ _ Hn)
    as Hlenn.
  destruct (resolved_root_is_infinite _ _ _ _ _ Hemb Hlenn Hnc)
    as (i0 & oc & Hi0 & Hoc & Hroot).
  destruct (find_outer_lookup _ _ _ _ _ Houter Hoc)
    as (p0 & o0 & Hp0 & Hcoeff).
  pose proof (maxCoeff_upper _ _ _ _ Hm Hp0) as Hle.
  assert (Hne : num_raw_cells <> SIZE_MAX) by (unfold SIZE_MAX; lia).
  assert (Hp0lt : p0 < m + 1) by lia.
  pose proof (rewrite_patches_outer _ _ _ _ _ _ _ _ Hrw
                Hp0lt Hcoeff Hroot Hne) as Hinf.
  rewrite to_int_small in Hinf by lia.
  destruct (coeff_row _ _ _ _ Hinf) as ([x0 x1] & Hrow & Hside).
  apply elem_of_raw_ids. exists p0, x0, x1. split.
  - rewrite lookup_take_lt by lia. exact Hrow.
  - unfold raw_id. simpl in Hside.
    destruct Hside as [[_ <-]|[_ <-]];
      rewrite (to_size_t_small num_raw_cells) by lia; auto.
Qed.

(** Claim C5.  For patch ids in the range of [int] and one patch id per
    face: the cells returned are those of [compact_labels] on the rewritten
    raw cells; the infinite-cell sentinel is numbered 0 and is the only raw
    id numbered 0; every patch, side 0 before side 1, in increasing patch
    order, gets for each raw id its rank in the first-seen order
    ([spec_order]); the ids found on the patches are exactly
    [0 .. count-1]; and [count] is the number of ids handed out. *)
Theorem compaction_is_first_seen_and_dense (cells : cell_matrix)
    (count : Z) :
  patch_ids_small P ->
  length P = num_faces F ->
  extract_cells V F P E uE uE2E EMAP = Ok (cells, count) ->
  exists m raw_cells' num_raw_cells,
    maxCoeff P = Ok m /\
    (exists raw_cells embedded_cells,
       extract_cells_single_component V F P uE uE2E EMAP
         = Ok (raw_cells, num_raw_cells) /\
       foldM (rewrite_patch embedded_cells) (seq 0 (m + 1)) raw_cells
         = Ok raw_cells') /\
    compact_labels raw_cells' num_raw_cells (m + 1) = Ok (cells, count) /\
    let order := spec_order raw_cells' (Z.to_nat num_raw_cells) (m + 1) in
    count = Z.of_nat (length order) /\
    (forall p x0 x1,
       p < m + 1 -> raw_cells' !! p = Some (x0, x1) ->
       cells !! p = Some (Z.of_nat (rank_of (raw_id x0) order),
                          Z.of_nat (rank_of (raw_id x1) order))) /\
    (forall p side x,
       p < m + 1 -> coeff raw_cells' p side = Ok x ->
       (coeff cells p side = Ok 0%Z <-> to_size_t x = num_raw_cells)) /\
    (forall c,
       (0 <= c < count)%Z <->
       exists p side, p < m + 1 /\ coeff cells p side = Ok c).
Proof.
  intros Hsmall HPF H.
  destruct (extract_cells_phases _ _ _ _ _ _ _ _ H)
    as (m & raw & nrc & Is & outer & n & emb & raw' & Hm & Hsingle & HIs
        & Houter & Hn & Hemb & Hrw & Hcompact).
  destruct (single_component_count_bound _ _ _ Hsmall Hm Hsingle)
    as [Hnrc Hlen].
  exists m, raw', nrc. split; [exact Hm|].
  split; [exists raw, emb; split; assumption|]. split; [exact Hcompact|].
  assert (Hb : (nrc + 1 < 2 ^ 31)%Z) by lia.
  cbv zeta. split; [|split; [|split]].
  - eapply compact_labels_count_is_length; eauto.
  - intros p x0 x1 Hp Hrow.
    eapply compact_labels_rows; eauto.
  - intros p side x Hp Hx. eapply compact_labels_zero; eauto.
  - intros c. eapply compact_labels_dense; eauto.
    eapply infinite_cell_on_a_patch; eauto.
Qed.
End Final.

Lemma compaction_is_first_seen_and_dense_witness :
  exists m raw_cells' num_raw_cells,
    maxCoeff Nested.P = Ok m /\
    (exists raw_cells embedded_cells,
       @extract_cells_single_component Nested.coll Nested.V Nested.F Nested.P
         Nested.uE Nested.uE2E Nested.EMAP = Ok (raw_cells, num_raw_cells) /\
       foldM (rewrite_patch embedded_cells) (seq 0 (m + 1)) raw_cells
         = Ok raw_cells') /\
    compact_labels raw_cells' num_raw_cells (m + 1)
      = Ok ([(0, 1); (1, 2); (1, 3); (2, 4)]%Z, 5%Z) /\
    let order := spec_order raw_cells' (Z.to_nat num_raw_cells) (m + 1) in
    5%Z = Z.of_nat (length order) /\
    (forall p x0 x1,
       p < m + 1 -> raw_cells' !! p = Some (x0, x1) ->
       [(0, 1); (1, 2); (1, 3); (2, 4)]%Z !! p
         = Some (Z.of_nat (rank_of (raw_id x0) order),
                 Z.of_nat (rank_of (raw_id x1) order))) /\
    (forall p side x,
       p < m + 1 -> coeff raw_cells' p side = Ok x ->
       (coeff [(0, 1); (1, 2); (1, 3); (2, 4)]%Z p side = Ok 0%Z
          <-> to_size_t x = num_raw_cells)) /\
    (forall c,
       (0 <= c < 5)%Z <->
       exists p side,
         p < m + 1 /\
         coeff [(0, 1); (1, 2); (1, 3); (2, 4)]%Z p side = Ok c).
Proof.
  apply (@compaction_is_first_seen_and_dense Nested.coll Nested.V Nested.F
           Nested.P Nested.E Nested.uE Nested.uE2E Nested.EMAP).
  - repeat constructor; vm_compute; reflexivity.
  - reflexivity.
  - vm_compute. reflexivity.
Defined.


Lemma bbox_pruning_witness :
  exists b,
    bbox_intersects Nested.bbox_min Nested.bbox_max 0 3 = Ok b /\
    (b = true <->
     boxes_overlap (0, 0, 0)%Q (10, 10, 10)%Q
       (21 # 2, 16 # 5, 17 # 10)%Q (107 # 10, 17 # 5, 19 # 10)%Q) /\
    (forall cands,
       candidate_comps_of Nested.bbox_min Nested.bbox_max 4 0 = Ok cands ->
       (3 ∈ cands <-> b = true)) /\
    (forall call,
       closest_facet_call Nested.V Nested.F Nested.bbox_min Nested.bbox_max
         [0; 4; 8; 12] 4 0 = Ok call ->
       match call with
       | None => True
       | Some (cands, queries) =>
           (3 ∈ cands <-> b = true) /\
           Forall2 (fun index q =>
                      exists f, [0; 4; 8; 12] !! index = Some f /\
                                get_triangle_center Nested.V Nested.F f = Ok q)
                   cands queries
       end).
Proof.
  apply (bbox_pruning Nested.V Nested.F Nested.bbox_min Nested.bbox_max
           [0; 4; 8; 12] 4 0 3).
  - reflexivity.
  - reflexivity.
  - reflexivity.
  - reflexivity.
  - lia.
  - lia.
Defined.

(** ** The sample arrangements, run *)

Example nested_arrangement_boxes :
  bounding_boxes Nested.V Nested.F Nested.P 4
    = Ok (Nested.bbox_min, Nested.bbox_max).
Proof. vm_compute. reflexivity. Qed.

Example nested_arrangement_candidates :
  mapM (candidate_comps_of Nested.bbox_min Nested.bbox_max 4) [0; 1; 2; 3]
    = Ok [[1; 2]; [0; 2; 3]; [0; 1; 3]; [1; 2]].
Proof. vm_compute. reflexivity. Qed.

Example fan_arrangement_cells :
  @extract_cells Fan.coll Fan.V Fan.F Fan.P Fan.E Fan.uE Fan.uE2E Fan.EMAP
    = Ok ([(0, 1); (2, 1); (2, 0)]%Z, 3%Z).
Proof. vm_compute. reflexivity. Qed.

Example nested_arrangement_cells :
  @extract_cells_faces Nested.coll Nested.V Nested.F
    = Ok ([(0, 1); (0, 1); (0, 1); (0, 1); (1, 2); (1, 2); (1, 2); (1, 2);
           (1, 3); (1, 3); (1, 3); (1, 3); (2, 4); (2, 4); (2, 4); (2, 4)]%Z,
          5%Z).
Proof. vm_compute. reflexivity. Qed.

(** * Further properties of the code *)

(** ** [is_consistent] *)

Lemma has_directed_edge_one_way (f : face) (s d : nat) :
  distinct_vertices f ->
  has_directed_edge f s d = true -> has_directed_edge f d s = false.
Proof.
  destruct f as [[f0 f1] f2]. unfold distinct_vertices, has_directed_edge.
  simpl. intros (H01 & H12 & H20) H.
  rewrite !orb_true_iff, !andb_true_iff, !Nat.eqb_eq in H.
  rewrite !orb_false_iff, !andb_false_iff, !Nat.eqb_neq.
  lia.
Qed.

(** Property X1.  [is_consistent], lines 344-356.  For a face with three
    different vertices the answer for the reversed edge [(d,s)] is the
    negation of the answer for [(s,d)], and the call throws for one exactly
    when it throws for the other. *)
Theorem is_consistent_reversed_edge (F : list face) (fid s d : nat)
    (f : face) :
  F !! fid = Some f ->
  distinct_vertices f ->
  is_consistent F fid d s = (b ← is_consistent F fid s d; Ok (negb b)).
Proof.
  intros Hf Hd.
  rewrite (is_consistent_cases F fid d s f Hf).
  rewrite (is_consistent_cases F fid s d f Hf).
  destruct (has_directed_edge f s d) eqn:Esd.
  - rewrite (has_directed_edge_one_way f s d Hd Esd). reflexivity.
  - destruct (has_directed_edge f d s); reflexivity.
Qed.

Lemma is_consistent_reversed_edge_witness :
  is_consistent Fan.F 1 1 0 = (b ← is_consistent Fan.F 1 0 1; Ok (negb b)).
Proof.
  apply (is_consistent_reversed_edge Fan.F 1 0 1 (1, 0, 3)).
  - reflexivity.
  - unfold distinct_vertices; simpl; lia.
Defined.

(** A face that repeats a vertex can hold an edge in both directions; the
    first of the six tests then decides, for either order of the
    arguments. *)
Example is_consistent_degenerate_face :
  is_consistent [(0, 1, 0)] 0 0 1 = Ok false /\
  is_consistent [(0, 1, 0)] 0 1 0 = Ok false.
Proof. split; reflexivity. Qed.

(** ** The edge cache *)

(** Invariant rule for a loop over a list that keeps track of the part
    of the list already walked. *)
Lemma foldM_prefix_invariant {St A} (I : list A -> St -> Prop)
    (f : St -> A -> result St) (l : list A) (s0 s : St) :
  (forall pre a s1 s2, I pre s1 -> f s1 a = Ok s2 -> I (pre ++ [a]) s2) ->
  I [] s0 -> foldM f l s0 = Ok s -> I l s.
Proof.
  intros Hstep.
  assert (G : forall l pre s0 s, I pre s0 -> foldM f l s0 = Ok s ->
                                 I (pre ++ l) s).
  { clear l s0 s. induction l as [|a l IH]; intros pre s0 s H0 Hf;
      simpl in Hf.
    - rewrite app_nil_r. congruence.
    - bind_inv Hf as s1 Hs1.
      replace (pre ++ a :: l) with ((pre ++ [a]) ++ l)
        by (rewrite <- app_assoc; reflexivity).
      eapply IH; [|exact Hf]. eapply Hstep; eauto. }
  intros H0 Hf. exact (G l [] s0 s H0 Hf).
Qed.

Lemma signed_index_decode (fid : nat) (cons : bool) :
  (Z.of_nat fid + 1 < 2 ^ 31)%Z ->
  (0 <? signed_index fid cons)%Z = cons /\
  Z.abs (signed_index fid cons) = (Z.of_nat fid + 1)%Z.
Proof.
  intros H. destruct cons.
  - rewrite signed_index_true by exact H. split; [apply Z.ltb_lt|]; lia.
  - rewrite signed_index_false by exact H. split; [apply Z.ltb_ge|]; lia.
Qed.

Section Cache.
Context {coll : Collaborators}.
Variable V : list point.
Variable F : list face.
Variable P : list nat.
Variable uE : list (nat * nat).
Variable uE2E : list (list nat).
Variable EMAP : list nat.

Lemma push_back_at_lookup {A} (v v' : list (list A)) (i : nat) (x : A) :
  push_back_at v i x = Ok v' ->
  length v' = length v /\
  forall p l', v' !! p = Some l' ->
    exists l, v !! p = Some l /\ l' = if decide (p = i) then l ++ [x] else l.
Proof.
  unfold push_back_at. intros H. bind_inv H as vi Hvi. ok_inv.
  split; [apply length_insert|].
  intros p l' Hl'. destruct (decide (p = i)) as [->|Hne].
  - rewrite list_lookup_insert_eq in Hl' by (eapply lookup_lt_Some; eauto).
    inversion Hl'; subst. eauto.
  - rewrite list_lookup_insert_ne in Hl' by congruence. eauto.
Qed.

Lemma cache_edge_patches (adj_faces : list nat) (pea pea' : list (list nat)) :
  foldM (fun pea ei =>
           fid ← edge_index_to_face_index F ei;
           p ← at_index P fid;
           push_back_at pea p ei) adj_faces pea = Ok pea' ->
  length pea' = length pea /\
  forall p l', pea' !! p = Some l' ->
    exists l, pea !! p = Some l /\
      forall ei, ei ∈ l' <->
        ei ∈ l \/ (ei ∈ adj_faces /\ num_faces F <> 0 /\
                   P !! (ei mod num_faces F) = Some p).
Proof.
  intros H.
  pose (I := fun (done : list nat) (q : list (list nat)) =>
    length q = length pea /\
    forall p l', q !! p = Some l' ->
      exists l, pea !! p = Some l /\
        forall ei, ei ∈ l' <->
          ei ∈ l \/ (ei ∈ done /\ num_faces F <> 0 /\
                     P !! (ei mod num_faces F) = Some p)).
  change (I adj_faces pea').
  eapply foldM_prefix_invariant; [| |exact H].
  - intros pre a q1 q2 [Hlen Hq1] Hstep. cbv beta in Hstep.
    bind_inv Hstep as fid Hfid. bind_inv Hstep as p0 Hp0.
    unfold edge_index_to_face_index in Hfid.
    destruct (num_faces F =? 0) eqn:Enf; [discriminate|].
    apply Nat.eqb_neq in Enf. ok_inv.
    destruct (push_back_at_lookup _ _ _ _ Hstep) as [Hlen2 Hq2].
    split; [congruence|].
    intros p l' Hl'. destruct (Hq2 p l' Hl') as (l1 & Hl1 & ->).
    destruct (Hq1 p l1 Hl1) as (l & Hl & Hiff). exists l. split; [exact Hl|].
    intros ei. destruct (decide (p = p0)) as [->|Hne].
    + rewrite elem_of_app, list_elem_of_singleton, (Hiff ei), elem_of_app,
        list_elem_of_singleton. split.
      * intros [[?|(? & ? & ?)]| ->]; auto 10.
      * intros [?|([?| ->] & ? & ?)]; auto 10.
    + rewrite (Hiff ei), elem_of_app, list_elem_of_singleton. split.
      * intros [?|(? & ? & ?)]; auto 10.
      * intros [?|([?| ->] & ? & ?)]; auto 10. congruence.
  - split; [reflexivity|]. intros p l' Hl'. exists l'. split; [exact Hl'|].
    intros ei. split; [auto|]. intros [?|(Hin & _)]; [assumption|].
    inversion Hin.
Qed.

Lemma cache_edge_inv (n k : nat) (c c' : edge_cache) :
  k < length uE ->
  cache_inv V F P uE uE2E n k c ->
  cache_edge V F P uE uE2E c k = Ok c' ->
  cache_inv V F P uE uE2E n (S k) c'.
Proof.
  intros Hk [Hlo Hlr Hlp Hrest Hman Hsorted Hadj]. unfold cache_edge.
  intros H. bind_inv H as sd Hsd. destruct sd as [s d].
  bind_inv H as adj_faces Hadjf. ok_inv.
  destruct (2 <? length adj_faces) eqn:E2.
  - apply Nat.ltb_lt in E2.
    bind_inv H as tags Htags. bind_inv H as orientation Hor.
    bind_inv H as order' Hord. bind_inv H as pea Hpea.
    inversion H; subst c'; clear H.
    destruct (cache_edge_patches _ _ _ Hpea) as [Hlen' Hpea'].
    constructor; simpl.
    + rewrite length_insert; exact Hlo.
    + rewrite length_insert; exact Hlr.
    + congruence.
    + intros i Hi Hil.
      rewrite !list_lookup_insert_ne by lia. apply Hrest; lia.
    + intros i adj Hi Hadji Hle.
      assert (i <> k) by (intros ->; rewrite Hadjf in Hadji;
                          inversion Hadji; subst; lia).
      rewrite !list_lookup_insert_ne by lia. eapply Hman; eauto; lia.
    + intros i s0 d0 adj Hi Hui Hadji Hlt.
      destruct (decide (i = k)) as [->|Hne].
      * rewrite Hsd in Hui. rewrite Hadjf in Hadji.
        inversion Hui; inversion Hadji; subst s0 d0 adj.
        exists tags, order', orientation.
        rewrite !list_lookup_insert_eq by lia.
        repeat split; try assumption; try reflexivity.
        -- apply mapM_Ok_Forall2 in Hord.
           eapply Forall2_impl; [exact Hord|].
           intros index ei Hx; simpl in Hx. ok_inv. exact Hx.
        -- apply mapM_Ok_Forall2 in Hor.
           eapply Forall2_impl; [exact Hor|].
           intros index b Hx; simpl in Hx. bind_inv Hx as t Ht. ok_inv.
           eauto.
      * rewrite !list_lookup_insert_ne by lia.
        eapply Hsorted; eauto; lia.
    + intros p l' Hl'. destruct (Hpea' p l' Hl') as (l & Hl & Hiff).
      intros ei. rewrite (Hiff ei), (Hadj p l Hl ei). split.
      * intros [(i & adj & ? & ? & ? & ? & ? & ? & ?)|(? & ? & ?)].
        -- exists i, adj. repeat split; auto; lia.
        -- exists k, adj_faces. repeat split; auto.
      * intros (i & adj & Hi & ? & Hadji & ? & ? & ? & ?).
        destruct (decide (i = k)) as [->|Hne].
        -- right. rewrite Hadjf in Hadji. inversion Hadji; subst adj. auto.
        -- left. exists i, adj. repeat split; auto; lia.
  - apply Nat.ltb_ge in E2. inversion H; subst c'; clear H.
    constructor; try assumption.
    + intros i Hi Hil. apply Hrest; lia.
    + intros i adj Hi Hadji Hle.
      destruct (decide (i = k)) as [->|Hne];
        [apply Hrest; lia|eapply Hman; eauto; lia].
    + intros i s0 d0 adj Hi Hui Hadji Hlt.
      assert (i <> k) by (intros ->; rewrite Hadjf in Hadji;
                          inversion Hadji; subst; lia).
      eapply Hsorted; eauto; lia.
    + intros p l Hl ei. rewrite (Hadj p l Hl ei). split.
      * intros (i & adj & ? & ? & ? & ? & ? & ? & ?).
        exists i, adj. repeat split; auto; lia.
      * intros (i & adj & Hi & ? & Hadji & ? & ? & ? & ?).
        assert (i <> k) by (intros ->; rewrite Hadjf in Hadji;
                            inversion Hadji; subst; lia).
        exists i, adj. repeat split; auto; lia.
Qed.

Lemma build_edge_cache_inv (n : nat) (c : edge_cache) :
  build_edge_cache V F P uE uE2E n = Ok c ->
  cache_inv V F P uE uE2E n (length uE) c.
Proof.
  unfold build_edge_cache. intros H.
  change (cache_inv V F P uE uE2E n (0 + length uE) c).
  eapply (foldM_seq_invariant (cache_inv V F P uE uE2E n)); [| |exact H].
  - intros i c1 c2 Hi Hinv Hstep. eapply cache_edge_inv; eauto; lia.
  - constructor; simpl.
    + apply length_replicate.
    + apply length_replicate.
    + apply length_replicate.
    + intros i _ Hi. rewrite !lookup_replicate_2 by lia. auto.
    + intros i adj Hi; lia.
    + intros i s d adj Hi; lia.
    + intros p l Hl ei. apply lookup_replicate in Hl as [-> _]. split.
      * intros Hin; inversion Hin.
      * intros (i & _ & Hi & _); lia.
Qed.
End Cache.

Lemma Forall2_common_source {A B C} (R : A -> B -> Prop) (Q : A -> C -> Prop)
    (l : list A) (a : list B) (b : list C) :
  Forall2 R l a -> Forall2 Q l b ->
  Forall2 (fun x y => exists k, R k x /\ Q k y) a b.
Proof.
  intros H. revert b. induction H as [|k x l a HR H IH]; intros b Hb.
  - inversion Hb; constructor.
  - inversion Hb as [|? y ? b' HQ Hb']; subst. constructor; eauto.
Qed.

Section CacheProperties.
Context {coll : Collaborators}.
Variable V : list point.
Variable F : list face.
Variable P : list nat.
Variable uE : list (nat * nat).
Variable uE2E : list (list nat).
Variable EMAP : list nat.

(** Property X2.  The edge cache, lines 374-422.  For a unique edge [(s,d)]
    with more than two incident half-edges (face numbers in the range of
    [int]), the cache holds the half-edges in the order the cyclic-ordering
    collaborator returned, and beside each of them the flag that
    [is_consistent] gave for its face: the sign put on the face number is
    read back unchanged. *)
Theorem edge_cache_flags_are_consistency (n : nat) (c : edge_cache)
    (i s d : nat) (adj_faces : list nat) :
  build_edge_cache V F P uE uE2E n = Ok c ->
  uE !! i = Some (s, d) ->
  uE2E !! i = Some adj_faces ->
  2 < length adj_faces ->
  (Z.of_nat (num_faces F) < 2 ^ 31)%Z ->
  exists signed_adj_faces order' orientation,
    signed_adj_faces_of F s d adj_faces = Ok signed_adj_faces /\
    orders c !! i = Some order' /\
    orientations c !! i = Some orientation /\
    Forall2 (fun index ei => adj_faces !! index = Some ei)
      (order_facets_around_edge V F s d signed_adj_faces) order' /\
    Forall2 (fun ei b =>
               ei ∈ adj_faces /\
               is_consistent F (ei mod num_faces F) s d = Ok b)
      order' orientation.
Proof.
  intros Hc Hi Hadj Hlen Hsmall.
  pose proof (build_edge_cache_inv V F P uE uE2E n c Hc) as Hinv.
  assert (Hil : i < length uE) by (eapply lookup_lt_Some; eauto).
  destruct (ch_sorted _ _ _ _ _ _ _ _ Hinv i s d adj_faces Hil Hi Hadj Hlen)
    as (tags & order' & orientation & Htags & Ho & Hr & Hord & Hflag).
  exists tags, order', orientation. repeat split; try assumption.
  eapply Forall2_impl;
    [exact (Forall2_common_source _ _ _ _ _ Hord Hflag)|].
  intros ei b (index & Hei & t & Ht & ->).
  split; [eapply list_elem_of_lookup_2; eauto|].
  unfold signed_adj_faces_of in Htags.
  destruct (mapM_Ok_lookup _ _ _ _ _ Htags Hei) as (t' & Ht' & Hsigned).
  assert (t' = t) by congruence; subst t'.
  unfold signed_adj_face in Hsigned.
  bind_inv Hsigned as fid Hfid. bind_inv Hsigned as cons Hcons.
  inversion Hsigned; subst t; clear Hsigned.
  unfold edge_index_to_face_index in Hfid.
  destruct (num_faces F =? 0) eqn:Enf; [discriminate|].
  apply Nat.eqb_neq in Enf. inversion Hfid; subst fid; clear Hfid.
  assert (Hlt : ei mod num_faces F < num_faces F)
    by (apply Nat.mod_upper_bound; exact Enf).
  destruct (signed_index_decode (ei mod num_faces F) cons) as [-> _]; [lia|].
  exact Hcons.
Qed.

(** Property X3.  The edge cache, lines 380 and 416-420.  After the loop
    over the unique edges, the list of a patch holds exactly the half-edges
    of the edges with more than two incident half-edges whose face lies on
    that patch.  A half-edge of an edge with one or two incident half-edges
    is listed nowhere, and such an edge keeps an empty order and empty
    flags. *)
Theorem patch_edge_adj_holds_non_manifold_edges (n : nat) (c : edge_cache) :
  build_edge_cache V F P uE uE2E n = Ok c ->
  length (patch_edge_adj c) = n /\
  (forall p l, patch_edge_adj c !! p = Some l ->
     forall ei, ei ∈ l <->
       exists i adj_faces, i < length uE /\
         uE2E !! i = Some adj_faces /\ 2 < length adj_faces /\
         ei ∈ adj_faces /\ num_faces F <> 0 /\
         P !! (ei mod num_faces F) = Some p) /\
  (forall i adj_faces, i < length uE ->
     uE2E !! i = Some adj_faces -> length adj_faces <= 2 ->
     orders c !! i = Some [] /\ orientations c !! i = Some []).
Proof.
  intros Hc.
  pose proof (build_edge_cache_inv V F P uE uE2E n c Hc) as Hinv.
  destruct Hinv as [_ _ Hlp _ Hman _ Hadj].
  split; [exact Hlp|]. split.
  - intros p l Hl ei. rewrite (Hadj p l Hl ei). split.
    + intros (i & adj & _ & ? & ? & ? & ? & ? & ?). eauto 10.
    + intros (i & adj & ? & ? & ? & ? & ? & ?). exists i, adj. auto 10.
  - intros i adj Hi. apply Hman; exact Hi.
Qed.
End CacheProperties.

Lemma edge_cache_flags_are_consistency_witness :
  exists signed_adj_faces order' orientation,
    signed_adj_faces_of Fan.F 0 1 [6; 7; 8] = Ok signed_adj_faces /\
    orders {| patch_edge_adj := [[6]; [7]; [8]];
              orders := [[]; []; []; []; []; []; [6; 7; 8]];
              orientations := [[]; []; []; []; []; []; [false; true; false]]
           |} !! 6 = Some order' /\
    orientations {| patch_edge_adj := [[6]; [7]; [8]];
              orders := [[]; []; []; []; []; []; [6; 7; 8]];
              orientations := [[]; []; []; []; []; []; [false; true; false]]
           |} !! 6 = Some orientation /\
    Forall2 (fun index ei => [6; 7; 8] !! index = Some ei)
      (@order_facets_around_edge Fan.coll Fan.V Fan.F 0 1 signed_adj_faces)
      order' /\
    Forall2 (fun ei b =>
               ei ∈ [6; 7; 8] /\
               is_consistent Fan.F (ei mod num_faces Fan.F) 0 1 = Ok b)
      order' orientation.
Proof.
  apply (@edge_cache_flags_are_consistency Fan.coll Fan.V Fan.F Fan.P Fan.uE
           Fan.uE2E 3 _ 6 0 1 [6; 7; 8]).
  - reflexivity.
  - reflexivity.
  - reflexivity.
  - simpl; lia.
  - simpl; lia.
Defined.

Lemma patch_edge_adj_holds_non_manifold_edges_witness :
  length [[6]; [7]; [8]] = 3 /\
  (forall p l, [[6]; [7]; [8]] !! p = Some l ->
     forall ei, ei ∈ l <->
       exists i adj_faces, i < length Fan.uE /\
         Fan.uE2E !! i = Some adj_faces /\ 2 < length adj_faces /\
         ei ∈ adj_faces /\ num_faces Fan.F <> 0 /\
         Fan.P !! (ei mod num_faces Fan.F) = Some p) /\
  (forall i adj_faces, i < length Fan.uE ->
     Fan.uE2E !! i = Some adj_faces -> length adj_faces <= 2 ->
     [[]; []; []; []; []; []; [6; 7; 8]] !! i = Some [] /\
     [[]; []; []; []; []; []; [false; true; false]] !! i = Some []).
Proof.
  apply (@patch_edge_adj_holds_non_manifold_edges Fan.coll Fan.V Fan.F Fan.P
           Fan.uE Fan.uE2E 3
           {| patch_edge_adj := [[6]; [7]; [8]];
              orders := [[]; []; []; []; []; []; [6; 7; 8]];
              orientations := [[]; []; []; []; []; []; [false; true; false]]
           |}).
  reflexivity.
Defined.

(** ** A mesh without non-manifold edges *)

(** A counted loop whose states are known in advance. *)
Lemma foldM_seq_states {St} (f : St -> nat -> result St) (g : nat -> St)
    (a n : nat) :
  (forall i, a <= i < a + n -> f (g i) i = Ok (g (S i))) ->
  foldM f (seq a n) (g a) = Ok (g (a + n)).
Proof.
  revert a; induction n as [|n IH]; intros a Hstep; simpl.
  - rewrite Nat.add_0_r; reflexivity.
  - rewrite Hstep by lia. simpl.
    replace (a + S n) with (S a + n) by lia.
    apply IH. intros i Hi; apply Hstep; lia.
Qed.

Section ManifoldOnly.
Context {coll : Collaborators}.
Variable V : list point.
Variable F : list face.
Variable P : list nat.
Variable uE : list (nat * nat).
Variable uE2E : list (list nat).
Variable EMAP : list nat.

Lemma build_edge_cache_manifold (n : nat) :
  length uE <= length uE2E ->
  Forall (fun adj_faces : list nat => length adj_faces <= 2) uE2E ->
  build_edge_cache V F P uE uE2E n
    = Ok {| patch_edge_adj := replicate n [];
            orders := replicate (length uE) [];
            orientations := replicate (length uE) [] |}.
Proof.
  intros Hlen Hman. unfold build_edge_cache.
  generalize {| patch_edge_adj := replicate n ([] : list nat);
                orders := replicate (length uE) [];
                orientations := replicate (length uE) [] |}.
  intros c0.
  assert (G : forall l, Forall (fun i => i < length uE) l ->
                        foldM (cache_edge V F P uE uE2E) l c0 = Ok c0).
  { induction l as [|i l IH]; intros Hl; simpl; [reflexivity|].
    inversion Hl as [|? ? Hi Hl']; subst.
    assert (Hstep : cache_edge V F P uE uE2E c0 i = Ok c0).
    { unfold cache_edge, at_index.
      destruct (lookup_lt_is_Some_2 uE i Hi) as [[s d] Hsd].
      destruct (lookup_lt_is_Some_2 uE2E i ltac:(lia)) as [adj Hadj].
      rewrite Hsd, Hadj. simpl.
      rewrite Forall_forall in Hman.
      pose proof (Hman adj (list_elem_of_lookup_2 _ _ _ Hadj)) as Hle.
      apply Nat.ltb_ge in Hle. rewrite Hle. reflexivity. }
    rewrite Hstep. simpl. apply IH; exact Hl'. }
  apply G. apply Forall_forall. intros i Hi.
  apply elem_of_seq in Hi. lia.
Qed.

Lemma peel_loop_no_edges (fuel : nat) (c : edge_cache) (cell_idx : Z)
    (p : nat) (side : Z) (cells : cell_matrix) (vs : list peel_visit) :
  patch_edge_adj c !! p = Some [] ->
  peel_loop F P EMAP (S fuel) c cell_idx
    {| queue := [(p, side)]; labels := cells; visits := vs |}
  = Ok {| queue := []; labels := cells; visits := vs |}.
Proof.
  intros Hp. simpl. unfold at_index. rewrite Hp. simpl.
  destruct fuel; reflexivity.
Qed.

Lemma peel_cell_bd_no_edges (c : edge_cache) (p : nat) (side cell_idx : Z)
    (cells cells' : cell_matrix) (vs : list peel_visit) :
  patch_edge_adj c !! p = Some [] ->
  set_coeff cells p side (to_int cell_idx) = Ok cells' ->
  peel_cell_bd F P EMAP c p side cell_idx cells vs = Ok (cells', vs).
Proof.
  intros Hp Hset. unfold peel_cell_bd. rewrite Hset.
  change (Ok cells' ≫= ?k) with (k cells'). cbv beta.
  rewrite (peel_loop_no_edges _ c cell_idx p side cells' vs Hp).
  reflexivity.
Qed.

(** The matrix of the sweep when [k] of [n] patches are done. *)
Let cells_upto (n k : nat) : cell_matrix :=
  map (fun i => (2 * Z.of_nat i, 2 * Z.of_nat i + 1)%Z) (seq 0 k) ++
  replicate (n - k) (INVALID, INVALID).

Lemma cells_upto_lookup (n k : nat) :
  k < n -> cells_upto n k !! k = Some (INVALID, INVALID).
Proof.
  intros Hk. unfold cells_upto.
  rewrite lookup_app_r by (rewrite length_map, length_seq; lia).
  rewrite length_map, length_seq, Nat.sub_diag.
  apply lookup_replicate_2; lia.
Qed.

Lemma cells_upto_insert (n k : nat) (row : Z * Z) :
  k < n ->
  <[k := row]> (cells_upto n k)
  = map (fun i => (2 * Z.of_nat i, 2 * Z.of_nat i + 1)%Z) (seq 0 k) ++
    row :: replicate (n - S k) (INVALID, INVALID).
Proof.
  intros Hk. unfold cells_upto.
  rewrite insert_app_r_alt by (rewrite length_map, length_seq; lia).
  rewrite length_map, length_seq, Nat.sub_diag.
  replace (n - k) with (S (n - S k)) by lia. reflexivity.
Qed.

Lemma sweep_side_fresh (c : edge_cache) (i : nat) (side : Z)
    (s : sweep_state) (cells' : cell_matrix) :
  patch_edge_adj c !! i = Some [] ->
  coeff (sw_cells s) i side = Ok INVALID ->
  set_coeff (sw_cells s) i side (to_int (sw_count s)) = Ok cells' ->
  sweep_side F P EMAP c i side s
  = Ok {| sw_cells := cells'; sw_count := (sw_count s + 1)%Z;
          sw_visits := sw_visits s |}.
Proof.
  intros Hp Hx Hset. unfold sweep_side. rewrite Hx.
  change (Ok INVALID ≫= ?k) with (k INVALID). cbv beta.
  rewrite Z.eqb_refl.
  rewrite (peel_cell_bd_no_edges c i side (sw_count s) (sw_cells s) cells'
             (sw_visits s) Hp Hset).
  reflexivity.
Qed.

Lemma sweep_patch_manifold (c : edge_cache) (n k : nat) :
  patch_edge_adj c = replicate n [] ->
  (2 * Z.of_nat n < INT_MAX)%Z ->
  k < n ->
  sweep_patch F P EMAP c
    {| sw_cells := cells_upto n k; sw_count := (2 * Z.of_nat k)%Z;
       sw_visits := [] |} k
  = Ok {| sw_cells := cells_upto n (S k);
          sw_count := (2 * Z.of_nat (S k))%Z; sw_visits := [] |}.
Proof.
  intros Hpea Hsmall Hk.
  assert (Hp : patch_edge_adj c !! k = Some [])
    by (rewrite Hpea; apply lookup_replicate_2; exact Hk).
  assert (HM : INT_MAX = (2 ^ 31 - 1)%Z) by reflexivity.
  pose proof (cells_upto_lookup n k Hk) as Hrow0.
  assert (Hrow1 : <[k := (2 * Z.of_nat k, INVALID)%Z]> (cells_upto n k) !! k
                  = Some (2 * Z.of_nat k, INVALID)%Z).
  { apply list_lookup_insert_eq. eapply lookup_lt_Some; exact Hrow0. }
  unfold sweep_patch.
  rewrite (sweep_side_fresh c k 0 _
             (<[k := (2 * Z.of_nat k, INVALID)%Z]> (cells_upto n k)) Hp).
  - change (Ok ?s ≫= ?f) with (f s). cbv beta.
    rewrite (sweep_side_fresh c k 1 _
               (<[k := (2 * Z.of_nat k, 2 * Z.of_nat k + 1)%Z]>
                  (cells_upto n k)) Hp).
    + cbn [sw_count sw_visits]. f_equal. f_equal.
      * rewrite (cells_upto_insert n k _ Hk). unfold cells_upto.
        rewrite seq_S, map_app. cbn [map]. rewrite <- app_assoc.
        reflexivity.
      * lia.
    + cbn [sw_cells]. unfold coeff, at_index. rewrite Hrow1. reflexivity.
    + cbn [sw_cells sw_count]. unfold set_coeff, at_index. rewrite Hrow1.
      cbn [mbind result_bind]. cbn [Z.eqb fst snd].
      rewrite to_int_small by lia. rewrite list_insert_insert_eq.
      reflexivity.
  - cbn [sw_cells]. unfold coeff, at_index. rewrite Hrow0. reflexivity.
  - cbn [sw_cells sw_count]. unfold set_coeff, at_index. rewrite Hrow0.
    cbn [mbind result_bind]. cbn [Z.eqb fst snd].
    rewrite to_int_small by lia. reflexivity.
Qed.

(** Property X4.  [extract_cells_single_component] on a mesh where no unique
    edge has more than two incident half-edges (lines 380 and 523-541).
    Nothing is sorted and no peel leaves its seed: patch [i] gets the cells
    [2i] and [2i+1] and the count is twice the number of patches. *)
Theorem manifold_mesh_gets_two_cells_per_patch (m : nat) :
  maxCoeff P = Ok m ->
  (2 * Z.of_nat (m + 1) < INT_MAX)%Z ->
  length uE <= length uE2E ->
  Forall (fun adj_faces : list nat => length adj_faces <= 2) uE2E ->
  extract_cells_single_component V F P uE uE2E EMAP
    = Ok (map (fun i => (2 * Z.of_nat i, 2 * Z.of_nat i + 1)%Z)
            (seq 0 (m + 1)),
          (2 * Z.of_nat (m + 1))%Z).
Proof.
  intros Hm Hsmall Hlen Hman.
  unfold extract_cells_single_component, single_component_run.
  rewrite Hm. simpl.
  rewrite (build_edge_cache_manifold (m + 1) Hlen Hman). simpl.
  pose (c0 := {| patch_edge_adj := replicate (m + 1) ([] : list nat);
                 orders := replicate (length uE) [];
                 orientations := replicate (length uE) [] |}).
  pose (g := fun k => {| sw_cells := cells_upto (m + 1) k;
                         sw_count := (2 * Z.of_nat k)%Z;
                         sw_visits := [] |}).
  assert (Hfold : foldM (sweep_patch F P EMAP c0) (seq 0 (m + 1)) (g 0)
                  = Ok (g (0 + (m + 1)))).
  { apply foldM_seq_states. intros i Hi. unfold g.
    apply sweep_patch_manifold; [reflexivity|exact Hsmall|lia]. }
  assert (Hg0 : g 0 = {| sw_cells := replicate (m + 1) (INVALID, INVALID);
                         sw_count := 0%Z; sw_visits := [] |}).
  { unfold g, cells_upto. rewrite Nat.sub_0_r. reflexivity. }
  rewrite Hg0 in Hfold. fold c0. rewrite Hfold.
  unfold g, cells_upto. cbn [mbind result_bind sw_cells sw_count].
  rewrite Nat.add_0_l, Nat.sub_diag. cbn [replicate].
  rewrite app_nil_r. reflexivity.
Qed.
End ManifoldOnly.

Lemma manifold_mesh_gets_two_cells_per_patch_witness :
  @extract_cells_single_component Nested.coll Nested.V Nested.F Nested.P
    Nested.uE Nested.uE2E Nested.EMAP
    = Ok (map (fun i => (2 * Z.of_nat i, 2 * Z.of_nat i + 1)%Z) (seq 0 (3 + 1)),
          (2 * Z.of_nat (3 + 1))%Z).
Proof.
  apply (@manifold_mesh_gets_two_cells_per_patch Nested.coll Nested.V
           Nested.F Nested.P Nested.uE Nested.uE2E Nested.EMAP 3).
  - reflexivity.
  - vm_compute. reflexivity.
  - vm_compute. lia.
  - vm_compute. repeat constructor.
Defined.

(** ** The peel *)

(** *** The search for the half-edge and the step around the edge *)

Lemma find_edge_le (ei : nat) (order : list nat) :
  find_edge ei order <= length order.
Proof. induction order as [|e order IH]; simpl; [lia|]. destruct (e =? ei); lia. Qed.

Lemma find_edge_found (ei : nat) (order : list nat) :
  find_edge ei order < length order <-> ei ∈ order.
Proof.
  induction order as [|e order IH]; simpl.
  - split; [lia|intros H; inversion H].
  - destruct (e =? ei) eqn:E.
    + apply Nat.eqb_eq in E; subst e. split; [intros _; left|lia].
    + apply Nat.eqb_neq in E. rewrite elem_of_cons, <- IH. split.
      * intros H; right; lia.
      * intros [->|H]; [congruence|lia].
Qed.

Lemma find_edge_lookup (ei : nat) (order : list nat) :
  ei ∈ order -> order !! find_edge ei order = Some ei.
Proof.
  induction order as [|e order IH]; simpl; intros H; [inversion H|].
  destruct (e =? ei) eqn:E.
  - apply Nat.eqb_eq in E; subst e. reflexivity.
  - apply Nat.eqb_neq in E. apply elem_of_cons in H as [->|H]; [congruence|].
    simpl. apply IH; exact H.
Qed.

Lemma find_edge_position (ei k : nat) (order : list nat) :
  NoDup order -> order !! k = Some ei -> find_edge ei order = k.
Proof.
  intros Hnd Hk.
  assert (Hin : ei ∈ order) by (eapply list_elem_of_lookup_2; eauto).
  pose proof (find_edge_lookup ei order Hin) as Hf.
  eapply NoDup_lookup; eauto.
Qed.

Lemma mod_step_forth_back (i n : nat) :
  i < n -> ((i + 1) mod n + n - 1) mod n = i.
Proof.
  intros Hi. destruct (decide (i + 1 = n)) as [E|E].
  - rewrite E, Nat.Div0.mod_same. simpl. rewrite Nat.mod_small by lia. lia.
  - rewrite (Nat.mod_small (i + 1)) by lia.
    replace (i + 1 + n - 1) with (i + 1 * n) by lia.
    rewrite Nat.Div0.mod_add. apply Nat.mod_small; lia.
Qed.

Lemma mod_step_back_forth (i n : nat) :
  i < n -> ((i + n - 1) mod n + 1) mod n = i.
Proof.
  intros Hi. destruct (decide (i = 0)) as [->|E].
  - simpl. rewrite (Nat.mod_small (n - 1)) by lia.
    replace (n - 1 + 1) with n by lia. rewrite Nat.Div0.mod_same. reflexivity.
  - replace (i + n - 1) with (i - 1 + 1 * n) by lia.
    rewrite Nat.Div0.mod_add. rewrite (Nat.mod_small (i - 1)) by lia.
    replace (i - 1 + 1) with i by lia. apply Nat.mod_small; lia.
Qed.

Lemma next_index_lt (side : Z) (cons : bool) (i n : nat) :
  0 < n -> next_index side cons i n < n.
Proof.
  intros Hn. unfold next_index.
  destruct (side =? 0)%Z, cons; apply Nat.mod_upper_bound; lia.
Qed.

(** The step from the neighbour, on the side the peel labels there, leads
    back. *)
Lemma next_index_back (side : Z) (cons next_cons : bool) (i n : nat) :
  (side = 0 \/ side = 1)%Z -> i < n ->
  next_index (next_patch_side_of side cons next_cons) next_cons
    (next_index side cons i n) n = i.
Proof.
  intros Hside Hi. unfold next_index, next_patch_side_of.
  destruct Hside as [-> | ->], cons, next_cons; simpl;
    auto using mod_step_forth_back, mod_step_back_forth.
Qed.

Lemma next_patch_side_of_back (side : Z) (cons next_cons : bool) :
  (side = 0 \/ side = 1)%Z ->
  next_patch_side_of (next_patch_side_of side cons next_cons) next_cons cons
  = side.
Proof.
  unfold next_patch_side_of.
  intros [-> | ->]; destruct cons, next_cons; reflexivity.
Qed.

Section PeelStep.
Variable F : list face.
Variable P : list nat.
Variable EMAP : list nat.
Variable c : edge_cache.

(** Property X5.  [peel_cell_bd], lines 471-506.  The step around an edge
    can be taken back: when the half-edge [ei], looked at from [side] of its
    patch, leads to the half-edge [next_ei] and to [next_side] of the patch
    of that one, then [next_ei], looked at from [next_side], leads to the
    patch of [ei] and to [side], with the two flags exchanged.  (The order
    around the edge lists no half-edge twice.) *)
Theorem peel_step_leads_back (side : Z) (ei uei : nat) (order : list nat)
    (cons next_cons : bool) (next_patch_id : nat) (next_patch_side : Z)
    (next_ei patch_id : nat) :
  (side = 0 \/ side = 1)%Z ->
  EMAP !! ei = Some uei ->
  orders c !! uei = Some order ->
  NoDup order ->
  peel_neighbor F P EMAP c side ei
    = Ok (cons, next_cons, next_patch_id, next_patch_side) ->
  order !! next_index side cons (find_edge ei order) (length order)
    = Some next_ei ->
  EMAP !! next_ei = Some uei ->
  P !! (ei mod num_faces F) = Some patch_id ->
  peel_neighbor F P EMAP c next_patch_side next_ei
    = Ok (next_cons, cons, patch_id, side).
Proof.
  intros Hside Huei Horder Hnd Hrun Hnext Hnuei Hpatch.
  unfold peel_neighbor in Hrun.
  bind_inv Hrun as uei0 Huei0. bind_inv Hrun as order0 Horder0.
  bind_inv Hrun as orientation Hor. bind_inv Hrun as u Hfound.
  bind_inv Hrun as cons0 Hcons. bind_inv Hrun as next_ei0 Hnei.
  bind_inv Hrun as next_cons0 Hnc. bind_inv Hrun as fid Hfid.
  bind_inv Hrun as np Hnp. ok_inv.
  assert (uei0 = uei) by congruence; subst uei0.
  assert (order0 = order) by congruence; subst order0.
  apply Nat.ltb_lt in Hfound.
  assert (next_ei0 = next_ei) by congruence; subst next_ei0.
  set (n := length order) in *.
  set (curr_i := find_edge ei order) in *.
  set (next := next_index side cons curr_i n) in *.
  assert (Hfn : find_edge next_ei order = next)
    by (apply find_edge_position; assumption).
  assert (Hback : next_index (next_patch_side_of side cons next_cons)
                    next_cons next n = curr_i)
    by (apply next_index_back; assumption).
  assert (Hei : order !! curr_i = Some ei)
    by (apply find_edge_lookup, find_edge_found; exact Hfound).
  assert (Hnf : num_faces F <> 0).
  { unfold edge_index_to_face_index in Hfid.
    destruct (num_faces F =? 0) eqn:E; [discriminate|].
    apply Nat.eqb_neq; exact E. }
  unfold peel_neighbor, at_index.
  rewrite Hnuei. cbn [mbind result_bind]. rewrite Horder, Hor.
  cbn [mbind result_bind]. fold n. rewrite Hfn.
  assert (Hnlt : (next <? n) = true)
    by (apply Nat.ltb_lt, next_index_lt; lia).
  rewrite Hnlt. cbn [assert mbind result_bind].
  rewrite Hnc. cbn [mbind result_bind].
  rewrite Hback, Hei, Hcons. cbn [mbind result_bind].
  unfold edge_index_to_face_index.
  apply Nat.eqb_neq in Hnf. rewrite Hnf. cbn [mbind result_bind].
  rewrite Hpatch. cbn [mbind result_bind].
  rewrite next_patch_side_of_back by exact Hside. reflexivity.
Qed.

(** Property X6.  [peel_cell_bd], lines 478-483.  With the tables of the
    edge in place, the assertion of the linear search fails exactly when the
    half-edge is not in the order stored for its edge. *)
Theorem peel_fails_on_unlisted_edge (side : Z) (ei uei : nat)
    (order : list nat) (orientation : list bool) :
  EMAP !! ei = Some uei ->
  orders c !! uei = Some order ->
  orientations c !! uei = Some orientation ->
  (peel_neighbor F P EMAP c side ei
     = Err (AssertionFailed "Failed to find edge.")
   <-> ei ∉ order).
Proof.
  intros Huei Horder Hor. unfold peel_neighbor, at_index.
  rewrite Huei. cbn [mbind result_bind]. rewrite Horder, Hor.
  cbn [mbind result_bind].
  rewrite <- find_edge_found.
  destruct (find_edge ei order <? length order) eqn:E.
  - apply Nat.ltb_lt in E. cbn [assert mbind result_bind]. split; [|lia].
    intros H. exfalso.
    destruct (orientation !! find_edge ei order); [|discriminate H].
    cbn [mbind result_bind] in H.
    destruct (order !! _); [|discriminate H]. cbn [mbind result_bind] in H.
    destruct (orientation !! _); [|discriminate H].
    cbn [mbind result_bind] in H.
    unfold edge_index_to_face_index in H.
    destruct (num_faces F =? 0); [discriminate H|].
    cbn [mbind result_bind] in H.
    destruct (P !! _); discriminate H.
  - apply Nat.ltb_ge in E. cbn [assert mbind result_bind].
    split; [lia|reflexivity].
Qed.
End PeelStep.

Lemma peel_step_leads_back_witness :
  peel_neighbor Fan.F Fan.P Fan.EMAP
    {| patch_edge_adj := [[6]; [7]; [8]];
       orders := [[]; []; []; []; []; []; [6; 7; 8]];
       orientations := [[]; []; []; []; []; []; [false; true; false]] |}
    1%Z 8
  = Ok (false, false, 0, 0%Z).
Proof.
  apply (peel_step_leads_back Fan.F Fan.P Fan.EMAP _ 0%Z 6 6 [6; 7; 8]
           false false 2 1%Z 8 0).
  - left; reflexivity.
  - reflexivity.
  - reflexivity.
  - apply NoDup_ListNoDup. repeat constructor; simpl; lia.
  - reflexivity.
  - reflexivity.
  - reflexivity.
  - reflexivity.
Defined.

Lemma peel_fails_on_unlisted_edge_witness :
  peel_neighbor Fan.F Fan.P Fan.EMAP
    {| patch_edge_adj := [[6]; [7]; [8]];
       orders := [[]; []; []; []; []; []; [6; 7]];
       orientations := [[]; []; []; []; []; []; [false; true]] |}
    0%Z 8
  = Err (AssertionFailed "Failed to find edge.")
  <-> 8 ∉ [6; 7].
Proof.
  apply (peel_fails_on_unlisted_edge Fan.F Fan.P Fan.EMAP _ 0%Z 8 6 [6; 7]
           [false; true]); reflexivity.
Defined.

(** *** The log of visits is a ghost *)

Section Ghost.
Variable F : list face.
Variable P : list nat.
Variable EMAP : list nat.
Variable c : edge_cache.

(** Two runs that differ in the log only. *)
Let same_run (r1 r2 : result peel_state) : Prop :=
  match r1, r2 with
  | Ok st1, Ok st2 => queue st1 = queue st2 /\ labels st1 = labels st2
  | Err e1, Err e2 => e1 = e2
  | _, _ => False
  end.

Lemma peel_edge_ghost (cell_idx : Z) (patch_id : nat) (side : Z)
    (st1 st2 : peel_state) (ei : nat) :
  queue st1 = queue st2 -> labels st1 = labels st2 ->
  same_run (peel_edge F P EMAP c cell_idx patch_id side st1 ei)
           (peel_edge F P EMAP c cell_idx patch_id side st2 ei).
Proof.
  intros HQ HL. unfold peel_edge. rewrite HQ, HL.
  destruct (peel_neighbor F P EMAP c side ei) as [nb|e]; [|reflexivity].
  cbn [mbind result_bind].
  destruct (coeff (labels st2) nb.1.2 nb.2) as [seen|e]; [|reflexivity].
  cbn [mbind result_bind].
  destruct (seen =? INVALID)%Z.
  - destruct (set_coeff _ _ _ _) as [cells'|e]; [|reflexivity].
    cbn [mbind result_bind]. split; reflexivity.
  - destruct (assert _ _) as [u|e]; [|reflexivity].
    cbn [mbind result_bind]. split; reflexivity.
Qed.

Lemma peel_edges_ghost (cell_idx : Z) (patch_id : nat) (side : Z)
    (l : list nat) (st1 st2 : peel_state) :
  queue st1 = queue st2 -> labels st1 = labels st2 ->
  same_run (foldM (peel_edge F P EMAP c cell_idx patch_id side) l st1)
           (foldM (peel_edge F P EMAP c cell_idx patch_id side) l st2).
Proof.
  revert st1 st2. induction l as [|ei l IH]; intros st1 st2 HQ HL; simpl.
  - split; assumption.
  - pose proof (peel_edge_ghost cell_idx patch_id side st1 st2 ei HQ HL) as H.
    destruct (peel_edge F P EMAP c cell_idx patch_id side st1 ei) as [a|e1],
             (peel_edge F P EMAP c cell_idx patch_id side st2 ei) as [b|e2];
      simpl in H; try contradiction.
    + destruct H. apply IH; assumption.
    + exact H.
Qed.

Lemma peel_loop_ghost (fuel : nat) (cell_idx : Z) (st1 st2 : peel_state) :
  queue st1 = queue st2 -> labels st1 = labels st2 ->
  same_run (peel_loop F P EMAP fuel c cell_idx st1)
           (peel_loop F P EMAP fuel c cell_idx st2).
Proof.
  revert st1 st2. induction fuel as [|fuel IH]; intros st1 st2 HQ HL; simpl;
    rewrite HQ; destruct (queue st2) as [|[patch_id side] Q'] eqn:EQ.
  - split; congruence.
  - reflexivity.
  - split; congruence.
  - destruct (at_index (patch_edge_adj c) patch_id) as [adj|e];
      [|reflexivity].
    cbn [mbind result_bind].
    pose proof (peel_edges_ghost cell_idx patch_id side adj
                  {| queue := Q'; labels := labels st1; visits := visits st1 |}
                  {| queue := Q'; labels := labels st2; visits := visits st2 |}
                  eq_refl HL) as H.
    destruct (foldM _ adj {| queue := Q'; labels := labels st1;
                             visits := visits st1 |}) as [a|e1],
             (foldM _ adj {| queue := Q'; labels := labels st2;
                             visits := visits st2 |}) as [b|e2];
      simpl in H; try contradiction.
    + destruct H. apply IH; assumption.
    + exact H.
Qed.

(** The labels that a peel writes do not depend on the log it is given. *)
Lemma peel_cell_bd_ghost (seed_patch_id : nat) (seed_patch_side cell_idx : Z)
    (cells cells' : cell_matrix) (vs vs' ws : list peel_visit) :
  peel_cell_bd F P EMAP c seed_patch_id seed_patch_side cell_idx cells vs
    = Ok (cells', vs') ->
  exists ws',
    peel_cell_bd F P EMAP c seed_patch_id seed_patch_side cell_idx cells ws
      = Ok (cells', ws').
Proof.
  unfold peel_cell_bd. intros H. bind_inv H as cells1 Hset.
  bind_inv H as st Hst. inversion H; subst cells' vs'; clear H.
  rewrite Hset. cbn [mbind result_bind].
  pose proof (peel_loop_ghost (S (2 * length cells)) cell_idx
                {| queue := [(seed_patch_id, seed_patch_side)];
                   labels := cells1; visits := vs |}
                {| queue := [(seed_patch_id, seed_patch_side)];
                   labels := cells1; visits := ws |} eq_refl eq_refl) as G.
  rewrite Hst in G.
  destruct (peel_loop F P EMAP (S (2 * length cells)) c cell_idx
              {| queue := [(seed_patch_id, seed_patch_side)];
                 labels := cells1; visits := ws |}) as [st2|e];
    simpl in G; [|contradiction].
  destruct G as [_ ->]. cbn [mbind result_bind]. eauto.
Qed.

(** Property X7.  [peel_cell_bd], lines 456 and 509-518.  A peel that
    returns has given its cell id to the seed, has turned only unlabelled
    entries into that cell id, and has left every entry that was labelled as
    it was. *)
Theorem peel_only_labels_unlabelled (seed_patch_id : nat)
    (seed_patch_side cell_idx : Z) (cells cells' : cell_matrix)
    (vs vs' : list peel_visit) :
  (seed_patch_side = 0 \/ seed_patch_side = 1)%Z ->
  coeff cells seed_patch_id seed_patch_side = Ok INVALID ->
  peel_cell_bd F P EMAP c seed_patch_id seed_patch_side cell_idx cells vs
    = Ok (cells', vs') ->
  length cells' = length cells /\
  coeff cells' seed_patch_id seed_patch_side = Ok (to_int cell_idx) /\
  (forall p side x, coeff cells p side = Ok x -> x <> INVALID ->
     coeff cells' p side = Ok x) /\
  (forall p side x, coeff cells' p side = Ok x ->
     coeff cells p side = Ok x \/
     (coeff cells p side = Ok INVALID /\ x = to_int cell_idx)).
Proof.
  intros Hside Hseed Hrun.
  destruct (peel_cell_bd_ghost _ _ _ _ _ _ _ [] Hrun) as [ws' Hrun0].
  destruct (peel_cell_bd_ok F P EMAP c _ _ _ _ _ _ _ Hside Hseed
              (Forall_nil_2 _) Hrun0) as (_ & [Hlen Hg] & Hs).
  split; [exact Hlen|]. split; [exact Hs|]. split.
  - intros p side x Hx Hne. destruct (Hg p side) as [E|[E _]]; congruence.
  - intros p side x Hx. destruct (Hg p side) as [E|[E1 E2]].
    + left; congruence.
    + right. split; [exact E1|congruence].
Qed.
End Ghost.

Lemma peel_only_labels_unlabelled_witness :
  length [(0, INVALID); (INVALID, INVALID); (INVALID, 0)]%Z
    = length [(INVALID, INVALID); (INVALID, INVALID); (INVALID, INVALID)] /\
  coeff [(0, INVALID); (INVALID, INVALID); (INVALID, 0)]%Z 0 0%Z
    = Ok (to_int 0) /\
  (forall p side x,
     coeff [(INVALID, INVALID); (INVALID, INVALID); (INVALID, INVALID)]
       p side = Ok x -> x <> INVALID ->
     coeff [(0, INVALID); (INVALID, INVALID); (INVALID, 0)]%Z p side = Ok x) /\
  (forall p side x,
     coeff [(0, INVALID); (INVALID, INVALID); (INVALID, 0)]%Z p side = Ok x ->
     coeff [(INVALID, INVALID); (INVALID, INVALID); (INVALID, INVALID)]
       p side = Ok x \/
     (coeff [(INVALID, INVALID); (INVALID, INVALID); (INVALID, INVALID)]
        p side = Ok INVALID /\ x = to_int 0)).
Proof.
  apply (peel_only_labels_unlabelled Fan.F Fan.P Fan.EMAP
           {| patch_edge_adj := [[6]; [7]; [8]];
              orders := [[]; []; []; []; []; []; [6; 7; 8]];
              orientations := [[]; []; []; []; []; []; [false; true; false]]
           |} 0 0%Z 0%Z
           [(INVALID, INVALID); (INVALID, INVALID); (INVALID, INVALID)]
           [(0, INVALID); (INVALID, INVALID); (INVALID, 0)]%Z []
           [{| pv_cell := 0; pv_patch := 0; pv_side := 0; pv_edge := 6;
               pv_cons := false; pv_next_cons := false; pv_next_patch := 2;
               pv_next_side := 1; pv_seen := INVALID |};
            {| pv_cell := 0; pv_patch := 2; pv_side := 1; pv_edge := 8;
               pv_cons := false; pv_next_cons := false; pv_next_patch := 0;
               pv_next_side := 0; pv_seen := 0 |}]).
  - left; reflexivity.
  - reflexivity.
  - vm_compute. reflexivity.
Defined.

(** ** The order of the raw cell ids *)

Lemma rows_agree (a b : cell_matrix) (p : nat) :
  length a = length b ->
  (forall side, coeff a p side = coeff b p side) ->
  a !! p = b !! p.
Proof.
  intros Hlen Hco.
  pose proof (Hco 0%Z) as H0. pose proof (Hco 1%Z) as H1.
  unfold coeff, at_index in H0, H1.
  destruct (a !! p) as [[a0 a1]|] eqn:Ea, (b !! p) as [[b0 b1]|] eqn:Eb;
    simpl in H0, H1; try discriminate; try reflexivity.
  - inversion H0; inversion H1; reflexivity.
Qed.

Lemma take_agree {A} (a b : list A) (i : nat) :
  (forall p, p < i -> a !! p = b !! p) -> take i a = take i b.
Proof.
  intros H. apply list_eq. intros p.
  destruct (decide (p < i)) as [Hp|Hp].
  - rewrite !lookup_take_lt by exact Hp. apply H; exact Hp.
  - rewrite !lookup_take_ge by lia. reflexivity.
Qed.

Lemma raw_ids_app (a b : cell_matrix) : raw_ids (a ++ b) = raw_ids a ++ raw_ids b.
Proof. unfold raw_ids. apply flat_map_app. Qed.

Lemma spec_first_seen_next (count : nat) (y : nat) :
  spec_first_seen (seq 0 count) [y]
  = if bool_decide (y < count) then seq 0 count else seq 0 count ++ [y].
Proof.
  simpl. destruct (bool_decide (y ∈ seq 0 count)) eqn:E.
  - apply bool_decide_eq_true in E. apply elem_of_seq in E.
    rewrite bool_decide_eq_true_2 by lia. reflexivity.
  - apply bool_decide_eq_false in E.
    rewrite bool_decide_eq_false_2; [reflexivity|].
    intros Hlt. apply E. apply elem_of_seq. lia.
Qed.

Section Numbering.
Variable F : list face.
Variable P : list nat.
Variable EMAP : list nat.
Variable c : edge_cache.
Variable num_patches : nat.
Hypothesis Hsmall : (2 * Z.of_nat num_patches < INT_MAX)%Z.

(** One side of a patch: the id found there after the sweep has looked at
    it is either one already handed out or the next one. *)
Lemma sweep_side_numbers (i k : nat) (side : Z) (s s' : sweep_state) :
  i < num_patches -> k <= 1 ->
  (side = 0 \/ side = 1)%Z ->
  sweep_inv F P EMAP c num_patches i k s ->
  sweep_side F P EMAP c i side s = Ok s' ->
  sweep_inv F P EMAP c num_patches i (S k) s' /\
  length (sw_cells s') = length (sw_cells s) /\
  (forall p sd x, coeff (sw_cells s) p sd = Ok x -> x <> INVALID ->
                  coeff (sw_cells s') p sd = Ok x) /\
  exists x', coeff (sw_cells s') i side = Ok x' /\ x' <> INVALID /\
    spec_first_seen (seq 0 (Z.to_nat (sw_count s))) [raw_id x']
    = seq 0 (Z.to_nat (sw_count s')).
Proof.
  intros Hi Hk Hside Hinv Hrun.
  destruct (sweep_side_inv F P EMAP c num_patches Hsmall i k side s s'
              Hi Hk Hside Hinv Hrun) as (Hinv' & Hlab & Hkeep).
  split; [exact Hinv'|].
  assert (Hlen : length (sw_cells s') = length (sw_cells s)).
  { destruct Hinv as [Hl _ _ _ _ _], Hinv' as [Hl' _ _ _ _ _]. congruence. }
  split; [exact Hlen|]. split; [exact Hkeep|].
  destruct Hinv as [Hl Hcnt Hrange Hcar Hdone Hvis].
  unfold sweep_side in Hrun. bind_inv Hrun as x Hx.
  destruct (x =? INVALID)%Z eqn:E.
  - apply Z.eqb_eq in E; subst x.
    bind_inv Hrun as r Hpeel. destruct r as [cells' vs'].
    inversion Hrun; subst s'; clear Hrun.
    cbn [sw_cells sw_count sw_visits] in *.
    destruct (peel_cell_bd_ok F P EMAP c _ _ _ _ _ _ _ Hside Hx Hvis Hpeel)
      as (_ & _ & Hseed).
    assert (Hto : to_int (sw_count s) = sw_count s).
    { apply to_int_small. unfold INT_MAX in *. lia. }
    rewrite Hto in Hseed. exists (sw_count s).
    split; [exact Hseed|]. split; [unfold INVALID, INT_MAX in *; lia|].
    rewrite spec_first_seen_next. unfold raw_id. rewrite to_size_t_small by (unfold INT_MAX in *; lia).
    rewrite bool_decide_eq_false_2 by lia.
    replace (Z.to_nat (sw_count s + 1)) with (S (Z.to_nat (sw_count s)))
      by lia.
    rewrite seq_S. reflexivity.
  - inversion Hrun; subst s'; clear Hrun. apply Z.eqb_neq in E.
    exists x. split; [exact Hx|]. split; [exact E|].
    destruct (Hrange i side x Hx) as [?|Hr]; [contradiction|].
    rewrite spec_first_seen_next. unfold raw_id. rewrite to_size_t_small by (unfold INT_MAX in *; lia).
    rewrite bool_decide_eq_true_2 by lia. reflexivity.
Qed.

Lemma sweep_patch_numbers (i : nat) (s s' : sweep_state) :
  i < num_patches ->
  sweep_inv F P EMAP c num_patches i 0 s ->
  spec_first_seen [] (raw_ids (take i (sw_cells s)))
    = seq 0 (Z.to_nat (sw_count s)) ->
  sweep_patch F P EMAP c s i = Ok s' ->
  spec_first_seen [] (raw_ids (take (S i) (sw_cells s')))
    = seq 0 (Z.to_nat (sw_count s')).
Proof.
  intros Hi Hinv Hwalk. unfold sweep_patch. intros H.
  bind_inv H as s1 Hs1.
  destruct (sweep_side_numbers i 0 0%Z s s1 Hi ltac:(lia) ltac:(auto) Hinv
              Hs1) as (Hinv1 & Hlen1 & Hkeep1 & x0 & Hx0 & Hne0 & Hnum0).
  destruct (sweep_side_numbers i 1 1%Z s1 s' Hi ltac:(lia) ltac:(auto) Hinv1
              H) as (Hinv2 & Hlen2 & Hkeep2 & x1 & Hx1 & Hne1 & Hnum1).
  pose proof (Hkeep2 _ _ _ Hx0 Hne0) as Hx0'.
  destruct (coeff_row _ _ _ _ Hx0') as (row & Hrow & [[_ Hr0]|[? _]]);
    [|discriminate].
  destruct (coeff_row _ _ _ _ Hx1) as (row' & Hrow' & [[? _]|[_ Hr1]]);
    [discriminate|].
  rewrite Hrow in Hrow'. inversion Hrow'; subst row'; clear Hrow'.
  rewrite (take_S_r _ _ _ Hrow), raw_ids_app.
  assert (Hpre : take i (sw_cells s') = take i (sw_cells s)).
  { apply take_agree. intros p Hp. apply rows_agree; [congruence|].
    intros side. destruct Hinv as [Hl _ _ _ Hdone _].
    destruct (coeff (sw_cells s) p side) as [x|e] eqn:Ex.
    - pose proof (Hdone p side x Hp Ex) as Hx.
      pose proof (Hkeep1 _ _ _ Ex Hx) as Ex1.
      exact (Hkeep2 _ _ _ Ex1 Hx).
    - unfold coeff, at_index in Ex |- *.
      assert (Hpl : p < length (sw_cells s)) by lia.
      destruct (lookup_lt_is_Some_2 _ _ Hpl) as [r Hr].
      assert (Hpl' : p < length (sw_cells s')) by lia.
      destruct (lookup_lt_is_Some_2 _ _ Hpl') as [r' Hr'].
      rewrite Hr in Ex. rewrite Hr'. simpl in Ex |- *.
      destruct (side =? 0)%Z; [discriminate|].
      destruct (side =? 1)%Z; [discriminate|]. exact Ex. }
  rewrite Hpre.
  change (raw_ids [row]) with ([raw_id row.1] ++ [raw_id row.2]).
  rewrite !spec_first_seen_app, Hwalk.
  rewrite <- Hr0, <- Hr1, Hnum0, Hnum1. reflexivity.
Qed.
End Numbering.

(** Property X8.  [extract_cells_single_component], lines 523-541.  The raw
    cells are numbered in the order in which the walk over the patches, side
    0 before side 1, meets them: the ids met for the first time are 0, 1, 2,
    ... up to the count.  (Patch ids in the range of [int].) *)
Theorem raw_cells_are_numbered_as_met `{Collaborators} (V : list point)
    (F : list face) (P : list nat) (uE : list (nat * nat))
    (uE2E : list (list nat)) (EMAP : list nat) (cells : cell_matrix)
    (count : Z) :
  patch_ids_small P ->
  extract_cells_single_component V F P uE uE2E EMAP = Ok (cells, count) ->
  spec_first_seen [] (raw_ids cells) = seq 0 (Z.to_nat count).
Proof.
  intros Hsmall Hrun.
  destruct (extract_cells_single_component_run _ _ _ _ _ _ _ Hrun)
    as (s & Hs & Hr). inversion Hr; subst cells count; clear Hr.
  destruct (single_component_run_cache _ _ _ _ _ _ _ Hs)
    as (m & c & Hm & Hc & Hfold).
  pose proof (patch_ids_small_max _ _ Hsmall Hm) as Hlt.
  pose (I := fun (i : nat) (t : sweep_state) =>
    sweep_inv F P EMAP c (m + 1) i 0 t /\
    spec_first_seen [] (raw_ids (take i (sw_cells t)))
      = seq 0 (Z.to_nat (sw_count t))).
  assert (HI : I (0 + (m + 1)) s).
  { eapply (foldM_seq_invariant I); [| |exact Hfold].
    - intros i t1 t2 Hi [Hinv Hwalk] Hstep. split.
      + eapply sweep_patch_inv; eauto. lia.
      + eapply sweep_patch_numbers; eauto. lia.
    - split; [apply sweep_inv_init|reflexivity]. }
  destruct HI as [Hinv Hwalk]. simpl in Hwalk.
  destruct Hinv as [Hlen _ _ _ _ _].
  rewrite firstn_all2 in Hwalk by (rewrite Hlen; lia). exact Hwalk.
Qed.

Lemma raw_cells_are_numbered_as_met_witness :
  spec_first_seen [] (raw_ids [(0, 1); (2, 1); (2, 0)]%Z)
  = seq 0 (Z.to_nat 3).
Proof.
  apply (@raw_cells_are_numbered_as_met Fan.coll Fan.V Fan.F Fan.P Fan.uE
           Fan.uE2E Fan.EMAP).
  - repeat constructor; vm_compute; reflexivity.
  - vm_compute. reflexivity.
Defined.

(** ** The boxes of the components *)

Lemma Qmin_std_le_l (a b : Q) : (Qmin_std a b <= a)%Q.
Proof.
  unfold Qmin_std. destruct (Qltb b a) eqn:E.
  - unfold Qltb in E. destruct (b ?= a)%Q eqn:C; try discriminate.
    apply Qlt_le_weak. apply Qlt_alt. exact C.
  - apply Qle_refl.
Qed.

Lemma Qmin_std_le_r (a b : Q) : (Qmin_std a b <= b)%Q.
Proof.
  unfold Qmin_std. destruct (Qltb b a) eqn:E.
  - apply Qle_refl.
  - apply Qltb_false. exact E.
Qed.

Lemma Qmax_std_ge_l (a b : Q) : (a <= Qmax_std a b)%Q.
Proof.
  unfold Qmax_std. destruct (Qltb a b) eqn:E.
  - unfold Qltb in E. destruct (a ?= b)%Q eqn:C; try discriminate.
    apply Qlt_le_weak. apply Qlt_alt. exact C.
  - apply Qle_refl.
Qed.

Lemma Qmax_std_ge_r (a b : Q) : (b <= Qmax_std a b)%Q.
Proof.
  unfold Qmax_std. destruct (Qltb a b) eqn:E.
  - apply Qle_refl.
  - apply Qltb_false. exact E.
Qed.

Lemma point_le_refl (a : point) : point_le a a.
Proof. repeat split; apply Qle_refl. Qed.

Lemma point_le_trans (a b c : point) :
  point_le a b -> point_le b c -> point_le a c.
Proof.
  intros (? & ? & ?) (? & ? & ?). repeat split; eapply Qle_trans; eauto.
Qed.

Lemma point_min_le_l (a b : point) : point_le (point_min a b) a.
Proof. repeat split; apply Qmin_std_le_l. Qed.
Lemma point_min_le_r (a b : point) : point_le (point_min a b) b.
Proof. repeat split; apply Qmin_std_le_r. Qed.
Lemma point_max_ge_l (a b : point) : point_le a (point_max a b).
Proof. repeat split; apply Qmax_std_ge_l. Qed.
Lemma point_max_ge_r (a b : point) : point_le b (point_max a b).
Proof. repeat split; apply Qmax_std_ge_r. Qed.

Section BoxContents.
Context {coll : Collaborators}.
Variable V : list point.
Variable F : list face.

(** One vertex added to the box of [comp_id]. *)
Lemma grow_box_vertex (b b' : list point * list point) (comp_id v : nat) :
  (p ← at_index V v;
   lo ← at_index b.1 comp_id;
   hi ← at_index b.2 comp_id;
   Ok (<[comp_id := point_min lo p]> b.1,
       <[comp_id := point_max hi p]> b.2)) = Ok b' ->
  length b'.1 = length b.1 /\ length b'.2 = length b.2 /\
  (exists p, V !! v = Some p /\ in_box b'.1 b'.2 comp_id p) /\
  (forall comp q, in_box b.1 b.2 comp q -> in_box b'.1 b'.2 comp q).
Proof.
  intros H. bind_inv H as p Hp. bind_inv H as lo Hlo. bind_inv H as hi Hhi.
  ok_inv. simpl.
  assert (Hl1 : comp_id < length b.1) by (eapply lookup_lt_Some; eauto).
  assert (Hl2 : comp_id < length b.2) by (eapply lookup_lt_Some; eauto).
  rewrite !length_insert. split; [reflexivity|]. split; [reflexivity|].
  split.
  - exists p. split; [exact Hp|].
    exists (point_min lo p), (point_max hi p).
    rewrite !list_lookup_insert_eq by assumption.
    split; [reflexivity|]. split; [reflexivity|].
    split; [apply point_min_le_r|apply point_max_ge_r].
  - intros comp q (lo0 & hi0 & Hlo0 & Hhi0 & Hle1 & Hle2).
    destruct (decide (comp = comp_id)) as [->|Hne].
    + exists (point_min lo p), (point_max hi p).
      rewrite !list_lookup_insert_eq by assumption.
      assert (lo0 = lo) by congruence. assert (hi0 = hi) by congruence.
      subst lo0 hi0. split; [reflexivity|]. split; [reflexivity|]. split.
      * eapply point_le_trans; [apply point_min_le_l|exact Hle1].
      * eapply point_le_trans; [exact Hle2|apply point_max_ge_l].
    + exists lo0, hi0. rewrite !list_lookup_insert_ne by congruence.
      auto.
Qed.

Lemma grow_box_face (C : list nat) (b b' : list point * list point)
    (i : nat) :
  grow_box V F C b i = Ok b' ->
  length b'.1 = length b.1 /\ length b'.2 = length b.2 /\
  (exists comp_id f, C !! i = Some comp_id /\ F !! i = Some f /\
     forall v, v ∈ [f.1.1; f.1.2; f.2] ->
       exists p, V !! v = Some p /\ in_box b'.1 b'.2 comp_id p) /\
  (forall comp q, in_box b.1 b.2 comp q -> in_box b'.1 b'.2 comp q).
Proof.
  unfold grow_box. intros H. bind_inv H as comp_id Hc.
  bind_inv H as f Hf. destruct f as [[f0 f1] f2]. ok_inv.
  pose (I := fun (done : list nat) (x : list point * list point) =>
    length x.1 = length b.1 /\ length x.2 = length b.2 /\
    (forall v, v ∈ done ->
       exists p, V !! v = Some p /\ in_box x.1 x.2 comp_id p) /\
    (forall comp q, in_box b.1 b.2 comp q -> in_box x.1 x.2 comp q)).
  assert (HI : I [f0; f1; f2] b').
  { eapply foldM_prefix_invariant; [| |exact H].
    - intros pre v x1 x2 (Hl1 & Hl2 & Hdone & Hkeep) Hstep.
      destruct (grow_box_vertex x1 x2 comp_id v Hstep)
        as (Hl1' & Hl2' & (p & Hp & Hin) & Hkeep').
      split; [congruence|]. split; [congruence|]. split.
      + intros w Hw. apply elem_of_app in Hw as [Hw|Hw].
        * destruct (Hdone w Hw) as (q & Hq & Hbox). eauto.
        * apply list_elem_of_singleton in Hw; subst w. eauto.
      + auto.
    - split; [reflexivity|]. split; [reflexivity|]. split; [|auto].
      intros v Hv; inversion Hv. }
  destruct HI as (Hl1 & Hl2 & Hdone & Hkeep).
  split; [exact Hl1|]. split; [exact Hl2|]. split; [|exact Hkeep].
  exists comp_id, (f0, f1, f2). auto.
Qed.

Lemma bounding_boxes_faces (C : list nat) (num_components : nat)
    (bbox_min bbox_max : list point) :
  bounding_boxes V F C num_components = Ok (bbox_min, bbox_max) ->
  length bbox_min = num_components /\
  length bbox_max = num_components /\
  forall j comp g w, C !! j = Some comp -> F !! j = Some g ->
    w ∈ [g.1.1; g.1.2; g.2] ->
    exists p, V !! w = Some p /\ in_box bbox_min bbox_max comp p.
Proof.
  unfold bounding_boxes. intros H.
  bind_inv H as hi Hhi. bind_inv H as lo Hlo.
  pose (I := fun (k : nat) (x : list point * list point) =>
    length x.1 = num_components /\ length x.2 = num_components /\
    forall j comp g w, j < k -> C !! j = Some comp -> F !! j = Some g ->
      w ∈ [g.1.1; g.1.2; g.2] ->
      exists p, V !! w = Some p /\ in_box x.1 x.2 comp p).
  assert (HI : I (0 + num_faces F) (bbox_min, bbox_max)).
  { eapply (foldM_seq_invariant I); [| |exact H].
    - intros k x1 x2 Hk (Hl1 & Hl2 & Hdone) Hstep.
      destruct (grow_box_face C x1 x2 k Hstep)
        as (Hl1' & Hl2' & (comp & g & Hcomp & Hg & Hnew) & Hkeep).
      split; [congruence|]. split; [congruence|].
      intros j comp' g' w Hj Hcj Hgj Hw.
      destruct (decide (j = k)) as [->|Hne].
      + assert (comp' = comp) by congruence.
        assert (g' = g) by congruence. subst. auto.
      + destruct (Hdone j comp' g' w ltac:(lia) Hcj Hgj Hw)
          as (p & Hp & Hbox). eauto.
    - unfold I. cbn [fst snd]. split; [apply length_replicate|].
      split; [apply length_replicate|]. intros j; lia. }
  destruct HI as (Hl1 & Hl2 & Hdone). simpl in *.
  split; [exact Hl1|]. split; [exact Hl2|].
  intros j comp g w Hc Hg Hw. apply (Hdone j comp g w); auto.
  apply lookup_lt_Some in Hg. unfold num_faces. exact Hg.
Qed.

(** Property X9.  [extract_cells], lines 159-178.  The boxes built for the
    components hold every vertex of every face of the component: each
    coordinate of the vertex lies between the minimum and the maximum stored
    for the component of the face. *)
Theorem bounding_boxes_hold_the_faces (C : list nat) (num_components : nat)
    (bbox_min bbox_max : list point) (i comp_id : nat) (f : face) (v : nat) :
  bounding_boxes V F C num_components = Ok (bbox_min, bbox_max) ->
  C !! i = Some comp_id ->
  F !! i = Some f ->
  v ∈ [f.1.1; f.1.2; f.2] ->
  length bbox_min = num_components /\
  length bbox_max = num_components /\
  exists p, V !! v = Some p /\ in_box bbox_min bbox_max comp_id p.
Proof.
  intros H HC HF Hv.
  destruct (bounding_boxes_faces C num_components bbox_min bbox_max H)
    as (Hl1 & Hl2 & Hin).
  split; [exact Hl1|]. split; [exact Hl2|].
  exact (Hin i comp_id f v HC HF Hv).
Qed.

(** The barycenter of three points of a box lies in the box. *)
Lemma Q_mean_between (lo hi a b c : Q) :
  (lo <= a -> lo <= b -> lo <= c -> a <= hi -> b <= hi -> c <= hi ->
   lo <= (a + b + c) / 3 /\ (a + b + c) / 3 <= hi)%Q.
Proof.
  intros. split.
  - apply Qle_shift_div_l; [reflexivity|]. lra.
  - apply Qle_shift_div_r; [reflexivity|]. lra.
Qed.

(** Property X10.  [extract_cells], lines 148-151 and 180-212.  The pruning
    by boxes is sound for the query points: the barycenter of a face of
    component [j] lies in the box of [j], and when the box test fails for
    the pair [(i, j)] it lies outside the box of [i]. *)
Theorem pruned_query_point_is_outside_the_box (C : list nat)
    (num_components : nat) (bbox_min bbox_max : list point)
    (i j fid : nat) (q : point) :
  bounding_boxes V F C num_components = Ok (bbox_min, bbox_max) ->
  C !! fid = Some j ->
  get_triangle_center V F fid = Ok q ->
  bbox_intersects bbox_min bbox_max i j = Ok false ->
  in_box bbox_min bbox_max j q /\ ~ in_box bbox_min bbox_max i q.
Proof.
  intros H HC Hq Hbb.
  destruct (bounding_boxes_faces C num_components bbox_min bbox_max H)
    as (_ & _ & Hin).
  unfold get_triangle_center in Hq.
  bind_inv Hq as g Hg. destruct g as [[f0 f1] f2].
  bind_inv Hq as a Ha. bind_inv Hq as b Hb. bind_inv Hq as c Hc. ok_inv.
  destruct (Hin fid j (f0, f1, f2) f0 HC Hg) as (a' & Ha' & la & ha & Hla & Hha
                                                  & Ha1 & Ha2);
    [apply list_elem_of_here|].
  destruct (Hin fid j (f0, f1, f2) f1 HC Hg) as (b' & Hb' & lb & hb & Hlb & Hhb
                                                  & Hb1 & Hb2);
    [apply list_elem_of_further, list_elem_of_here|].
  destruct (Hin fid j (f0, f1, f2) f2 HC Hg) as (c' & Hc' & lc & hc & Hlc & Hhc
                                                  & Hc1 & Hc2);
    [do 2 apply list_elem_of_further; apply list_elem_of_here|].
  simpl in Ha', Hb', Hc'.
  assert (Ea : Some a' = Some a)
    by (transitivity (V !! f0); [symmetry; exact Ha'|exact Ha]).
  assert (Eb : Some b' = Some b)
    by (transitivity (V !! f1); [symmetry; exact Hb'|exact Hb]).
  assert (Ec : Some c' = Some c)
    by (transitivity (V !! f2); [symmetry; exact Hc'|exact Hc]).
  injection Ea as ->. injection Eb as ->. injection Ec as ->.
  rewrite Hla in Hlb, Hlc. rewrite Hha in Hhb, Hhc.
  injection Hlb as <-. injection Hlc as <-.
  injection Hhb as <-. injection Hhc as <-.
  destruct Ha1 as (Ha1x & Ha1y & Ha1z), Ha2 as (Ha2x & Ha2y & Ha2z),
    Hb1 as (Hb1x & Hb1y & Hb1z), Hb2 as (Hb2x & Hb2y & Hb2z),
    Hc1 as (Hc1x & Hc1y & Hc1z), Hc2 as (Hc2x & Hc2y & Hc2z).
  destruct (Q_mean_between la.1.1 ha.1.1 a.1.1 b.1.1 c.1.1) as [Hx1 Hx2];
    try assumption.
  destruct (Q_mean_between la.1.2 ha.1.2 a.1.2 b.1.2 c.1.2) as [Hy1 Hy2];
    try assumption.
  destruct (Q_mean_between la.2 ha.2 a.2 b.2 c.2) as [Hz1 Hz2];
    try assumption.
  split.
  - exists la, ha. split; [exact Hla|]. split; [exact Hha|].
    split; repeat split; assumption.
  - intros (li & hi & Hli & Hhi & (Hi1x & Hi1y & Hi1z) & (Hi2x & Hi2y & Hi2z)).
    simpl in *.
    destruct (bbox_intersects_overlap bbox_min bbox_max i j li hi la ha
                Hhi Hli Hha Hla) as (b0 & Hb0 & Hiff).
    rewrite Hbb in Hb0. inversion Hb0; subst b0.
    assert (Hov : boxes_overlap li hi la ha).
    { unfold boxes_overlap. repeat split; eapply Qle_trans; eassumption. }
    apply Hiff in Hov. discriminate.
Qed.

(** *** The box test *)

Variables bbox_min bbox_max : list point.

Lemma bbox_intersects_sym (i j : nat) :
  bbox_intersects bbox_min bbox_max i j
  = bbox_intersects bbox_min bbox_max j i.
Proof.
  unfold bbox_intersects, at_index.
  destruct (bbox_max !! i) as [max_i|], (bbox_min !! i) as [min_i|],
    (bbox_max !! j) as [max_j|], (bbox_min !! j) as [min_j|];
    try reflexivity.
  cbn [mbind result_bind]. f_equal. f_equal.
  destruct (Qltb max_i.1.1 min_j.1.1), (Qltb max_i.1.2 min_j.1.2),
    (Qltb max_i.2 min_j.2), (Qltb max_j.1.1 min_i.1.1),
    (Qltb max_j.1.2 min_i.1.2), (Qltb max_j.2 min_i.2); reflexivity.
Qed.

(** Property X11.  [extract_cells], lines 180-201.  Being a candidate is a
    symmetric relation between two components, and no component is a
    candidate of itself: [j] is among the candidates of [i] exactly when [i]
    is among those of [j]. *)
Theorem candidates_are_mutual (num_components i j : nat)
    (cands_i cands_j : list nat) :
  i < num_components -> j < num_components ->
  candidate_comps_of bbox_min bbox_max num_components i = Ok cands_i ->
  candidate_comps_of bbox_min bbox_max num_components j = Ok cands_j ->
  (j ∈ cands_i <-> i ∈ cands_j) /\ i ∉ cands_i.
Proof.
  intros Hi Hj Hci Hcj.
  pose proof (candidate_comps_of_elem bbox_min bbox_max _ _ _ Hci) as Ei.
  pose proof (candidate_comps_of_elem bbox_min bbox_max _ _ _ Hcj) as Ej.
  split.
  - rewrite (Ei j), (Ej i), (bbox_intersects_sym i j). split.
    + intros (_ & ? & ?); repeat split; auto.
    + intros (_ & ? & ?); repeat split; auto.
  - rewrite (Ei i). intros (_ & Hne & _). apply Hne; reflexivity.
Qed.
End BoxContents.

Lemma bounding_boxes_hold_the_faces_witness :
  length Nested.bbox_min = 4 /\
  length Nested.bbox_max = 4 /\
  exists p, Nested.V !! 7 = Some p /\
            in_box Nested.bbox_min Nested.bbox_max 1 p.
Proof.
  apply (bounding_boxes_hold_the_faces Nested.V Nested.F Nested.P 4
           Nested.bbox_min Nested.bbox_max 5 1 (4, 5, 7) 7).
  - vm_compute. reflexivity.
  - reflexivity.
  - reflexivity.
  - do 2 apply list_elem_of_further. apply list_elem_of_here.
Defined.

Lemma candidates_are_mutual_witness :
  (3 ∈ [0; 2; 3] <-> 1 ∈ [1; 2]) /\ 1 ∉ [0; 2; 3].
Proof.
  apply (candidates_are_mutual Nested.bbox_min Nested.bbox_max 4 1 3
           [0; 2; 3] [1; 2]).
  - lia.
  - lia.
  - vm_compute. reflexivity.
  - vm_compute. reflexivity.
Defined.

Lemma pruned_query_point_is_outside_the_box_witness :
  exists q, get_triangle_center Nested.V Nested.F 12 = Ok q /\
    in_box Nested.bbox_min Nested.bbox_max 3 q /\
    ~ in_box Nested.bbox_min Nested.bbox_max 0 q.
Proof.
  eexists. split; [reflexivity|].
  apply (pruned_query_point_is_outside_the_box Nested.V Nested.F Nested.P 4
           Nested.bbox_min Nested.bbox_max 0 3 12).
  - vm_compute. reflexivity.
  - reflexivity.
  - reflexivity.
  - vm_compute. reflexivity.
Defined.

(** ** The faces of the components *)

(** Property X12.  [extract_cells], lines 112-126.  The list built for
    component [c] holds exactly the faces that the component vector sends to
    [c], in increasing order; so every face is in one list, once. *)
Theorem group_faces_partitions_the_faces (F : list face) (C : list nat)
    (num_components : nat) (Is : list (list nat)) :
  group_faces F C num_components = Ok Is ->
  length Is = num_components /\
  forall c I, Is !! c = Some I ->
    I = filter (fun i => C !! i = Some c) (seq 0 (num_faces F)).
Proof.
  unfold group_faces. intros H.
  pose (Inv := fun (k : nat) (comps : list (list nat)) =>
    length comps = num_components /\
    forall c I, comps !! c = Some I ->
      I = filter (fun i => C !! i = Some c) (seq 0 k)).
  assert (HI : Inv (0 + num_faces F) Is).
  { eapply (foldM_seq_invariant Inv); [| |exact H].
    - intros k s1 s2 _ [Hlen Hs1] Hstep. cbv beta in Hstep.
      bind_inv Hstep as c0 Hc0. ok_inv.
      destruct (push_back_at_lookup _ _ _ _ Hstep) as [Hlen2 Hs2].
      split; [congruence|].
      intros c I HI. destruct (Hs2 c I HI) as (I0 & HI0 & ->).
      rewrite seq_S, filter_app. simpl.
      rewrite (Hs1 c I0 HI0).
      destruct (decide (c = c0)) as [->|Hne].
      + rewrite filter_cons_True by exact Hc0. reflexivity.
      + rewrite filter_cons_False by congruence.
        rewrite filter_nil, app_nil_r. reflexivity.
    - split; [apply length_replicate|].
      intros c I HI. apply lookup_replicate in HI as [-> _]. reflexivity. }
  exact HI.
Qed.

Lemma group_faces_partitions_the_faces_witness :
  length NestedRun.Is = 4 /\
  forall c I, NestedRun.Is !! c = Some I ->
    I = filter (fun i => Nested.P !! i = Some c) (seq 0 (num_faces Nested.F)).
Proof.
  apply (group_faces_partitions_the_faces Nested.F Nested.P 4 NestedRun.Is).
  vm_compute. reflexivity.
Defined.

(** ** The nesting relationships *)

Section Nesting.
Context {coll : Collaborators}.
Variable V : list point.
Variable F : list face.
Variable P : list nat.
Variable uE2E : list (list nat).
Variable EMAP : list nat.
Variables bbox_min bbox_max : list point.

Lemma candidate_comps_of_NoDup (n i : nat) (cands : list nat) :
  candidate_comps_of bbox_min bbox_max n i = Ok cands -> NoDup cands.
Proof.
  unfold candidate_comps_of. intros H.
  pose (I := fun (k : nat) (cs : list nat) =>
               NoDup cs /\ forall j, j ∈ cs -> j < k).
  assert (HI : I (0 + n) cands).
  { eapply (foldM_seq_invariant I); [| |exact H].
    - intros k cs cs' _ [Hnd Hlt] Hstep. cbv beta in Hstep.
      destruct (i =? k).
      + inversion Hstep; subst cs'. split; [exact Hnd|].
        intros j Hj. specialize (Hlt j Hj). lia.
      + bind_inv Hstep as b Hb. inversion Hstep; subst cs'; clear Hstep.
        destruct b.
        * split.
          -- apply NoDup_app. split; [exact Hnd|]. split.
             ++ intros x Hx Hx'. apply list_elem_of_singleton in Hx'.
                subst x. specialize (Hlt k Hx). lia.
             ++ apply NoDup_singleton.
          -- intros j Hj. apply elem_of_app in Hj as [Hj|Hj].
             ++ specialize (Hlt j Hj). lia.
             ++ apply list_elem_of_singleton in Hj. lia.
        * split; [exact Hnd|]. intros j Hj. specialize (Hlt j Hj). lia.
    - split; [constructor|]. intros j Hj; inversion Hj. }
  exact (proj1 HI).
Qed.

Variable raw_cells : cell_matrix.
Variable outer_cells : list Z.
Variable num_raw_cells : Z.
Variable num_components : nat.

(** The inner loop over the candidates of component [i], after [j] of
    them. *)
Let recorded (i : nat) (cands : list nat) (j : nat) (st : nesting) : Prop :=
  length (nested_cells st) = Z.to_nat num_raw_cells /\
  length (ambient_cells st) = Z.to_nat num_raw_cells /\
  length (ambient_comps st) = num_components /\
  (forall index l, ambient_comps st !! index = Some l -> NoDup l) /\
  (forall index l a, ambient_comps st !! index = Some l -> a ∈ l ->
     a <= i /\ a < num_components /\ a <> index /\
     bbox_intersects bbox_min bbox_max a index = Ok true) /\
  (forall index l, ambient_comps st !! index = Some l -> i ∈ l ->
     exists j', j' < j /\ cands !! j' = Some index) /\
  (forall x l c, ambient_cells st !! x = Some l -> c ∈ l ->
     exists p side v, coeff raw_cells p side = Ok v /\ c = to_size_t v) /\
  (NoDup (raw_id <$> outer_cells) ->
   forall index oc l l', outer_cells !! index = Some oc ->
     ambient_comps st !! index = Some l ->
     ambient_cells st !! raw_id oc = Some l' ->
     length l = length l').

Lemma record_candidate_recorded (cands cf : list nat) (cfo : list bool)
    (i j : nat) (st st' : nesting) :
  i < num_components ->
  NoDup cands ->
  (forall index, index ∈ cands ->
     index <> i /\ bbox_intersects bbox_min bbox_max i index = Ok true) ->
  recorded i cands j st ->
  record_candidate P raw_cells outer_cells cands cf cfo i st j = Ok st' ->
  recorded i cands (S j) st'.
Proof.
  intros Hi Hnd Hcands (Hl1 & Hl2 & Hl3 & Hnodup & Hmem & Hnew & Hraw & Hpair).
  unfold record_candidate. intros H.
  bind_inv H as index Hindex. bind_inv H as f Hf.
  bind_inv H as cp Hcp. bind_inv H as o Ho. bind_inv H as ac Hac.
  bind_inv H as oc Hoc. ok_inv.
  destruct (negb _).
  - bind_inv H as oci Hoci. bind_inv H as nc Hnc.
    bind_inv H as acl Hacl. bind_inv H as acm Hacm.
    inversion H; subst st'; clear H. ok_inv.
    unfold push_back_at_cell in Hnc, Hacl.
    destruct (push_back_at_lookup _ _ _ _ Hnc) as [Hnc1 _].
    destruct (push_back_at_lookup _ _ _ _ Hacl) as [Hacl1 Hacl2].
    destruct (push_back_at_lookup _ _ _ _ Hacm) as [Hacm1 Hacm2].
    assert (Hfresh : forall l, ambient_comps st !! index = Some l -> i ∉ l).
    { intros l Hl Hin. destruct (Hnew index l Hl Hin) as (j' & Hj' & Hc).
      pose proof (NoDup_lookup _ _ _ _ Hnd Hc Hindex). lia. }
    unfold recorded. cbn [nested_cells ambient_cells ambient_comps].
    split; [congruence|]. split; [congruence|]. split; [congruence|].
    split; [|split; [|split; [|split]]].
    + intros ix l' Hl'. destruct (Hacm2 ix l' Hl') as (l & Hl & ->).
      destruct (decide (ix = index)) as [->|Hne]; [|eauto].
      apply NoDup_app. split; [eauto|]. split; [|apply NoDup_singleton].
      intros x Hx Hx'. apply list_elem_of_singleton in Hx'. subst x.
      exact (Hfresh l Hl Hx).
    + intros ix l' a Hl' Ha. destruct (Hacm2 ix l' Hl') as (l & Hl & ->).
      destruct (decide (ix = index)) as [->|Hne]; [|eauto].
      apply elem_of_app in Ha as [Ha|Ha]; [eauto|].
      apply list_elem_of_singleton in Ha. subst a.
      destruct (Hcands index) as [Hne Hbb];
        [eapply list_elem_of_lookup_2; eauto|].
      repeat split; auto.
    + intros ix l' Hl' Hin. destruct (Hacm2 ix l' Hl') as (l & Hl & ->).
      destruct (decide (ix = index)) as [->|Hne].
      * exists j. split; [lia|exact Hindex].
      * destruct (Hnew ix l Hl Hin) as (j' & Hj' & Hc).
        exists j'. split; [lia|exact Hc].
    + intros x l' c Hl' Hc. destruct (Hacl2 x l' Hl') as (l & Hl & ->).
      destruct (decide (x = Z.to_nat (to_size_t oci))) as [->|Hne]; [|eauto].
      apply elem_of_app in Hc as [Hc|Hc]; [eauto|].
      apply list_elem_of_singleton in Hc. subst c. eauto.
    + intros Hnd_oc ix oc' l1 l2 Hoc' Hl1' Hl2'.
      destruct (Hacm2 ix l1 Hl1') as (l & Hl & ->).
      destruct (Hacl2 _ l2 Hl2') as (l0 & Hl0 & ->).
      assert (Hiff : ix = index <-> raw_id oc' = Z.to_nat (to_size_t oci)).
      { split.
        - intros ->. rewrite Hoci in Hoc'. inversion Hoc'; reflexivity.
        - intros Heq. eapply (NoDup_lookup (raw_id <$> outer_cells));
            [exact Hnd_oc| |].
          + rewrite list_lookup_fmap, Hoc'. reflexivity.
          + rewrite list_lookup_fmap, Hoci. simpl. f_equal. symmetry.
            exact Heq. }
      pose proof (Hpair Hnd_oc ix oc' l l0 Hoc' Hl Hl0) as Hlen.
      destruct (decide (ix = index)) as [E1|E1],
        (decide (raw_id oc' = Z.to_nat (to_size_t oci))) as [E2|E2];
        try tauto.
      rewrite !length_app. simpl. lia.
  - inversion H; subst st'; clear H.
    unfold recorded. repeat (split; [assumption|]).
    split; [|split; [exact Hraw|exact Hpair]].
    intros ix l Hl Hin. destruct (Hnew ix l Hl Hin) as (j' & Hj' & Hc).
    exists j'. split; [lia|exact Hc].
Qed.

Lemma nest_component_inv (Is : list (list nat)) (outer_facets : list nat)
    (i : nat) (st st' : nesting) :
  i < num_components ->
  nesting_inv bbox_min bbox_max raw_cells outer_cells num_raw_cells num_components i st ->
  nest_component V F P uE2E EMAP raw_cells Is outer_facets outer_cells
    bbox_min bbox_max num_components st i = Ok st' ->
  nesting_inv bbox_min bbox_max raw_cells outer_cells num_raw_cells num_components
    (S i) st'.
Proof.
  intros Hi [Hl1 Hl2 Hl3 Hnodup Hmem Hraw Hpair]. unfold nest_component.
  intros H. bind_inv H as call Hcall.
  destruct (closest_facet_call_queries V F bbox_min bbox_max _ _ _ _ Hcall)
    as (cands & Hcands & Hm).
  destruct call as [[cands' queries]|].
  - destruct Hm as (-> & _ & _). bind_inv H as I HI.
    destruct (closest_facet V F I queries uE2E EMAP) as [cf cfo].
    pose proof (candidate_comps_of_NoDup _ _ _ Hcands) as Hnd.
    pose proof (candidate_comps_of_elem bbox_min bbox_max _ _ _ Hcands)
      as Helem.
    assert (HR : recorded i cands (0 + length cands) st').
    { eapply (foldM_seq_invariant (recorded i cands)); [| |exact H].
      - intros j t1 t2 _ Ht1 Hstep.
        eapply record_candidate_recorded; eauto.
        intros index Hin. apply Helem in Hin as (_ & ? & ?). auto.
      - unfold recorded. repeat (split; [assumption|]).
        split; [|split; [|split; [exact Hraw|exact Hpair]]].
        + intros index l a Hl Ha.
          destruct (Hmem index l a Hl Ha) as (? & ? & ? & ?).
          repeat split; auto; lia.
        + intros index l Hl Hin.
          destruct (Hmem index l i Hl Hin) as (? & _). lia. }
    destruct HR as (R1 & R2 & R3 & R4 & R5 & _ & R6 & R7).
    constructor; auto.
    intros index l a Hl Ha. destruct (R5 index l a Hl Ha) as (? & ? & ? & ?).
    repeat split; auto; lia.
  - inversion H; subst st'. constructor; auto.
    intros index l a Hl Ha. destruct (Hmem index l a Hl Ha) as (? & ? & ? & ?).
    repeat split; auto; lia.
Qed.

Lemma nesting_inv_init (k : nat) :
  nesting_inv bbox_min bbox_max raw_cells outer_cells num_raw_cells num_components k
    {| nested_cells := replicate (Z.to_nat num_raw_cells) [];
       ambient_cells := replicate (Z.to_nat num_raw_cells) [];
       ambient_comps := replicate num_components [] |}.
Proof.
  constructor; simpl; try apply length_replicate.
  - intros index l Hl. apply lookup_replicate in Hl as [-> _]. constructor.
  - intros index l a Hl Ha. apply lookup_replicate in Hl as [-> _].
    inversion Ha.
  - intros x l c Hl Hc. apply lookup_replicate in Hl as [-> _].
    inversion Hc.
  - intros _ index oc l l' _ Hl Hl'.
    apply lookup_replicate in Hl as [-> _].
    apply lookup_replicate in Hl' as [-> _]. reflexivity.
Qed.
End Nesting.

Section NestingResults.
Context {coll : Collaborators}.
Variable V : list point.
Variable F : list face.
Variable P : list nat.
Variable uE2E : list (list nat).
Variable EMAP : list nat.

Lemma nested_relationship_inv (raw_cells : cell_matrix) (num_raw_cells : Z)
    (C : list nat) (Is : list (list nat)) (outer_facets : list nat)
    (outer_cells : list Z) (num_components : nat) (n : nesting) :
  nested_relationship V F P uE2E EMAP raw_cells num_raw_cells C Is
    outer_facets outer_cells num_components = Ok n ->
  (1 < num_components /\
   exists bbox_min bbox_max,
     bounding_boxes V F C num_components = Ok (bbox_min, bbox_max) /\
     nesting_inv bbox_min bbox_max raw_cells outer_cells num_raw_cells num_components
       num_components n) \/
  (num_components <= 1 /\
   n = {| nested_cells := replicate (Z.to_nat num_raw_cells) [];
          ambient_cells := replicate (Z.to_nat num_raw_cells) [];
          ambient_comps := replicate num_components [] |}).
Proof.
  unfold nested_relationship. intros H.
  destruct (1 <? num_components) eqn:E.
  - apply Nat.ltb_lt in E. left. split; [exact E|].
    bind_inv H as b Hb. destruct b as [bbox_min bbox_max].
    exists bbox_min, bbox_max. split; [exact Hb|].
    change (nesting_inv bbox_min bbox_max raw_cells outer_cells num_raw_cells
              num_components (0 + num_components) n).
    eapply (foldM_seq_invariant
              (nesting_inv bbox_min bbox_max raw_cells outer_cells
                 num_raw_cells num_components)); [| |exact H].
    + intros i s1 s2 Hi Hs1 Hstep.
      eapply nest_component_inv; eauto; lia.
    + apply nesting_inv_init.
  - apply Nat.ltb_ge in E. right. split; [exact E|]. inversion H; reflexivity.
Qed.

(** Property X13.  [extract_cells], lines 191-235.  A component is recorded
    as ambient of another one at most once, and only when the two are
    different components whose boxes pass the box test; with one component
    or none, nothing is recorded. *)
Theorem ambient_components_are_candidates (raw_cells : cell_matrix)
    (num_raw_cells : Z) (C : list nat) (Is : list (list nat))
    (outer_facets : list nat) (outer_cells : list Z) (num_components : nat)
    (n : nesting) (index : nat) (l : list nat) :
  nested_relationship V F P uE2E EMAP raw_cells num_raw_cells C Is
    outer_facets outer_cells num_components = Ok n ->
  ambient_comps n !! index = Some l ->
  NoDup l /\
  (l <> [] -> 1 < num_components) /\
  forall a, a ∈ l ->
    a < num_components /\ a <> index /\
    exists bbox_min bbox_max,
      bounding_boxes V F C num_components = Ok (bbox_min, bbox_max) /\
      bbox_intersects bbox_min bbox_max a index = Ok true.
Proof.
  intros H Hl.
  destruct (nested_relationship_inv _ _ _ _ _ _ _ _ H)
    as [(Hnc & mn & mx & Hbb & Hinv)|(Hnc & ->)].
  - destruct Hinv as [_ _ _ Hnodup Hmem _ _].
    split; [eauto|]. split; [auto|].
    intros a Ha. destruct (Hmem index l a Hl Ha) as (_ & ? & ? & ?).
    eauto 10.
  - simpl in Hl. apply lookup_replicate in Hl as [-> _].
    split; [constructor|]. split; [congruence|].
    intros a Ha; inversion Ha.
Qed.

(** Property X14.  [extract_cells], lines 228-233 and 249.  When the outer
    cells of the components are pairwise different, a component has as many
    recorded ambient components as its outer cell has recorded ambient
    cells: the first assertion of the loop that resolves the nesting cannot
    fail. *)
Theorem ambient_lists_have_equal_length (raw_cells : cell_matrix)
    (num_raw_cells : Z) (C : list nat) (Is : list (list nat))
    (outer_facets : list nat) (outer_cells : list Z) (num_components : nat)
    (n : nesting) (embedded_cells : list Z) (i : nat) :
  nested_relationship V F P uE2E EMAP raw_cells num_raw_cells C Is
    outer_facets outer_cells num_components = Ok n ->
  NoDup (raw_id <$> outer_cells) ->
  embed_component outer_cells n num_raw_cells embedded_cells i
    <> Err (AssertionFailed "num_ambient_comps == ambient_cells_i.size()").
Proof.
  intros H Hnd.
  assert (Hpair : forall index oc l l', outer_cells !! index = Some oc ->
            ambient_comps n !! index = Some l ->
            ambient_cells n !! raw_id oc = Some l' ->
            length l = length l').
  { destruct (nested_relationship_inv _ _ _ _ _ _ _ _ H)
      as [(Hnc & mn & mx & Hbb & Hinv)|(Hnc & ->)].
    - destruct Hinv as [_ _ _ _ _ _ Hp]. apply Hp; exact Hnd.
    - simpl. intros index oc l l' _ Hl Hl'.
      apply lookup_replicate in Hl as [-> _].
      apply lookup_replicate in Hl' as [-> _]. reflexivity. }
  unfold embed_component, at_cell, at_index.
  destruct (outer_cells !! i) as [oc|] eqn:Eoc; [|discriminate].
  cbn [mbind result_bind].
  destruct (ambient_comps n !! i) as [l|] eqn:El; [|discriminate].
  cbn [mbind result_bind].
  destruct (ambient_cells n !! Z.to_nat (to_size_t oc)) as [l'|] eqn:El';
    [|discriminate].
  cbn [mbind result_bind].
  rewrite (Hpair i oc l l' Eoc El El'), Nat.eqb_refl.
  cbn [assert mbind result_bind].
  destruct (0 <? length l').
  - destruct (search_parent _ _ _ _ _) as [[comp cell]|e] eqn:Es.
    + cbn [mbind result_bind].
      destruct (negb (comp =? SIZE_MAX)%Z); [|discriminate].
      cbn [assert mbind result_bind].
      destruct (negb (cell =? SIZE_MAX)%Z); [|discriminate].
      cbn [assert mbind result_bind].
      unfold set_at_cell, at_cell, at_index.
      destruct (embedded_cells !! _); discriminate.
    + cbn [mbind result_bind]. intros He. inversion He; subst e.
      clear He. revert Es.
      generalize (seq 0 (length l')). intros js.
      induction js as [|j js IH]; simpl; [discriminate|].
      unfold at_index.
      destruct (l !! j) as [a|]; [|discriminate]. cbn [mbind result_bind].
      destruct (ambient_comps n !! a) as [la|]; [|discriminate].
      cbn [mbind result_bind].
      destruct (length la =? length l' - 1); [|exact IH].
      destruct (l' !! j); discriminate.
  - unfold set_at_cell, at_cell, at_index.
    destruct (embedded_cells !! _); discriminate.
Qed.
End NestingResults.

(** ** The embedding of the outer cells *)

Section Embedding.
Variable outer_cells : list Z.
Variable n : nesting.
Variable num_raw_cells : Z.

(** What one iteration of the resolving loop writes. *)
Lemma embed_component_writes (embedded_cells embedded_cells' : list Z)
    (i : nat) :
  embed_component outer_cells n num_raw_cells embedded_cells i
    = Ok embedded_cells' ->
  exists oc ambient_comps_i ambient_cells_i e,
    outer_cells !! i = Some oc /\
    ambient_comps n !! i = Some ambient_comps_i /\
    ambient_cells n !! raw_id oc = Some ambient_cells_i /\
    length ambient_comps_i = length ambient_cells_i /\
    raw_id oc < length embedded_cells /\
    embedded_cells' = (<[raw_id oc := e]> embedded_cells) /\
    ((ambient_comps_i = [] /\ e = num_raw_cells) \/
     (ambient_comps_i <> [] /\ e <> SIZE_MAX /\ e ∈ ambient_cells_i)).
Proof.
  unfold embed_component. intros H.
  bind_inv H as oc Hoc. bind_inv H as aci Haci. bind_inv H as acl Hacl.
  bind_inv H as u Hu. unfold at_cell in Hacl. ok_inv.
  apply Nat.eqb_eq in Hu.
  assert (Hset : forall x e',
    set_at_cell embedded_cells (to_size_t oc) x = Ok e' ->
    raw_id oc < length embedded_cells /\
    e' = (<[raw_id oc := x]> embedded_cells)).
  { intros x e' Hx. unfold set_at_cell, at_cell in Hx.
    bind_inv Hx as y Hy. ok_inv. split; [|reflexivity].
    eapply lookup_lt_Some; eauto. }
  destruct (0 <? length aci) eqn:Ek.
  - apply Nat.ltb_lt in Ek.
    bind_inv H as r Hr. destruct r as [comp cell].
    bind_inv H as u1 Hu1. bind_inv H as u2 Hu2. ok_inv.
    apply negb_true_iff, Z.eqb_neq in Hu1.
    apply negb_true_iff, Z.eqb_neq in Hu2.
    destruct (Hset _ _ H) as [Hlt ->].
    destruct (search_parent_found _ _ _ _ _ _ _ Hr Hu1)
      as (j & a & Ha & _ & Hcand & Hcell).
    exists oc, aci, acl, cell. repeat (split; [assumption|]).
    split; [reflexivity|]. right.
    split; [intros ->; simpl in Ek; lia|].
    split; [exact Hu2|]. eapply list_elem_of_lookup_2; eauto.
  - apply Nat.ltb_ge in Ek.
    destruct (Hset _ _ H) as [Hlt ->].
    exists oc, aci, acl, num_raw_cells. repeat (split; [assumption|]).
    split; [reflexivity|]. left. split; [|reflexivity].
    destruct aci; [reflexivity|simpl in Ek; lia].
Qed.

(** Property X15.  [extract_cells], lines 243-267.  In the table that the
    resolving loop fills, the entries that leave [INVALID] are those of the
    outer cells of the components, and the outer cell of a component without
    ambient component holds the infinite cell.  (The raw ids are below the
    sentinel of [size_t].) *)
Theorem embedded_cells_belong_to_outer_cells (num_components : nat)
    (embedded_cells : list Z) :
  (0 <= num_raw_cells < SIZE_MAX)%Z ->
  resolve_embedding outer_cells n num_raw_cells num_components
    = Ok embedded_cells ->
  length embedded_cells = Z.to_nat num_raw_cells /\
  (forall x, x < Z.to_nat num_raw_cells ->
     (embedded_cells !! x <> Some SIZE_MAX <->
      exists i oc, i < num_components /\ outer_cells !! i = Some oc /\
                   raw_id oc = x)) /\
  (forall i oc, i < num_components -> outer_cells !! i = Some oc ->
     ambient_comps n !! i = Some [] ->
     embedded_cells !! raw_id oc = Some num_raw_cells).
Proof.
  intros Hnrc Hres. unfold resolve_embedding in Hres.
  assert (Hassert : forall i oc aci acl, i < num_components ->
            outer_cells !! i = Some oc ->
            ambient_comps n !! i = Some aci ->
            ambient_cells n !! raw_id oc = Some acl ->
            length aci = length acl).
  { intros i oc aci acl Hi Hoc Haci Hacl.
    destruct (foldM_Ok_each _ _ _ _ i Hres) as (t1 & t2 & Hst);
      [apply elem_of_seq; lia|].
    destruct (embed_component_writes _ _ _ Hst)
      as (oc' & aci' & acl' & _ & Hoc' & Haci' & Hacl' & Hl & _).
    congruence. }
  pose (I := fun (k : nat) (emb : list Z) =>
    length emb = Z.to_nat num_raw_cells /\
    (forall x, x < Z.to_nat num_raw_cells ->
       (emb !! x <> Some SIZE_MAX <->
        exists i oc, i < k /\ outer_cells !! i = Some oc /\ raw_id oc = x)) /\
    (forall i oc, i < k -> outer_cells !! i = Some oc ->
       ambient_comps n !! i = Some [] ->
       emb !! raw_id oc = Some num_raw_cells)).
  assert (HI : I (0 + num_components) embedded_cells).
  { eapply (foldM_seq_invariant I); [| |exact Hres].
    - intros k s1 s2 Hk (Hlen & Hset & Hroot) Hstep.
      destruct (embed_component_writes _ _ _ Hstep)
        as (oc & aci & acl & e & Hoc & Haci & Hacl & Hl & Hlt & -> & Hcase).
      assert (He : e <> SIZE_MAX).
      { destruct Hcase as [[_ ->]|(_ & He & _)]; [lia|exact He]. }
      split; [rewrite length_insert; exact Hlen|]. split.
      + intros x Hx. destruct (decide (x = raw_id oc)) as [->|Hne].
        * rewrite list_lookup_insert_eq by exact Hlt. split.
          -- intros _. exists k, oc. split; [lia|auto].
          -- intros _ Heq. inversion Heq. contradiction.
        * rewrite list_lookup_insert_ne by congruence.
          rewrite (Hset x Hx). split.
          -- intros (i & oc' & ? & ? & ?). exists i, oc'.
             split; [lia|auto].
          -- intros (i & oc' & Hi & Hoc' & Hid).
             destruct (decide (i = k)) as [->|Hik].
             ++ rewrite Hoc in Hoc'. inversion Hoc'; subst oc'. congruence.
             ++ exists i, oc'. split; [lia|auto].
      + intros i oc' Hi Hoc' Hr.
        destruct (decide (raw_id oc' = raw_id oc)) as [Heq|Hne].
        * rewrite Heq. rewrite list_lookup_insert_eq by exact Hlt.
          f_equal.
          destruct Hcase as [[_ ->]|(Hne & _ & _)]; [reflexivity|].
          (* a component that shares its outer cell with a root has no
             ambient component either: the two lists have one length *)
          exfalso. rewrite <- Heq in Hacl.
          pose proof (Hassert i oc' [] acl ltac:(lia) Hoc' Hr Hacl) as Hz.
          destruct acl; [|discriminate].
          destruct aci; [congruence|discriminate].
        * rewrite list_lookup_insert_ne by congruence.
          apply (Hroot i oc'); auto.
          destruct (decide (i = k)) as [->|Hik]; [|lia].
          rewrite Hoc in Hoc'. inversion Hoc'; subst oc'. congruence.
    - split; [apply length_replicate|]. split.
      + intros x Hx. rewrite lookup_replicate_2 by lia. split.
        * intros Hne; contradiction.
        * intros (i & _ & Hi & _); lia.
      + intros i oc Hi; lia. }
  simpl in HI. exact HI.
Qed.

(** The values of the table: [INVALID], a cell recorded as ambient, or the
    infinite cell for the outer cell of a root. *)
Lemma resolve_embedding_values (num_components : nat)
    (embedded_cells : list Z) :
  (forall x l c, ambient_cells n !! x = Some l -> c ∈ l ->
                 (0 <= c < num_raw_cells)%Z) ->
  resolve_embedding outer_cells n num_raw_cells num_components
    = Ok embedded_cells ->
  forall x e, embedded_cells !! x = Some e ->
    e = SIZE_MAX \/ (0 <= e < num_raw_cells)%Z \/
    (e = num_raw_cells /\
     exists i oc, i < num_components /\ outer_cells !! i = Some oc /\
                  raw_id oc = x /\ ambient_comps n !! i = Some []).
Proof.
  intros Hcells Hres. unfold resolve_embedding in Hres.
  pose (I := fun (k : nat) (emb : list Z) =>
    forall x e, emb !! x = Some e ->
      e = SIZE_MAX \/ (0 <= e < num_raw_cells)%Z \/
      (e = num_raw_cells /\
       exists i oc, i < k /\ outer_cells !! i = Some oc /\
                    raw_id oc = x /\ ambient_comps n !! i = Some [])).
  assert (HI : I (0 + num_components) embedded_cells).
  { eapply (foldM_seq_invariant I); [| |exact Hres].
    - intros k s1 s2 Hk Hs1 Hstep x e Hx.
      destruct (embed_component_writes _ _ _ Hstep)
        as (oc & aci & acl & e0 & Hoc & Haci & Hacl & Hl & Hlt & -> & Hcase).
      destruct (decide (x = raw_id oc)) as [->|Hne].
      + rewrite list_lookup_insert_eq in Hx by exact Hlt.
        inversion Hx; subst e0; clear Hx.
        destruct Hcase as [[-> ->]|(_ & _ & Hin)].
        * right; right. split; [reflexivity|].
          exists k, oc. split; [lia|auto].
        * right; left. eapply Hcells; eauto.
      + rewrite list_lookup_insert_ne in Hx by congruence.
        destruct (Hs1 x e Hx) as [?|[?|(? & i & oc' & ? & ? & ? & ?)]];
          auto.
        right; right. split; [assumption|].
        exists i, oc'. split; [lia|auto].
    - intros x e Hx. apply lookup_replicate in Hx as [-> _]. auto. }
  exact HI.
Qed.
End Embedding.

(** ** The rewrite of the outer cells *)

Lemma rewrite_side_length (embedded_cells : list Z) (i : nat) (side : Z)
    (cells cells' : cell_matrix) :
  rewrite_side embedded_cells i side cells = Ok cells' ->
  length cells' = length cells.
Proof.
  unfold rewrite_side. intros H. bind_inv H as x Hx. bind_inv H as e He.
  destruct (negb _); [|inversion H; reflexivity].
  eapply set_coeff_length; eauto.
Qed.

(** Property X16.  [extract_cells], lines 268-275.  The loop replaces every
    entry once, by what the table holds for the id the entry had when the
    loop began; an id whose table entry is [INVALID] stays.  Nothing is
    replaced a second time, and the rows beyond the patches are not touched. *)
Theorem rewrite_replaces_each_entry_once (embedded_cells : list Z)
    (raw raw' : cell_matrix) (num_patches : nat) :
  foldM (rewrite_patch embedded_cells) (seq 0 num_patches) raw = Ok raw' ->
  length raw' = length raw /\
  (forall p side x, p < num_patches -> coeff raw p side = Ok x ->
     exists e, embedded_cells !! raw_id x = Some e /\
       coeff raw' p side
         = Ok (if (e =? SIZE_MAX)%Z then x else to_int e)) /\
  (forall p, num_patches <= p -> raw' !! p = raw !! p).
Proof.
  intros Hfold.
  pose (I := fun (i : nat) (cells : cell_matrix) =>
    length cells = length raw /\
    (forall p side x, p < i -> coeff raw p side = Ok x ->
       exists e, embedded_cells !! raw_id x = Some e /\
         coeff cells p side
           = Ok (if (e =? SIZE_MAX)%Z then x else to_int e)) /\
    (forall p, i <= p -> cells !! p = raw !! p)).
  assert (HI : I (0 + num_patches) raw').
  { eapply (foldM_seq_invariant I); [| |exact Hfold].
    - intros i s1 s2 _ (Hlen & Hdone & Hrest) Hstep.
      unfold rewrite_patch in Hstep. bind_inv Hstep as c1 Hc1.
      pose proof (rewrite_side_length _ _ _ _ _ Hc1) as Hlen1.
      pose proof (rewrite_side_length _ _ _ _ _ Hstep) as Hlen2.
      destruct (rewrite_side_coeff _ _ _ _ _ Hc1)
        as (x0 & e0 & Hx0 & He0 & Hco1 & Hrow1).
      destruct (rewrite_side_coeff _ _ _ _ _ Hstep)
        as (x1 & e1 & Hx1 & He1 & Hco2 & Hrow2).
      split; [congruence|]. split.
      + intros p side x Hp Hx. rewrite Hco2, Hco1.
        destruct (decide (p = i)) as [->|Hpi].
        * assert (Hraw : coeff s1 i side = Ok x).
          { rewrite (coeff_of_row s1 raw) by (apply Hrest; lia). exact Hx. }
          destruct (coeff_Ok_lt _ _ _ _ Hx) as [_ [-> | ->]].
          -- destruct (decide (i = i /\ 0%Z = 1%Z)) as [[_ ?]|_];
               [discriminate|].
             destruct (decide (i = i /\ 0%Z = 0%Z)) as [_|?]; [|tauto].
             rewrite Hraw in Hx0. inversion Hx0; subst x0. eauto.
          -- destruct (decide (i = i /\ 1%Z = 1%Z)) as [_|?]; [|tauto].
             rewrite Hco1 in Hx1.
             destruct (decide (i = i /\ 1%Z = 0%Z)) as [[_ ?]|_];
               [discriminate|].
             rewrite Hraw in Hx1. inversion Hx1; subst x1. eauto.
        * destruct (decide (p = i /\ side = 1%Z)) as [[? _]|_];
            [contradiction|].
          destruct (decide (p = i /\ side = 0%Z)) as [[? _]|_];
            [contradiction|].
          apply Hdone; [lia|exact Hx].
      + intros p Hp. rewrite Hrow2, Hrow1 by lia. apply Hrest. lia.
    - split; [reflexivity|]. split; [intros p side x Hp; lia|auto]. }
  exact HI.
Qed.

(** ** The relabeling *)

(** Property X17.  [extract_cells], lines 277-303.  The relabeling keeps the
    cells apart and together: two entries get the same final id exactly when
    they held the same id before.  (Raw ids in the range of [int].) *)
Theorem relabeling_is_injective (raw cells : cell_matrix)
    (num_raw_cells count : Z) (num_patches : nat) (p q : nat)
    (sp sq x y : Z) :
  (num_raw_cells + 1 < 2 ^ 31)%Z ->
  compact_labels raw num_raw_cells num_patches = Ok (cells, count) ->
  p < num_patches -> q < num_patches ->
  coeff raw p sp = Ok x -> coeff raw q sq = Ok y ->
  (coeff cells p sp = coeff cells q sq <-> to_size_t x = to_size_t y).
Proof.
  intros Hsmall Hrun Hp Hq Hx Hy.
  destruct (compact_labels_coeff raw cells num_raw_cells count num_patches
              Hsmall Hrun p sp x Hp Hx) as [Hcx Hinx].
  destruct (compact_labels_coeff raw cells num_raw_cells count num_patches
              Hsmall Hrun q sq y Hq Hy) as [Hcy Hiny].
  rewrite Hcx, Hcy.
  assert (Hid : raw_id x = raw_id y <-> to_size_t x = to_size_t y).
  { unfold raw_id. split; [|congruence]. intros H.
    pose proof (to_size_t_range x). pose proof (to_size_t_range y).
    apply Z2Nat.inj; lia. }
  rewrite <- Hid. split.
  - intros H. inversion H as [Hr]. apply Nat2Z.inj in Hr.
    pose proof (rank_of_lookup _ _ Hinx) as H1.
    pose proof (rank_of_lookup _ _ Hiny) as H2.
    rewrite Hr in H1. congruence.
  - intros ->. reflexivity.
Qed.

(** ** The whole of [extract_cells] *)

Section Pipeline.
Context {coll : Collaborators}.
Variable V : list point.
Variable F : list face.
Variable P : list nat.
Variable E : list (nat * nat).
Variable uE : list (nat * nat).
Variable uE2E : list (list nat).
Variable EMAP : list nat.

Lemma raw_cells_in_range (raw_cells : cell_matrix) (num_raw_cells : Z)
    (p : nat) (side x : Z) :
  patch_ids_small P ->
  extract_cells_single_component V F P uE uE2E EMAP
    = Ok (raw_cells, num_raw_cells) ->
  coeff raw_cells p side = Ok x ->
  (0 <= x < num_raw_cells)%Z.
Proof.
  intros Hsmall H Hx.
  destruct (extract_cells_single_component_run _ _ _ _ _ _ _ H)
    as (s & Hrun & Hr). inversion Hr; subst raw_cells num_raw_cells; clear Hr.
  destruct (single_component_run_cache _ _ _ _ _ _ _ Hrun)
    as (m & c & Hm & Hc & Hfold).
  pose proof (patch_ids_small_max _ _ Hsmall Hm) as Hlt.
  destruct (sweep_inv_final F P EMAP c (m + 1) Hlt s Hfold)
    as [Hlen Hcnt Hrange Hcar Hdone Hvis].
  destruct (coeff_Ok_lt _ _ _ _ Hx) as [Hp _].
  destruct (Hrange p side x Hx) as [Hinv|?]; [|assumption].
  exfalso. eapply (Hdone p side x); [lia|exact Hx|exact Hinv].
Qed.

(** The phases of a run, with the ranges that the later phases rely
    on. *)
Lemma extract_cells_run (cells : cell_matrix) (count : Z) :
  patch_ids_small P ->
  extract_cells V F P E uE uE2E EMAP = Ok (cells, count) ->
  exists m raw_cells num_raw_cells Is outer n embedded_cells raw_cells',
    maxCoeff P = Ok m /\
    extract_cells_single_component V F P uE uE2E EMAP
      = Ok (raw_cells, num_raw_cells) /\
    group_faces F (facet_components E EMAP uE2E).1
      (length (facet_components E EMAP uE2E).2) = Ok Is /\
    find_outer V F P raw_cells Is = Ok outer /\
    nested_relationship V F P uE2E EMAP raw_cells num_raw_cells
      (facet_components E EMAP uE2E).1 Is outer.*1 outer.*2
      (length (facet_components E EMAP uE2E).2) = Ok n /\
    resolve_embedding outer.*2 n num_raw_cells
      (length (facet_components E EMAP uE2E).2) = Ok embedded_cells /\
    foldM (rewrite_patch embedded_cells) (seq 0 (m + 1)) raw_cells
      = Ok raw_cells' /\
    compact_labels raw_cells' num_raw_cells (m + 1) = Ok (cells, count) /\
    (0 <= num_raw_cells /\ num_raw_cells + 1 < 2 ^ 31)%Z /\
    length raw_cells = m + 1 /\
    length raw_cells' = m + 1 /\
    (forall x l c, ambient_cells n !! x = Some l -> c ∈ l ->
                   (0 <= c < num_raw_cells)%Z) /\
    (forall i oc, outer.*2 !! i = Some oc -> (0 <= oc < num_raw_cells)%Z).
Proof.
  intros Hsmall H.
  destruct (extract_cells_phases V F P E uE uE2E EMAP _ H)
    as (m & raw & nrc & Is & outer & n & emb & raw' & Hm & Hsingle & HIs
        & Houter & Hn & Hemb & Hrw & Hcompact).
  exists m, raw, nrc, Is, outer, n, emb, raw'.
  repeat (split; [assumption|]).
  destruct (single_component_count_bound V F P uE uE2E EMAP _ _ _ Hsmall Hm
              Hsingle) as [Hnrc Hlen].
  destruct (rewrite_replaces_each_entry_once _ _ _ _ Hrw) as (Hlen' & _ & _).
  split; [exact Hnrc|]. split; [exact Hlen|]. split; [congruence|]. split.
  - intros x l c Hl Hc.
    destruct (nested_relationship_inv _ _ _ _ _ _ _ _ _ _ _ _ _ Hn)
      as [(_ & mn & mx & _ & Hinv)|(_ & ->)].
    + destruct (ni_cells_raw _ _ _ _ _ _ _ _ Hinv x l c Hl Hc)
        as (p & side & v & Hv & ->).
      pose proof (raw_cells_in_range _ _ _ _ _ Hsmall Hsingle Hv) as Hr.
      rewrite to_size_t_small by lia. exact Hr.
    + simpl in Hl. apply lookup_replicate in Hl as [-> _]. inversion Hc.
  - intros i oc Hoc.
    destruct (find_outer_lookup V F P _ _ _ _ _ Houter Hoc)
      as (p & side & _ & Hv).
    exact (raw_cells_in_range _ _ _ _ _ Hsmall Hsingle Hv).
Qed.

(** Property X18.  [extract_cells], lines 241-308.  In the result, the cell
    0 lies on exactly those patch sides whose raw cell is the outer cell of
    a component without ambient component: the infinite cell is what is
    outside the outermost components, and nothing else.  (Patch ids in the
    range of [int].) *)
Theorem infinite_cell_is_outside_the_roots (cells : cell_matrix) (count : Z)
    (m : nat) (raw_cells : cell_matrix) (num_raw_cells : Z)
    (Is : list (list nat)) (outer : list (nat * Z)) (n : nesting)
    (p : nat) (side x : Z) :
  patch_ids_small P ->
  extract_cells V F P E uE uE2E EMAP = Ok (cells, count) ->
  maxCoeff P = Ok m ->
  extract_cells_single_component V F P uE uE2E EMAP
    = Ok (raw_cells, num_raw_cells) ->
  group_faces F (facet_components E EMAP uE2E).1
    (length (facet_components E EMAP uE2E).2) = Ok Is ->
  find_outer V F P raw_cells Is = Ok outer ->
  nested_relationship V F P uE2E EMAP raw_cells num_raw_cells
    (facet_components E EMAP uE2E).1 Is outer.*1 outer.*2
    (length (facet_components E EMAP uE2E).2) = Ok n ->
  coeff raw_cells p side = Ok x ->
  (coeff cells p side = Ok 0%Z <->
   exists i, ambient_comps n !! i = Some [] /\ outer.*2 !! i = Some x).
Proof.
  intros Hsmall H Hm Hsingle HIs Houter Hn Hx.
  destruct (extract_cells_run _ _ Hsmall H)
    as (m' & raw & nrc & Is' & outer' & n' & emb & raw' & Hm' & Hsingle'
        & HIs' & Houter' & Hn' & Hemb & Hrw & Hcompact & Hnrc & Hlen & Hlen'
        & Hcells & Houters).
  rewrite Hm in Hm'. inversion Hm'; subst m'; clear Hm'.
  rewrite Hsingle in Hsingle'. inversion Hsingle'; subst raw nrc.
  clear Hsingle'.
  rewrite HIs in HIs'. inversion HIs'; subst Is'; clear HIs'.
  rewrite Houter in Houter'. inversion Houter'; subst outer'; clear Houter'.
  rewrite Hn in Hn'. inversion Hn'; subst n'; clear Hn'.
  set (nc := length (facet_components E EMAP uE2E).2) in *.
  destruct (coeff_Ok_lt _ _ _ _ Hx) as [Hp Hside]. rewrite Hlen in Hp.
  pose proof (raw_cells_in_range _ _ _ _ _ Hsmall Hsingle Hx) as Hxr.
  destruct (rewrite_replaces_each_entry_once _ _ _ _ Hrw) as (_ & Hsub & _).
  destruct (Hsub p side x Hp Hx) as (e & He & Hx').
  rewrite (compact_labels_zero raw' cells num_raw_cells count (m + 1)
             ltac:(lia) Hcompact p side _ Hp Hx').
  assert (HSM : SIZE_MAX = (2 ^ 64 - 1)%Z) by reflexivity.
  assert (Hb : (0 <= num_raw_cells < SIZE_MAX)%Z) by lia.
  destruct (embedded_cells_belong_to_outer_cells _ _ _ _ _ Hb Hemb)
    as (_ & _ & Hroots).
  pose proof (nested_relationship_length _ _ _ _ _ _ _ _ _ _ _ _ _ Hn)
    as Hlenn.
  split.
  - intros Hinf.
    destruct (resolve_embedding_values _ _ _ _ _ Hcells Hemb _ _ He)
      as [->|[Her|(-> & i & oc & Hi & Hoc & Hid & Hroot)]].
    + rewrite Z.eqb_refl in Hinf. rewrite to_size_t_small in Hinf by lia.
      lia.
    + destruct (e =? SIZE_MAX)%Z eqn:Ee.
      * rewrite to_size_t_small in Hinf by lia. lia.
      * rewrite to_int_small, to_size_t_small in Hinf by lia. lia.
    + exists i. split; [exact Hroot|].
      pose proof (Houters i oc Hoc) as Hocr.
      unfold raw_id in Hid.
      rewrite !to_size_t_small in Hid by lia.
      assert (oc = x) by lia. congruence.
  - intros (i & Hroot & Hoc).
    assert (Hi : i < nc)
      by (rewrite <- Hlenn; eapply lookup_lt_Some; eauto).
    pose proof (Hroots i x Hi Hoc Hroot) as Hemb_x.
    rewrite Hemb_x in He. inversion He; subst e.
    destruct (num_raw_cells =? SIZE_MAX)%Z eqn:Ee;
      [apply Z.eqb_eq in Ee; lia|].
    rewrite to_int_small, to_size_t_small by lia. reflexivity.
Qed.

(** Property X19.  [extract_cells], lines 277-308.  The count returned is at
    most one more than the number of raw cells, which is at most twice the
    number of patches; every entry of the result lies in [0 .. count-1].
    (Patch ids in the range of [int].) *)
Theorem final_cells_are_counted (cells : cell_matrix) (count : Z) :
  patch_ids_small P ->
  extract_cells V F P E uE uE2E EMAP = Ok (cells, count) ->
  exists m raw_cells num_raw_cells,
    maxCoeff P = Ok m /\
    extract_cells_single_component V F P uE uE2E EMAP
      = Ok (raw_cells, num_raw_cells) /\
    (count <= num_raw_cells + 1)%Z /\
    (num_raw_cells <= 2 * Z.of_nat (m + 1))%Z /\
    length cells = m + 1 /\
    Forall (fun row : Z * Z =>
              (0 <= row.1 < count)%Z /\ (0 <= row.2 < count)%Z) cells.
Proof.
  intros Hsmall H.
  destruct (extract_cells_run _ _ Hsmall H)
    as (m & raw & nrc & Is & outer & n & emb & raw' & Hm & Hsingle
        & HIs & Houter & Hn & Hemb & Hrw & Hcompact & Hnrc & Hlen & Hlen'
        & Hcells & Houters).
  exists m, raw, nrc. split; [exact Hm|]. split; [exact Hsingle|].
  assert (Hs31 : (nrc + 1 < 2 ^ 31)%Z) by lia.
  destruct (compact_labels_first_seen _ _ _ _ _ Hs31 Hcompact)
    as (st & Hinv & -> & -> & _).
  destruct Hinv as [Hag Hcl Hdone Hrest].
  destruct Hag as [Hcount _ Hrange Hnodup _ _].
  split.
  { pose proof (NoDup_bounded_length _ _ Hnodup Hrange) as Hle.
    rewrite Hcount. lia. }
  split.
  { destruct (extract_cells_single_component_run _ _ _ _ _ _ _ Hsingle)
      as (s & Hrun & Hr). inversion Hr; subst raw nrc; clear Hr.
    destruct (single_component_run_cache _ _ _ _ _ _ _ Hrun)
      as (m' & c & Hm' & Hc & Hfold).
    rewrite Hm in Hm'. inversion Hm'; subst m'.
    pose proof (patch_ids_small_max _ _ Hsmall Hm) as Hlt.
    destruct (sweep_inv_final F P EMAP c (m + 1) Hlt s Hfold)
      as [_ Hcnt _ _ _ _]. lia. }
  split; [congruence|].
  apply Forall_lookup. intros p [c0 c1] Hrow.
  assert (Hp : p < m + 1)
    by (rewrite <- Hlen', <- Hcl; eapply lookup_lt_Some; eauto).
  destruct (lookup_lt_is_Some_2 raw' p ltac:(lia)) as [[x0 x1] Hraw].
  destruct (Hdone p x0 x1 Hp Hraw) as (Hrow' & Hin0 & Hin1).
  rewrite Hrow in Hrow'. inversion Hrow'; subst c0 c1. simpl.
  pose proof (rank_of_lt _ _ Hin0). pose proof (rank_of_lt _ _ Hin1).
  rewrite Hcount. lia.
Qed.
End Pipeline.

(** Property X20.  [extract_cells], face level, lines 33-52.  The result has
    one row per face, and every entry of it lies in [0 .. count-1].  (Patch
    ids of [extract_manifold_patches] in the range of [int].) *)
Theorem face_cells_are_counted `{Collaborators} (V : list point)
    (F : list face) (cells : cell_matrix) (num_cells : Z) :
  patch_ids_small
    (extract_manifold_patches F (unique_edge_map F).1.2
       (unique_edge_map F).2) ->
  extract_cells_faces V F = Ok (cells, num_cells) ->
  length cells = num_faces F /\
  Forall (fun row : Z * Z =>
            (0 <= row.1 < num_cells)%Z /\ (0 <= row.2 < num_cells)%Z) cells.
Proof.
  unfold extract_cells_faces.
  destruct (unique_edge_map F) as [[[E uE] EMAP] uE2E]; simpl.
  intros Hsmall Hrun.
  bind_inv Hrun as r Hr. destruct r as [per_patch_cells n].
  bind_inv Hrun as rows Hrows. inversion Hrun; subst rows n; clear Hrun.
  split.
  - pose proof (mapM_Ok_length _ _ _ Hrows) as Hlen.
    rewrite length_seq in Hlen. congruence.
  - destruct (final_cells_are_counted _ _ _ _ _ _ _ _ _ Hsmall Hr)
      as (m & raw & nrc & _ & _ & _ & _ & _ & Hall).
    rewrite Forall_forall in Hall.
    apply Forall_forall. intros row Hrow.
    apply list_elem_of_lookup in Hrow as [i Hi].
    apply mapM_Ok_Forall2 in Hrows.
    destruct (Forall2_lookup_r _ _ _ _ _ Hrows Hi) as (k & _ & Hk).
    bind_inv Hk as p Hp. ok_inv.
    apply Hall. eapply list_elem_of_lookup_2; eauto.
Qed.

(** Property X21.  [peel_cell_bd], lines 457-520.  The queue loop ends: a
    pair (patch, side) is queued only when its entry leaves [INVALID], so a
    peel pops at most [2 * num_patches + 1] pairs, which is what the
    embedding allows it.  No entry point fails for lack of iterations.
    (Patch ids in the range of [int].) *)
Theorem peel_queue_runs_empty `{Collaborators} (V : list point)
    (F : list face) (P : list nat) (E uE : list (nat * nat))
    (uE2E : list (list nat)) (EMAP : list nat) :
  patch_ids_small P ->
  extract_cells_single_component V F P uE uE2E EMAP <> Err OutOfFuel /\
  extract_cells V F P E uE uE2E EMAP <> Err OutOfFuel.
Proof.
  intros Hsmall. split.
  - unfold extract_cells_single_component.
    change (fuelled (s ← single_component_run V F P uE uE2E EMAP;
                     Ok (sw_cells s, sw_count s))).
    apply fuelled_bind; [apply single_component_run_fuelled; exact Hsmall|].
    intros; discriminate.
  - apply extract_cells_fuelled. exact Hsmall.
Qed.

Lemma face_cells_are_counted_witness :
  length [(0, 1); (0, 1); (0, 1); (0, 1); (1, 2); (1, 2); (1, 2); (1, 2);
          (1, 3); (1, 3); (1, 3); (1, 3); (2, 4); (2, 4); (2, 4); (2, 4)]%Z
    = num_faces Nested.F /\
  Forall (fun row : Z * Z => (0 <= row.1 < 5)%Z /\ (0 <= row.2 < 5)%Z)
    [(0, 1); (0, 1); (0, 1); (0, 1); (1, 2); (1, 2); (1, 2); (1, 2);
     (1, 3); (1, 3); (1, 3); (1, 3); (2, 4); (2, 4); (2, 4); (2, 4)]%Z.
Proof.
  apply (@face_cells_are_counted Nested.coll Nested.V Nested.F).
  - repeat constructor; vm_compute; reflexivity.
  - vm_compute. reflexivity.
Defined.

Lemma peel_queue_runs_empty_witness :
  @extract_cells_single_component Fan.coll Fan.V Fan.F Fan.P Fan.uE Fan.uE2E
    Fan.EMAP <> Err OutOfFuel /\
  @extract_cells Fan.coll Fan.V Fan.F Fan.P Fan.E Fan.uE Fan.uE2E Fan.EMAP
    <> Err OutOfFuel.
Proof.
  apply (@peel_queue_runs_empty Fan.coll Fan.V Fan.F Fan.P Fan.E Fan.uE
           Fan.uE2E Fan.EMAP).
  repeat constructor; vm_compute; reflexivity.
Defined.

(** *** Witnesses on the nested arrangement *)

Lemma ambient_components_are_candidates_witness :
  NoDup [1; 2] /\
  ([1; 2] <> [] -> 1 < 4) /\
  forall a, a ∈ [1; 2] ->
    a < 4 /\ a <> 3 /\
    exists bbox_min bbox_max,
      @bounding_boxes Nested.V Nested.F Nested.P 4
        = Ok (bbox_min, bbox_max) /\
      bbox_intersects bbox_min bbox_max a 3 = Ok true.
Proof.
  apply (@ambient_components_are_candidates Nested.coll Nested.V Nested.F
           Nested.P Nested.uE2E Nested.EMAP NestedRun.raw_cells 8%Z
           Nested.P NestedRun.Is NestedRun.outer.*1 NestedRun.outer.*2 4
           NestedRun.recorded 3 [1; 2]).
  - vm_compute. reflexivity.
  - reflexivity.
Defined.

Lemma ambient_lists_have_equal_length_witness :
  embed_component NestedRun.outer.*2 NestedRun.recorded 8%Z
    (replicate 8 SIZE_MAX) 3
  <> Err (AssertionFailed "num_ambient_comps == ambient_cells_i.size()").
Proof.
  apply (@ambient_lists_have_equal_length Nested.coll Nested.V Nested.F
           Nested.P Nested.uE2E Nested.EMAP NestedRun.raw_cells 8%Z
           Nested.P NestedRun.Is NestedRun.outer.*1 NestedRun.outer.*2 4
           NestedRun.recorded (replicate 8 SIZE_MAX) 3).
  - vm_compute. reflexivity.
  - apply NoDup_ListNoDup. vm_compute. repeat constructor; simpl; lia.
Defined.

Lemma embedded_cells_belong_to_outer_cells_witness :
  length NestedRun.embedded_cells = Z.to_nat 8 /\
  (forall x, x < Z.to_nat 8 ->
     (NestedRun.embedded_cells !! x <> Some SIZE_MAX <->
      exists i oc, i < 4 /\ NestedRun.outer.*2 !! i = Some oc /\
                   raw_id oc = x)) /\
  (forall i oc, i < 4 -> NestedRun.outer.*2 !! i = Some oc ->
     ambient_comps NestedRun.recorded !! i = Some [] ->
     NestedRun.embedded_cells !! raw_id oc = Some 8%Z).
Proof.
  apply (embedded_cells_belong_to_outer_cells NestedRun.outer.*2
           NestedRun.recorded 8%Z 4 NestedRun.embedded_cells).
  - unfold SIZE_MAX. lia.
  - vm_compute. reflexivity.
Defined.

Lemma rewrite_replaces_each_entry_once_witness :
  length NestedRun.rewritten = length NestedRun.raw_cells /\
  (forall p side x, p < 4 -> coeff NestedRun.raw_cells p side = Ok x ->
     exists e, NestedRun.embedded_cells !! raw_id x = Some e /\
       coeff NestedRun.rewritten p side
         = Ok (if (e =? SIZE_MAX)%Z then x else to_int e)) /\
  (forall p, 4 <= p -> NestedRun.rewritten !! p = NestedRun.raw_cells !! p).
Proof.
  apply (rewrite_replaces_each_entry_once NestedRun.embedded_cells
           NestedRun.raw_cells NestedRun.rewritten 4).
  vm_compute. reflexivity.
Defined.

Lemma relabeling_is_injective_witness :
  coeff NestedRun.cells 1 0%Z = coeff NestedRun.cells 2 0%Z
  <-> to_size_t 1 = to_size_t 1.
Proof.
  apply (relabeling_is_injective NestedRun.rewritten NestedRun.cells 8%Z 5%Z
           4 1 2 0%Z 0%Z 1%Z 1%Z).
  - lia.
  - vm_compute. reflexivity.
  - lia.
  - lia.
  - reflexivity.
  - reflexivity.
Defined.

Lemma infinite_cell_is_outside_the_roots_witness :
  coeff NestedRun.cells 0 0%Z = Ok 0%Z <->
  exists i, ambient_comps NestedRun.recorded !! i = Some [] /\
            NestedRun.outer.*2 !! i = Some 0%Z.
Proof.
  apply (@infinite_cell_is_outside_the_roots Nested.coll Nested.V Nested.F
           Nested.P Nested.E Nested.uE Nested.uE2E Nested.EMAP
           NestedRun.cells 5%Z 3 NestedRun.raw_cells 8%Z NestedRun.Is
           NestedRun.outer NestedRun.recorded 0 0%Z 0%Z).
  - repeat constructor; vm_compute; reflexivity.
  - vm_compute. reflexivity.
  - reflexivity.
  - vm_compute. reflexivity.
  - vm_compute. reflexivity.
  - vm_compute. reflexivity.
  - vm_compute. reflexivity.
  - reflexivity.
Defined.

Lemma final_cells_are_counted_witness :
  exists m raw_cells num_raw_cells,
    maxCoeff Nested.P = Ok m /\
    @extract_cells_single_component Nested.coll Nested.V Nested.F Nested.P
      Nested.uE Nested.uE2E Nested.EMAP = Ok (raw_cells, num_raw_cells) /\
    (5 <= num_raw_cells + 1)%Z /\
    (num_raw_cells <= 2 * Z.of_nat (m + 1))%Z /\
    length NestedRun.cells = m + 1 /\
    Forall (fun row : Z * Z => (0 <= row.1 < 5)%Z /\ (0 <= row.2 < 5)%Z)
      NestedRun.cells.
Proof.
  apply (@final_cells_are_counted Nested.coll Nested.V Nested.F Nested.P
           Nested.E Nested.uE Nested.uE2E Nested.EMAP NestedRun.cells 5%Z).
  - repeat constructor; vm_compute; reflexivity.
  - vm_compute. reflexivity.
Defined.
